(** * The tunnel relay of simple_vpn_client.c and simple_vpn_server.c

    A shallow embedding of the two programs' relay core: the XOR cipher
    [xor_crypt], the length-prefix framing written inline in
    [vpn_event_loop], the [select] loop itself and the two [main]
    functions with their setup and cleanup paths.

    The operating system is a script the program consumes: what each
    [read] on the TUN device and on the TCP socket delivers, whether each
    [write] succeeds, and what each [select] reports.  The program's
    system calls are recorded as a trace of events.

    What the model takes from the environment:
    - the host is little-endian;
    - a [read] on the connection returns what has arrived, at most the
      count asked for, so a frame may come in pieces;
    - a [read] on the TUN device returns one packet, cut to the count;
    - a [write] transfers all its bytes or fails; a [write] on the
      connection may instead raise SIGPIPE (the peer has shut the
      connection down), which neither program catches, blocks or ignores,
      so that the process ends inside the call;
    - a [read] that stores more than [BUFFER_SIZE] bytes into [buffer] is
      undefined behaviour, and the run ends there in the state [Overrun]. *)

From Stdlib Require Import ZArith List Lia Bool.
From stdpp Require Import base list.
Import ListNotations.
Local Open Scope Z_scope.

(** ** Constants ([#define]s, identical in both files) *)

Definition SERVER_PORT : Z := 5555.
Definition BUFFER_SIZE : Z := 2048.
Definition XOR_KEY : Z := 0x42.

(** ** Bytes and 16-bit words

    An [unsigned char] is a [Z] in [0, 256); a [uint16_t] a [Z] in
    [0, 65536). *)

Definition is_byte (b : Z) : Prop := 0 <= b < 256.
Definition bytes (l : list Z) : Prop := Forall is_byte l.

(** Conversion of an [int] to [unsigned char] and to [uint16_t]. *)
Definition to_uchar (x : Z) : Z := x mod 256.
Definition to_uint16 (x : Z) : Z := x mod 65536.

(** [data[i] ^= key]: both operands are promoted to [int], xor-ed, and the
    result is converted back to [unsigned char]. *)
Definition xor_byte (key : Z) (x : Z) : Z := to_uchar (Z.lxor x key).

(** ** [xor_crypt]

<<
void xor_crypt(unsigned char *data, int len, unsigned char key) {
    for (int i = 0; i < len; i++) {
        data[i] ^= key;
    }
}
>>
    [xor_crypt_from n i] runs the [n] remaining iterations of the loop,
    the counter being [i].  [data] is the memory the pointer designates;
    an index past its end is undefined behaviour in C and is never reached
    from [vpn_event_loop] (see [from_tun] and [from_conn]); [alter] leaves
    the list unchanged there. *)

Fixpoint xor_crypt_from (n : nat) (i : nat) (key : Z) (data : list Z) : list Z :=
  match n with
  | O => data
  | S n' => xor_crypt_from n' (S i) key (alter (xor_byte key) i data)
  end.

Definition xor_crypt (data : list Z) (len : Z) (key : Z) : list Z :=
  xor_crypt_from (Z.to_nat len) 0 key data.

(** ** Byte order

    The programs run on Linux hosts with a TUN driver; the model fixes a
    little-endian host (x86-64, AArch64), where [htons] and [ntohs] swap
    the two bytes of a [uint16_t] and the object representation of a
    [uint16_t] is low byte first. *)

Definition bswap16 (x : Z) : Z :=
  Z.lor (Z.shiftl (Z.land x 255) 8) (Z.land (Z.shiftr x 8) 255).

Definition htons (hostshort : Z) : Z := bswap16 hostshort.
Definition ntohs (netshort : Z) : Z := bswap16 netshort.

(** The two bytes of a [uint16_t] object in memory, and the value two
    bytes of memory hold. *)
Definition uint16_obj (v : Z) : list Z := [Z.land v 255; Z.land (Z.shiftr v 8) 255].

Definition uint16_val (obj : list Z) : Z :=
  match obj with
  | [b0; b1] => Z.lor b0 (Z.shiftl b1 8)
  | _ => 0
  end.

(** ** The operating system as seen by the relay

    Three descriptors exist.  [Tun] is [tun_fd]; [Conn] is the TCP
    connection to the peer ([client_fd] in the server, [server_fd] in the
    client); [Listener] is the server's listening socket ([server_fd] in the
    server). *)

Inductive handle := Tun | Conn | Listener.

(** What a [read] returned: [-1], or the bytes it transferred (their
    number is the return value, [0] for none). *)
Inductive rd := rd_err | rd_bytes (d : list Z).

Definition len (d : list Z) : Z := Z.of_nat (length d).

Definition rd_ret (r : rd) : Z :=
  match r with
  | rd_err => -1
  | rd_bytes d => len d
  end.

(** System calls of a run, in program order. *)
Inductive event :=
| ev_open (h : handle)
| ev_select (ok : bool)
| ev_read (h : handle) (count : Z) (r : rd)
| ev_write (h : handle) (data : list Z) (ok : bool)
| ev_sigpipe (h : handle) (data : list Z)
| ev_close (h : handle).

(** What the TUN device hands to successive [read]s: one packet per call,
    or a failure. *)
Inductive tun_item := tun_packet (p : list Z) | tun_error.

(** What arrives on the TCP connection, in order: a segment of bytes, the
    peer's orderly close, or a connection error.  When nothing is left a
    [read] never returns. *)
Inductive arrival := seg (d : list Z) | fin | rst.

(** What [select] reports: failure, or the read set it leaves. *)
Inductive ready := sel_error | sel_ready (tun conn : bool).

(** How a [write] on the connection ends: it returns, having transferred
    its bytes ([wr_done true]) or with [-1] ([wr_done false]); or the
    kernel raises SIGPIPE, because the peer has shut the connection down.
    Neither file calls [signal] or [sigaction] or uses [send] with
    [MSG_NOSIGNAL], so the signal has its default action: the process is
    ended inside [write], which does not return. *)
Inductive wr := wr_done (ok : bool) | wr_sigpipe.

(** The state the loop works on: the scripts still to be consumed
    ([tun_wr] and [conn_wr] give the outcome of successive [write]s, a
    [write] past the end of the script succeeds), and the loop's two
    objects in memory, [buffer] and the receiving block's [packet_len].
    C leaves both indeterminate when they are declared: the initial
    state chooses their bytes. *)
Record state := {
  tun_in : list tun_item;
  conn_in : list arrival;
  tun_wr : list bool;
  conn_wr : list wr;
  buffer : list Z;
  packet_len : list Z
}.

Definition set_tun_in (q : list tun_item) (st : state) : state :=
  {| tun_in := q; conn_in := conn_in st; tun_wr := tun_wr st;
     conn_wr := conn_wr st; buffer := buffer st; packet_len := packet_len st |}.

Definition set_conn_in (s : list arrival) (st : state) : state :=
  {| tun_in := tun_in st; conn_in := s; tun_wr := tun_wr st;
     conn_wr := conn_wr st; buffer := buffer st; packet_len := packet_len st |}.

Definition set_tun_wr (s : list bool) (st : state) : state :=
  {| tun_in := tun_in st; conn_in := conn_in st; tun_wr := s;
     conn_wr := conn_wr st; buffer := buffer st; packet_len := packet_len st |}.

Definition set_conn_wr (s : list wr) (st : state) : state :=
  {| tun_in := tun_in st; conn_in := conn_in st; tun_wr := tun_wr st;
     conn_wr := s; buffer := buffer st; packet_len := packet_len st |}.

Definition set_buffer (b : list Z) (st : state) : state :=
  {| tun_in := tun_in st; conn_in := conn_in st; tun_wr := tun_wr st;
     conn_wr := conn_wr st; buffer := b; packet_len := packet_len st |}.

Definition set_packet_len (o : list Z) (st : state) : state :=
  {| tun_in := tun_in st; conn_in := conn_in st; tun_wr := tun_wr st;
     conn_wr := conn_wr st; buffer := buffer st; packet_len := o |}.

(** The diagnostics of the loop, one per [break]. *)
Inductive diag :=
| select_failed          (* perror("select() failed") *)
| tun_read_failed        (* perror("Failed to read from TUN device") *)
| send_length_failed     (* perror("Failed to send packet length to ...") *)
| send_packet_failed     (* perror("Failed to send packet to ...") *)
| peer_disconnected      (* printf("... disconnected") *)
| tun_write_failed.      (* perror("Failed to write to TUN device") *)

(** Why a computation does not go on: a [break], a system call that never
    returns, a [read] that stored past the end of [buffer] (undefined
    behaviour, after which the model says nothing), or a [write] that
    raised SIGPIPE and ended the process. *)
Inductive stop := Break (d : diag) | Blocked | Overrun | Killed.

Inductive res (A : Type) := value (a : A) | stopped (s : stop).
Arguments value {A} a.
Arguments stopped {A} s.

(** Code that works on the state, records its system calls and may stop. *)
Definition io (A : Type) : Type := state -> res A * state * list event.

Global Instance io_ret : MRet io := fun A a st => (value a, st, []).

Global Instance io_bind : MBind io := fun A B f m st =>
  match m st with
  | (value a, st1, t1) =>
      match f a st1 with
      | (r, st2, t2) => (r, st2, t1 ++ t2)
      end
  | (stopped s, st1, t1) => (stopped s, st1, t1)
  end.

Definition brk {A : Type} (d : diag) : io A := fun st => (stopped (Break d), st, []).

(** *** [read] *)

(** [read(tun_fd, _, count)]: the next packet, cut to [count] bytes (the
    driver drops what does not fit). *)
Definition tun_read (count : Z) (q : list tun_item) : option (rd * list tun_item) :=
  match q with
  | [] => None
  | tun_error :: q' => Some (rd_err, q')
  | tun_packet p :: q' => Some (rd_bytes (take (Z.to_nat count) p), q')
  end.

(** [read(fd, _, count)] on the connection: with [count = 0] it returns
    [0] at once; otherwise it returns as soon as something has arrived,
    with at most [count] bytes of the first segment, and leaves the rest of
    that segment for the next call. *)
Fixpoint conn_read (count : Z) (s : list arrival) : option (rd * list arrival) :=
  if count <=? 0 then Some (rd_bytes [], s) else
  match s with
  | [] => None
  | seg [] :: s' => conn_read count s'
  | seg d :: s' =>
      Some (rd_bytes (take (Z.to_nat count) d),
            match drop (Z.to_nat count) d with
            | [] => s'
            | d' => seg d' :: s'
            end)
  | fin :: _ => Some (rd_bytes [], s)
  | rst :: s' => Some (rd_err, s')
  end.

(** The transfer a [read] makes from the descriptor's script. *)
Definition sys_read (h : handle) (count : Z) (st : state) : option (rd * state) :=
  match h with
  | Tun =>
      match tun_read count (tun_in st) with
      | Some (r, q) => Some (r, set_tun_in q st)
      | None => None
      end
  | Conn =>
      match conn_read count (conn_in st) with
      | Some (r, s) => Some (r, set_conn_in s st)
      | None => None
      end
  | Listener => Some (rd_err, st)
  end.

(** [nread = read(fd, buffer, count)]: the bytes land at the start of
    [buffer]; more than [BUFFER_SIZE] of them run past its end. *)
Definition read_buffer (h : handle) (count : Z) : io Z := fun st =>
  match sys_read h count st with
  | None => (stopped Blocked, st, [])
  | Some (rd_err, st') => (value (-1), st', [ev_read h count rd_err])
  | Some (rd_bytes d, st') =>
      if BUFFER_SIZE <? len d
      then (stopped Overrun, st', [ev_read h count (rd_bytes d)])
      else (value (len d),
            set_buffer (d ++ drop (length d) (buffer st')) st',
            [ev_read h count (rd_bytes d)])
  end.

(** [nread = read(fd, &packet_len, sizeof(packet_len))]: at most two bytes
    land at the start of the object [packet_len], which has two bytes. *)
Definition read_packet_len (h : handle) : io Z := fun st =>
  match sys_read h 2 st with
  | None => (stopped Blocked, st, [])
  | Some (rd_err, st') => (value (-1), st', [ev_read h 2 rd_err])
  | Some (rd_bytes d, st') =>
      (value (len d),
       set_packet_len (take 2 (d ++ drop (length d) (packet_len st'))) st',
       [ev_read h 2 (rd_bytes d)])
  end.

(** *** [write]

    A [write] on a blocking descriptor transfers all its bytes and returns
    their number, or fails with [-1]; on the connection it may also raise
    SIGPIPE, and then nothing of the program runs after it. *)
Definition next_result (s : list bool) : bool * list bool :=
  match s with
  | [] => (true, [])
  | ok :: s' => (ok, s')
  end.

Definition next_wr (s : list wr) : wr * list wr :=
  match s with
  | [] => (wr_done true, [])
  | r :: s' => (r, s')
  end.

Definition sys_write (h : handle) (data : list Z) : io Z := fun st =>
  match h with
  | Tun =>
      let '(ok, s) := next_result (tun_wr st) in
      (value (if ok then len data else -1), set_tun_wr s st, [ev_write Tun data ok])
  | Conn =>
      match next_wr (conn_wr st) with
      | (wr_done ok, s) =>
          (value (if ok then len data else -1), set_conn_wr s st,
           [ev_write Conn data ok])
      | (wr_sigpipe, s) =>
          (stopped Killed, set_conn_wr s st, [ev_sigpipe Conn data])
      end
  | Listener => (value (-1), st, [ev_write Listener data false])
  end.

(** *** Memory of the loop *)

Definition get_buffer : io (list Z) := fun st => (value (buffer st), st, []).
Definition put_buffer (b : list Z) : io unit := fun st => (value tt, set_buffer b st, []).
Definition get_packet_len : io Z := fun st => (value (uint16_val (packet_len st)), st, []).
Definition put_packet_len (v : Z) : io unit := fun st =>
  (value tt, set_packet_len (uint16_obj v) st, []).

(** ** [vpn_event_loop]

    The two blocks of the loop body and the loop are the same in the
    client and in the server but for the names of the descriptors and the
    wording of the messages. *)

(** The block [if (FD_ISSET(tun_fd, &read_fds)) { ... }]:
<<
    nread = read(tun_fd, buffer, BUFFER_SIZE);
    if (nread < 0) { perror(...); break; }
    xor_crypt(buffer, nread, XOR_KEY);
    uint16_t packet_len = htons(nread);
    if (write(client_fd, &packet_len, sizeof(packet_len)) < 0) { perror(...); break; }
    if (write(client_fd, buffer, nread) < 0) { perror(...); break; }
>> *)

(** From [xor_crypt] to the second [write]: the framing of the [nread]
    bytes at the start of [buffer]. *)
Definition send_frame (nread : Z) : io unit :=
  b ← get_buffer;
  put_buffer (xor_crypt b nread XOR_KEY);;
  let packet_len := htons (to_uint16 nread) in
  r ← sys_write Conn (uint16_obj packet_len);
  if r <? 0 then brk send_length_failed else
  b ← get_buffer;
  r ← sys_write Conn (take (Z.to_nat nread) b);
  if r <? 0 then brk send_packet_failed else
  mret tt.

Definition from_tun : io unit :=
  nread ← read_buffer Tun BUFFER_SIZE;
  if nread <? 0 then brk tun_read_failed else
  send_frame nread.

(** The block [if (FD_ISSET(client_fd, &read_fds)) { ... }]:
<<
    uint16_t packet_len;
    nread = read(client_fd, &packet_len, sizeof(packet_len));
    if (nread <= 0) { printf(...); break; }
    packet_len = ntohs(packet_len);
    nread = read(client_fd, buffer, packet_len);
    if (nread <= 0) { printf(...); break; }
    xor_crypt(buffer, nread, XOR_KEY);
    if (write(tun_fd, buffer, nread) < 0) { perror(...); break; }
>> *)
Definition from_conn : io unit :=
  nread ← read_packet_len Conn;
  if nread <=? 0 then brk peer_disconnected else
  v ← get_packet_len;
  put_packet_len (ntohs v);;
  packet_len ← get_packet_len;
  nread ← read_buffer Conn packet_len;
  if nread <=? 0 then brk peer_disconnected else
  b ← get_buffer;
  put_buffer (xor_crypt b nread XOR_KEY);;
  b ← get_buffer;
  r ← sys_write Tun (take (Z.to_nat nread) b);
  if r <? 0 then brk tun_write_failed else
  mret tt.

(** One pass through the body of [while (1)] after a successful
    [select]. *)
Definition loop_body (tun conn : bool) : io unit :=
  (if tun then from_tun else mret tt);;
  (if conn then from_conn else mret tt).

(** The loop, one iteration for each answer of [select]; when the answers
    run out the process stays blocked in [select]. *)
Fixpoint vpn_event_loop (sched : list ready) (st : state) : stop * state * list event :=
  match sched with
  | [] => (Blocked, st, [])
  | sel_error :: _ => (Break select_failed, st, [ev_select false])
  | sel_ready tun conn :: sched' =>
      match loop_body tun conn st with
      | (value _, st1, t1) =>
          match vpn_event_loop sched' st1 with
          | (s, st2, t2) => (s, st2, ev_select true :: t1 ++ t2)
          end
      | (stopped s, st1, t1) => (s, st1, ev_select true :: t1)
      end
  end.

(** The length the receiving block takes from [packet_len] once [hdr] was
    read into it and [packet_len = ntohs(packet_len)] was run. *)
Definition declared (st : state) (hdr : list Z) : Z :=
  uint16_val (uint16_obj (ntohs (uint16_val
    (take 2 (hdr ++ drop (length hdr) (packet_len st)))))).

(** ** Setup and [main]

    The outcome of every setup call is given by the environment. *)
Record setup := {
  argc : Z;
  open_ok : bool;         (* open("/dev/net/tun", O_RDWR) >= 0 *)
  tunsetiff_ok : bool;    (* ioctl(tun_fd, TUNSETIFF, &ifr) >= 0 *)
  socket_ok : bool;       (* socket(AF_INET, SOCK_STREAM, 0) >= 0 *)
  bind_ok : bool;         (* bind(...) >= 0 *)
  listen_ok : bool;       (* listen(sock_fd, 5) >= 0 *)
  accept_ok : bool;       (* accept(...) >= 0 *)
  inet_pton_ok : bool;    (* inet_pton(AF_INET, server_ip, ...) > 0 *)
  connect_ok : bool       (* connect(...) >= 0 *)
}.

(** How a process ends: [exit(status)] or [return status] from [main];
    blocked for ever in a system call; after undefined behaviour; or ended
    by SIGPIPE, with no exit status and with no statement of the program
    run after the [write] that raised it. *)
Inductive outcome := exits (status : Z) | never_returns | undefined | killed_by_sigpipe.

(** [create_tun_device], the same in both files: [None] is the [-1] it
    returns on failure. *)
Definition create_tun_device (e : setup) : option handle * list event :=
  if negb (open_ok e) then (None, [])
  else if negb (tunsetiff_ok e) then (None, [ev_open Tun; ev_close Tun])
  else (Some Tun, [ev_open Tun]).

(** What [main] does with the result of [vpn_event_loop]: the loop returns
    only through a [break], and [main] then closes its descriptors and
    returns 0.  A process ended by SIGPIPE inside the loop never reaches
    the [close]s. *)
Definition cleanup (closes : list event) (r : stop * state * list event)
  : outcome * list event :=
  match r with
  | (Break _, _, t) => (exits 0, t ++ closes)
  | (Blocked, _, t) => (never_returns, t)
  | (Overrun, _, t) => (undefined, t)
  | (Killed, _, t) => (killed_by_sigpipe, t)
  end.

Definition prepend (t0 : list event) (r : outcome * list event) : outcome * list event :=
  (fst r, t0 ++ snd r).

Module Server.

Definition create_server_socket (e : setup) : option handle * list event :=
  if negb (socket_ok e) then (None, [])
  else if negb (bind_ok e) then (None, [ev_open Listener; ev_close Listener])
  else if negb (listen_ok e) then (None, [ev_open Listener; ev_close Listener])
  else (Some Listener, [ev_open Listener]).

(** [close(client_fd); close(server_fd); close(tun_fd);] *)
Definition closes : list event := [ev_close Conn; ev_close Listener; ev_close Tun].

Definition main (e : setup) (sched : list ready) (st : state) : outcome * list event :=
  match create_tun_device e with
  | (None, t0) => (exits 1, t0)
  | (Some _, t0) =>
      match create_server_socket e with
      | (None, t1) => (exits 1, t0 ++ t1 ++ [ev_close Tun])
      | (Some _, t1) =>
          if negb (accept_ok e)
          then (exits 1, t0 ++ t1 ++ [ev_close Listener; ev_close Tun])
          else prepend (t0 ++ t1 ++ [ev_open Conn])
                       (cleanup closes (vpn_event_loop sched st))
      end
  end.

(** Every setup call of the server succeeds. *)
Definition setup_ok (e : setup) : bool :=
  open_ok e && tunsetiff_ok e && socket_ok e && bind_ok e && listen_ok e && accept_ok e.

End Server.

Module Client.

Definition connect_to_server (e : setup) : option handle * list event :=
  if negb (socket_ok e) then (None, [])
  else if negb (inet_pton_ok e) then (None, [ev_open Conn; ev_close Conn])
  else if negb (connect_ok e) then (None, [ev_open Conn; ev_close Conn])
  else (Some Conn, [ev_open Conn]).

(** [close(server_fd); close(tun_fd);] *)
Definition closes : list event := [ev_close Conn; ev_close Tun].

Definition main (e : setup) (sched : list ready) (st : state) : outcome * list event :=
  if negb (argc e =? 2) then (exits 1, [])
  else
  match create_tun_device e with
  | (None, t0) => (exits 1, t0)
  | (Some _, t0) =>
      match connect_to_server e with
      | (None, t1) => (exits 1, t0 ++ t1 ++ [ev_close Tun])
      | (Some _, t1) =>
          prepend (t0 ++ t1) (cleanup closes (vpn_event_loop sched st))
      end
  end.

(** The argument is there and every setup call of the client succeeds. *)
Definition setup_ok (e : setup) : bool :=
  (argc e =? 2) && open_ok e && tunsetiff_ok e && socket_ok e && inet_pton_ok e
  && connect_ok e.

End Client.

(** The two programs side by side. *)
Inductive program := server | client.

Definition main_of (p : program) : setup -> list ready -> state -> outcome * list event :=
  match p with
  | server => Server.main
  | client => Client.main
  end.

Definition closes_of (p : program) : list event :=
  match p with
  | server => Server.closes
  | client => Client.closes
  end.

Definition setup_ok_of (p : program) : setup -> bool :=
  match p with
  | server => Server.setup_ok
  | client => Client.setup_ok
  end.

(** The descriptors a program holds when its setup has succeeded, in the
    order it obtained them. *)
Definition opens_of (p : program) : list event :=
  match p with
  | server => [ev_open Tun; ev_open Listener; ev_open Conn]
  | client => [ev_open Tun; ev_open Conn]
  end.

(** A setup in which every call succeeds, and a state in which nothing
    is scripted: no packet on the TUN device, nothing on the connection,
    every [write] accepted. *)
Definition all_ok : setup :=
  {| argc := 2; open_ok := true; tunsetiff_ok := true; socket_ok := true;
     bind_ok := true; listen_ok := true; accept_ok := true; inet_pton_ok := true;
     connect_ok := true |}.

Definition idle (b o : list Z) : state :=
  {| tun_in := []; conn_in := []; tun_wr := []; conn_wr := [];
     buffer := b; packet_len := o |}.

(** An IP packet for the examples: a bare IPv4 header of 20 bytes,
    protocol ICMP, from 10.8.0.2 to 8.8.8.8, with its checksum. *)
Definition ip_packet : list Z :=
  [69; 0; 0; 20; 0; 0; 0; 0; 64; 1; 96; 208; 10; 8; 0; 2; 8; 8; 8; 8].

(** The same with [buffer] and [packet_len] zeroed. *)
Definition zero_buffer : list Z := repeat 0 (Z.to_nat BUFFER_SIZE).
Definition fresh : state := idle zero_buffer [0; 0].

(** ** Reading a trace *)

(** Bytes the connection accepted, in order. *)
Definition conn_sent (t : list event) : list Z :=
  flat_map (fun e => match e with ev_write Conn d true => d | _ => [] end) t.

(** Packets the TUN device accepted, in order. *)
Definition tun_injected (t : list event) : list (list Z) :=
  flat_map (fun e => match e with ev_write Tun d true => [d] | _ => [] end) t.

(** A call that fails: a failed [select], a failed [read] on the TUN
    device, a [read] on the connection that returned nothing or failed
    ([nread <= 0]), a failed [write], a [write] that raised SIGPIPE.  The
    last one is [fatal]: the others return and the loop tests their
    result. *)
Definition io_failure (e : event) : bool :=
  match e with
  | ev_select ok => negb ok
  | ev_read Tun _ r => rd_ret r <? 0
  | ev_read _ _ r => rd_ret r <=? 0
  | ev_write _ _ ok => negb ok
  | ev_sigpipe _ _ => true
  | _ => false
  end.

Definition fatal (e : event) : bool :=
  match e with
  | ev_sigpipe _ _ => true
  | _ => false
  end.

(** A [read] or a [write] on a descriptor. *)
Definition transfers (e : event) : bool :=
  match e with
  | ev_read _ _ _ | ev_write _ _ _ | ev_sigpipe _ _ => true
  | _ => false
  end.

(** The calls of the loop: [select], [read], [write]. *)
Definition in_loop (e : event) : bool :=
  match e with
  | ev_select _ | ev_read _ _ _ | ev_write _ _ _ | ev_sigpipe _ _ => true
  | _ => false
  end.

(** The two directions of the relay. *)
Definition outbound (e : event) : bool :=
  match e with
  | ev_read Tun _ _ | ev_write Conn _ _ | ev_sigpipe Conn _ => true
  | _ => false
  end.

Definition inbound (e : event) : bool :=
  match e with
  | ev_read Conn _ _ | ev_write Tun _ _ => true
  | _ => false
  end.

(** The length prefix of a frame as the wire carries it: high byte
    first. *)
Definition frame_header (n : Z) : list Z := [n / 256; n mod 256].

(** The calls of one direction come in blocks, one block for each packet:
    the [read] that obtains it and then the [write]s that deliver it.  Only
    the last block may be cut short, by the failure the loop leaves on, by
    a [write] that raises SIGPIPE (or, inbound, by a [read] that never
    returns or overruns [buffer]). *)
Inductive outbound_order : list event -> Prop :=
| out_none : outbound_order []
| out_frame p rest :
    outbound_order rest ->
    outbound_order (ev_read Tun BUFFER_SIZE (rd_bytes p)
                    :: ev_write Conn (frame_header (len p)) true
                    :: ev_write Conn (map (xor_byte XOR_KEY) p) true :: rest)
| out_read_failed :
    outbound_order [ev_read Tun BUFFER_SIZE rd_err]
| out_length_failed p :
    outbound_order [ev_read Tun BUFFER_SIZE (rd_bytes p);
                    ev_write Conn (frame_header (len p)) false]
| out_packet_failed p :
    outbound_order [ev_read Tun BUFFER_SIZE (rd_bytes p);
                    ev_write Conn (frame_header (len p)) true;
                    ev_write Conn (map (xor_byte XOR_KEY) p) false]
| out_length_killed p :
    outbound_order [ev_read Tun BUFFER_SIZE (rd_bytes p);
                    ev_sigpipe Conn (frame_header (len p))]
| out_packet_killed p :
    outbound_order [ev_read Tun BUFFER_SIZE (rd_bytes p);
                    ev_write Conn (frame_header (len p)) true;
                    ev_sigpipe Conn (map (xor_byte XOR_KEY) p)].

Inductive inbound_order : list event -> Prop :=
| in_none : inbound_order []
| in_packet hdr count d rest :
    inbound_order rest ->
    inbound_order (ev_read Conn 2 (rd_bytes hdr)
                   :: ev_read Conn count (rd_bytes d)
                   :: ev_write Tun (map (xor_byte XOR_KEY) d) true :: rest)
| in_no_length r :
    inbound_order [ev_read Conn 2 r]
| in_no_payload hdr count r :
    inbound_order [ev_read Conn 2 (rd_bytes hdr); ev_read Conn count r]
| in_write_failed hdr count d :
    inbound_order [ev_read Conn 2 (rd_bytes hdr);
                   ev_read Conn count (rd_bytes d);
                   ev_write Tun (map (xor_byte XOR_KEY) d) false].

(** ** A sender and a receiver

    A relay whose TUN device holds the one packet [p], and a relay on whose
    connection the bytes [wire] have all arrived before the peer closed.
    [b] and [o] are the bytes [buffer] and [packet_len] happen to hold. *)
Definition sender (b : list Z) (p : list Z) : state :=
  {| tun_in := [tun_packet p]; conn_in := []; tun_wr := []; conn_wr := [];
     buffer := b; packet_len := [] |}.

Definition receiver (b o : list Z) (wire : list Z) : state :=
  {| tun_in := []; conn_in := [seg wire; fin]; tun_wr := []; conn_wr := [];
     buffer := b; packet_len := o |}.

(** The bytes the sender's block puts on the wire for [p], and the packets
    the receiver's block injects when it finds [wire]. *)
Definition encode (b : list Z) (p : list Z) : list Z :=
  conn_sent (snd (from_tun (sender b p))).

Definition decode (b o : list Z) (wire : list Z) : list (list Z) :=
  tun_injected (snd (from_conn (receiver b o wire))).

(** A packet of the greatest length a frame can declare. *)
Definition jumbo : list Z := repeat 7 (Z.to_nat 65535).

(** ** A stream of packets

    What [buffer] takes of a packet read from the TUN device, the frame of
    a packet, and the calls of one pass of the loop that sends, or
    receives, one packet. *)
Definition clip (p : list Z) : list Z := take (Z.to_nat BUFFER_SIZE) p.

Definition frame_of (p : list Z) : list Z :=
  frame_header (len p) ++ map (xor_byte XOR_KEY) p.

Definition pass_out (p : list Z) : list event :=
  [ev_select true;
   ev_read Tun BUFFER_SIZE (rd_bytes (clip p));
   ev_write Conn (frame_header (len (clip p))) true;
   ev_write Conn (map (xor_byte XOR_KEY) (clip p)) true].

Definition pass_in (p : list Z) : list event :=
  [ev_select true;
   ev_read Conn 2 (rd_bytes (frame_header (len p)));
   ev_read Conn (len p) (rd_bytes (map (xor_byte XOR_KEY) p));
   ev_write Tun p true].

(** A packet the relay carries whole: bytes, at least one and at most
    [BUFFER_SIZE] of them. *)
Definition relayable (p : list Z) : Prop := bytes p /\ 1 <= len p <= BUFFER_SIZE.

(** The byte strings the connection accepted, one for each [write]. *)
Definition conn_writes (t : list event) : list (list Z) :=
  flat_map (fun e => match e with ev_write Conn d true => [d] | _ => [] end) t.

(** How the bytes a sender wrote reach the receiver: joined in one segment,
    or one segment for each [write]. *)
Definition arrives (joined : bool) (t : list event) : list arrival :=
  if joined then [seg (conn_sent t)] else map seg (conn_writes t).

(** The stream [s] hands the frames of the packets [ps] whole to the two
    [read]s of the receiving block, and is [s'] after them. *)
Inductive carries : list arrival -> list (list Z) -> list arrival -> Prop :=
| carries_none s : carries s [] s
| carries_frame s s1 s2 s' p ps :
    conn_read 2 s = Some (rd_bytes (frame_header (len p)), s1) ->
    conn_read (len p) s1 = Some (rd_bytes (map (xor_byte XOR_KEY) p), s2) ->
    carries s2 ps s' ->
    carries s (p :: ps) s'.

(** What is left of a segment. *)
Definition pending (d : list Z) (s : list arrival) : list arrival :=
  match d with
  | [] => s
  | x :: d' => seg (x :: d') :: s
  end.

(** ** Descriptors held

    Which descriptors a process holds, and the discipline of a trace: a
    descriptor is opened only when it is not held, closed, read and written
    only when it is held, and [select] is called only when the TUN device
    and the connection are both held.  [follows held t] is what is held
    after the trace [t], or [None] when [t] breaks the discipline. *)
Record held := { holds_tun : bool; holds_conn : bool; holds_listener : bool }.

Definition holds (k : held) (h : handle) : bool :=
  match h with
  | Tun => holds_tun k
  | Conn => holds_conn k
  | Listener => holds_listener k
  end.

Definition set_holds (h : handle) (v : bool) (k : held) : held :=
  match h with
  | Tun => {| holds_tun := v; holds_conn := holds_conn k; holds_listener := holds_listener k |}
  | Conn => {| holds_tun := holds_tun k; holds_conn := v; holds_listener := holds_listener k |}
  | Listener => {| holds_tun := holds_tun k; holds_conn := holds_conn k; holds_listener := v |}
  end.

Definition nothing_held : held :=
  {| holds_tun := false; holds_conn := false; holds_listener := false |}.

Fixpoint follows (k : held) (t : list event) : option held :=
  match t with
  | [] => Some k
  | ev_open h :: t' => if holds k h then None else follows (set_holds h true k) t'
  | ev_close h :: t' => if holds k h then follows (set_holds h false k) t' else None
  | ev_read h _ _ :: t' => if holds k h then follows k t' else None
  | ev_write h _ _ :: t' => if holds k h then follows k t' else None
  | ev_sigpipe h _ :: t' => if holds k h then follows k t' else None
  | ev_select _ :: t' => if holds k Tun && holds k Conn then follows k t' else None
  end.

(** A call of the loop on the TUN device or on the connection. *)
Definition on_session (e : event) : bool :=
  match e with
  | ev_select _ => true
  | ev_read Tun _ _ | ev_read Conn _ _ => true
  | ev_write Tun _ _ | ev_write Conn _ _ => true
  | ev_sigpipe Tun _ | ev_sigpipe Conn _ => true
  | _ => false
  end.

(** ** The session so far, and the ways out of the loop

    [completes sched st st' t]: from [st] the loop makes one pass for each
    answer of [sched]; [select] fails in none of them and each pass runs to
    the end of the body; the calls are [t] and the state afterwards is
    [st']. *)
Inductive completes : list ready -> state -> state -> list event -> Prop :=
| completes_nil st : completes [] st st []
| completes_pass tun conn sched st st1 t1 st2 t2 :
    loop_body tun conn st = (value tt, st1, t1) ->
    completes sched st1 st2 t2 ->
    completes (sel_ready tun conn :: sched) st st2 (ev_select true :: t1 ++ t2).

(** What the first block of a pass does when it does not stop: nothing,
    when the TUN device is not in the read set; when it is, a packet is
    read and the connection takes both [write]s of its frame. *)
Inductive tun_part : bool -> state -> list event -> Prop :=
| tun_idle st : tun_part false st []
| tun_relays st pk q :
    tun_in st = tun_packet pk :: q ->
    fst (next_wr (conn_wr st)) = wr_done true ->
    fst (next_wr (snd (next_wr (conn_wr st)))) = wr_done true ->
    tun_part true st
             [ev_read Tun BUFFER_SIZE (rd_bytes (clip pk));
              ev_write Conn (frame_header (len (clip pk))) true;
              ev_write Conn (map (xor_byte XOR_KEY) (clip pk)) true].

(** The [break]s of the loop, each with what the environment does for the
    pass to reach it: [leaves sel st d t] when, in the state [st], the
    answer [sel] of [select] is followed by the calls [t] (the [select]
    first) up to the [break] with the diagnostic [d].  In source order:
    [select] fails; the [read] of the TUN device fails; the connection
    rejects the [write] of the length, or of the packet; the [read] of the
    length finds the connection closed by the peer, or failed; so does the
    [read] of the payload; the TUN device rejects the [write]. *)
Inductive leaves : ready -> state -> diag -> list event -> Prop :=
| leaves_select st :
    leaves sel_error st select_failed [ev_select false]
| leaves_tun_read conn st q :
    tun_in st = tun_error :: q ->
    leaves (sel_ready true conn) st tun_read_failed
           [ev_select true; ev_read Tun BUFFER_SIZE rd_err]
| leaves_send_length conn st pk q w :
    tun_in st = tun_packet pk :: q -> conn_wr st = wr_done false :: w ->
    leaves (sel_ready true conn) st send_length_failed
           [ev_select true;
            ev_read Tun BUFFER_SIZE (rd_bytes (clip pk));
            ev_write Conn (frame_header (len (clip pk))) false]
| leaves_send_packet conn st pk q w :
    tun_in st = tun_packet pk :: q ->
    conn_wr st = wr_done true :: wr_done false :: w ->
    leaves (sel_ready true conn) st send_packet_failed
           [ev_select true;
            ev_read Tun BUFFER_SIZE (rd_bytes (clip pk));
            ev_write Conn (frame_header (len (clip pk))) true;
            ev_write Conn (map (xor_byte XOR_KEY) (clip pk)) false]
| leaves_closed tun st t0 rest :
    tun_part tun st t0 ->
    conn_in st = fin :: rest ->
    leaves (sel_ready tun true) st peer_disconnected
           (ev_select true :: t0 ++ [ev_read Conn 2 (rd_bytes [])])
| leaves_reset tun st t0 rest :
    tun_part tun st t0 ->
    conn_in st = rst :: rest ->
    leaves (sel_ready tun true) st peer_disconnected
           (ev_select true :: t0 ++ [ev_read Conn 2 rd_err])
| leaves_payload_closed tun st t0 h l rest :
    tun_part tun st t0 ->
    is_byte h -> is_byte l ->
    conn_in st = seg [h; l] :: fin :: rest ->
    leaves (sel_ready tun true) st peer_disconnected
           (ev_select true :: t0 ++
            [ev_read Conn 2 (rd_bytes [h; l]);
             ev_read Conn (256 * h + l) (rd_bytes [])])
| leaves_payload_reset tun st t0 h l rest :
    tun_part tun st t0 ->
    is_byte h -> is_byte l -> 0 < 256 * h + l ->
    conn_in st = seg [h; l] :: rst :: rest ->
    leaves (sel_ready tun true) st peer_disconnected
           (ev_select true :: t0 ++
            [ev_read Conn 2 (rd_bytes [h; l]);
             ev_read Conn (256 * h + l) rd_err])
| leaves_tun_write tun st t0 h l d rest w :
    tun_part tun st t0 ->
    is_byte h -> is_byte l -> d <> [] -> 0 < 256 * h + l ->
    len (take (Z.to_nat (256 * h + l)) d) <= BUFFER_SIZE ->
    conn_in st = seg (h :: l :: d) :: rest ->
    tun_wr st = false :: w ->
    leaves (sel_ready tun true) st tun_write_failed
           (ev_select true :: t0 ++
            [ev_read Conn 2 (rd_bytes [h; l]);
             ev_read Conn (256 * h + l) (rd_bytes (take (Z.to_nat (256 * h + l)) d));
             ev_write Tun (map (xor_byte XOR_KEY) (take (Z.to_nat (256 * h + l)) d))
                      false]).

(** The two [write]s on the connection, each raising SIGPIPE: the calls of
    the pass up to the one the process ends in. *)
Inductive dies : ready -> state -> list event -> Prop :=
| dies_send_length conn st pk q w :
    tun_in st = tun_packet pk :: q -> conn_wr st = wr_sigpipe :: w ->
    dies (sel_ready true conn) st
         [ev_select true;
          ev_read Tun BUFFER_SIZE (rd_bytes (clip pk));
          ev_sigpipe Conn (frame_header (len (clip pk)))]
| dies_send_packet conn st pk q w :
    tun_in st = tun_packet pk :: q ->
    conn_wr st = wr_done true :: wr_sigpipe :: w ->
    dies (sel_ready true conn) st
         [ev_select true;
          ev_read Tun BUFFER_SIZE (rd_bytes (clip pk));
          ev_write Conn (frame_header (len (clip pk))) true;
          ev_sigpipe Conn (map (xor_byte XOR_KEY) (clip pk))].

(** ** The shape of one block

    What one run of a block can return, with the calls it made. *)
Inductive tun_block : res unit -> list event -> Prop :=
| tb_blocked :
    tun_block (stopped Blocked) []
| tb_read_failed :
    tun_block (stopped (Break tun_read_failed)) [ev_read Tun BUFFER_SIZE rd_err]
| tb_length_failed p :
    len p <= BUFFER_SIZE ->
    tun_block (stopped (Break send_length_failed))
              [ev_read Tun BUFFER_SIZE (rd_bytes p);
               ev_write Conn (frame_header (len p)) false]
| tb_packet_failed p :
    len p <= BUFFER_SIZE ->
    tun_block (stopped (Break send_packet_failed))
              [ev_read Tun BUFFER_SIZE (rd_bytes p);
               ev_write Conn (frame_header (len p)) true;
               ev_write Conn (map (xor_byte XOR_KEY) p) false]
| tb_length_killed p :
    len p <= BUFFER_SIZE ->
    tun_block (stopped Killed)
              [ev_read Tun BUFFER_SIZE (rd_bytes p);
               ev_sigpipe Conn (frame_header (len p))]
| tb_packet_killed p :
    len p <= BUFFER_SIZE ->
    tun_block (stopped Killed)
              [ev_read Tun BUFFER_SIZE (rd_bytes p);
               ev_write Conn (frame_header (len p)) true;
               ev_sigpipe Conn (map (xor_byte XOR_KEY) p)]
| tb_sent p :
    len p <= BUFFER_SIZE ->
    tun_block (value tt)
              [ev_read Tun BUFFER_SIZE (rd_bytes p);
               ev_write Conn (frame_header (len p)) true;
               ev_write Conn (map (xor_byte XOR_KEY) p) true].

Inductive conn_block : res unit -> list event -> Prop :=
| cb_blocked :
    conn_block (stopped Blocked) []
| cb_no_length r :
    rd_ret r <= 0 ->
    conn_block (stopped (Break peer_disconnected)) [ev_read Conn 2 r]
| cb_payload_blocked hdr :
    0 < len hdr ->
    conn_block (stopped Blocked) [ev_read Conn 2 (rd_bytes hdr)]
| cb_no_payload hdr count r :
    0 < len hdr -> rd_ret r <= 0 ->
    conn_block (stopped (Break peer_disconnected))
               [ev_read Conn 2 (rd_bytes hdr); ev_read Conn count r]
| cb_overrun hdr count d :
    0 < len hdr -> BUFFER_SIZE < len d <= count ->
    conn_block (stopped Overrun)
               [ev_read Conn 2 (rd_bytes hdr); ev_read Conn count (rd_bytes d)]
| cb_write_failed hdr count d :
    0 < len hdr -> 0 < len d <= BUFFER_SIZE ->
    conn_block (stopped (Break tun_write_failed))
               [ev_read Conn 2 (rd_bytes hdr); ev_read Conn count (rd_bytes d);
                ev_write Tun (map (xor_byte XOR_KEY) d) false]
| cb_injected hdr count d :
    0 < len hdr -> 0 < len d <= BUFFER_SIZE ->
    conn_block (value tt)
               [ev_read Conn 2 (rd_bytes hdr); ev_read Conn count (rd_bytes d);
                ev_write Tun (map (xor_byte XOR_KEY) d) true].

(** A trace without a failing call, and the shape of the trace of a run
    that stopped: a [break] comes right after the one failing call, which
    returned; a process ended by SIGPIPE made no call after that
    [write]. *)
Definition clean (t : list event) : Prop := Forall (fun e => io_failure e = false) t.

Definition run_shape (s : stop) (t : list event) : Prop :=
  match s with
  | Break _ =>
      exists pre e, t = pre ++ [e] /\ clean pre /\ io_failure e = true /\ fatal e = false
  | Killed =>
      exists pre e, t = pre ++ [e] /\ clean pre /\ io_failure e = true /\ fatal e = true
  | Blocked | Overrun => clean t
  end.

(** The same for a block, which may also run to its end. *)
Definition block_shape (r : res unit) (t : list event) : Prop :=
  match r with
  | value _ => clean t
  | stopped s => run_shape s t
  end.

(** * The software rasteriser of simple_triangle.c

    [put_pixel], [draw_line], [clear_screen] and [draw_triangle] work on
    three globals: [screen_width], [screen_height] and the mapped
    [framebuffer], one 32-bit word for each pixel, row after row.

    An [int] is a [Z] in [-2^31, 2^31); every arithmetic result goes
    through [wrap_int].  Signed overflow is undefined in C: the theorems are
    stated for coordinates for which no result leaves the range. *)

Definition wrap_int (z : Z) : Z := (z + 2147483648) mod 4294967296 - 2147483648.

Record screen := {
  screen_width : Z;
  screen_height : Z;
  framebuffer : list Z
}.

Definition set_framebuffer (fb : list Z) (s : screen) : screen :=
  {| screen_width := screen_width s; screen_height := screen_height s;
     framebuffer := fb |}.

(** [framebuffer[i] = color].  A negative index, which the callers below
    never produce for a screen that fits an [int], leaves the list as it
    is, as does an index past its end. *)
Definition store_pixel (i : Z) (color : Z) (fb : list Z) : list Z :=
  if i <? 0 then fb else <[Z.to_nat i := color]> fb.

(**
<<
void put_pixel(int x, int y, uint32_t color) {
    if (x >= 0 && x < screen_width && y >= 0 && y < screen_height) {
        framebuffer[y * screen_width + x] = color;
    }
}
>> *)
Definition put_pixel (x y : Z) (color : Z) (s : screen) : screen :=
  if (x >=? 0) && (x <? screen_width s) && (y >=? 0) && (y <? screen_height s)
  then set_framebuffer
         (store_pixel (wrap_int (wrap_int (y * screen_width s) + x)) color (framebuffer s)) s
  else s.

(**
<<
void clear_screen(uint32_t color) {
    for (int i = 0; i < screen_width * screen_height; i++) {
        framebuffer[i] = color;
    }
}
>>
    [clear_from n i] runs the [n] remaining iterations, the counter being
    [i]. *)
Fixpoint clear_from (n : nat) (i : Z) (color : Z) (fb : list Z) : list Z :=
  match n with
  | O => fb
  | S n' => clear_from n' (wrap_int (i + 1)) color (store_pixel i color fb)
  end.

Definition clear_screen (color : Z) (s : screen) : screen :=
  set_framebuffer
    (clear_from (Z.to_nat (wrap_int (screen_width s * screen_height s))) 0 color
                (framebuffer s)) s.

(**
<<
void draw_line(int x0, int y0, int x1, int y1, uint32_t color) {
    int dx = abs(x1 - x0);
    int dy = abs(y1 - y0);
    int sx = x0 < x1 ? 1 : -1;
    int sy = y0 < y1 ? 1 : -1;
    int err = dx - dy;

    while (1) {
        put_pixel(x0, y0, color);
        if (x0 == x1 && y0 == y1) break;
        int e2 = 2 * err;
        if (e2 > -dy) { err -= dy; x0 += sx; }
        if (e2 < dx) { err += dx; y0 += sy; }
    }
}
>>
    [line_loop] is the [while (1)] loop, with one unit of fuel for each
    iteration; it returns the screen and, in order, the points it called
    [put_pixel] on, or [None] when the fuel runs out before the [break]. *)
Fixpoint line_loop (fuel : nat) (x0 y0 x1 y1 dx dy sx sy err : Z) (color : Z)
         (s : screen) : option (screen * list (Z * Z)) :=
  match fuel with
  | O => None
  | S fuel' =>
      let s1 := put_pixel x0 y0 color s in
      if (x0 =? x1) && (y0 =? y1) then Some (s1, [(x0, y0)])
      else
        let e2 := wrap_int (2 * err) in
        let step_x := e2 >? wrap_int (- dy) in
        let err1 := if step_x then wrap_int (err - dy) else err in
        let x0' := if step_x then wrap_int (x0 + sx) else x0 in
        let step_y := e2 <? dx in
        let err2 := if step_y then wrap_int (err1 + dx) else err1 in
        let y0' := if step_y then wrap_int (y0 + sy) else y0 in
        match line_loop fuel' x0' y0' x1 y1 dx dy sx sy err2 color s1 with
        | Some (s2, pts) => Some (s2, (x0, y0) :: pts)
        | None => None
        end
  end.

Definition draw_line (fuel : nat) (x0 y0 x1 y1 : Z) (color : Z) (s : screen)
  : option (screen * list (Z * Z)) :=
  let dx := wrap_int (Z.abs (wrap_int (x1 - x0))) in
  let dy := wrap_int (Z.abs (wrap_int (y1 - y0))) in
  let sx := if x0 <? x1 then 1 else -1 in
  let sy := if y0 <? y1 then 1 else -1 in
  let err := wrap_int (dx - dy) in
  line_loop fuel x0 y0 x1 y1 dx dy sx sy err color s.

(**
<<
void draw_triangle(int x0, int y0, int x1, int y1, int x2, int y2, uint32_t color) {
    draw_line(x0, y0, x1, y1, color);
    draw_line(x1, y1, x2, y2, color);
    draw_line(x2, y2, x0, y0, color);
}
>> *)
Definition draw_triangle (fuel : nat) (x0 y0 x1 y1 x2 y2 : Z) (color : Z) (s : screen)
  : option (screen * list (Z * Z)) :=
  match draw_line fuel x0 y0 x1 y1 color s with
  | None => None
  | Some (s1, p1) =>
      match draw_line fuel x1 y1 x2 y2 color s1 with
      | None => None
      | Some (s2, p2) =>
          match draw_line fuel x2 y2 x0 y0 color s2 with
          | None => None
          | Some (s3, p3) => Some (s3, p1 ++ p2 ++ p3)
          end
      end
  end.

(** The index of the pixel [(x, y)], and a screen whose dimensions and
    framebuffer agree and fit an [int]. *)
Definition pixel_index (s : screen) (x y : Z) : Z := y * screen_width s + x.

Definition on_screen (s : screen) (x y : Z) : Prop :=
  0 <= x < screen_width s /\ 0 <= y < screen_height s.

Definition screen_ok (s : screen) : Prop :=
  0 <= screen_width s /\ 0 <= screen_height s /\
  screen_width s * screen_height s < 2147483648 /\
  screen_width s * screen_height s <= Z.of_nat (length (framebuffer s)).

(** Coordinates small enough for [draw_line]'s arithmetic. *)
Definition coord (z : Z) : Prop := - 67108864 <= z <= 67108864.

(** Two points next to each other, diagonals included, or equal. *)
Definition adjacent (p q : Z * Z) : Prop :=
  Z.abs (fst p - fst q) <= 1 /\ Z.abs (snd p - snd q) <= 1.

Fixpoint chained (pts : list (Z * Z)) : Prop :=
  match pts with
  | p :: (q :: _) as rest => adjacent p q /\ p <> q /\ chained rest
  | _ => True
  end.

(** [p] lies in the rectangle spanned by [(x0, y0)] and [(x1, y1)]. *)
Definition in_box (x0 y0 x1 y1 : Z) (p : Z * Z) : Prop :=
  Z.min x0 x1 <= fst p <= Z.max x0 x1 /\ Z.min y0 y1 <= snd p <= Z.max y0 y1.

(** [put_pixel] on each point of a list, in order. *)
Definition plot_all (color : Z) (pts : list (Z * Z)) (s : screen) : screen :=
  fold_left (fun s p => put_pixel (fst p) (snd p) color s) pts s.

(** ** The state of [draw_line]'s loop

    [a] and [b] count the steps taken along x and along y; the line has
    [dx] and [dy] of them to take. *)
Definition line_params (x1 y1 dx dy sx sy : Z) : Prop :=
  0 <= dx <= 134217728 /\ 0 <= dy <= 134217728 /\
  (sx = 1 \/ sx = -1) /\ (sy = 1 \/ sy = -1) /\ coord x1 /\ coord y1.

Definition line_inv (x1 y1 dx dy sx sy x y err a b : Z) : Prop :=
  0 <= a <= dx /\ 0 <= b <= dy /\
  x = x1 - sx * (dx - a) /\ y = y1 - sy * (dy - b) /\
  err = dx - dy - a * dy + b * dx /\
  - 2 * dy <= err <= 2 * dx.

Definition on_path (x1 y1 dx dy sx sy : Z) (p : Z * Z) : Prop :=
  exists a b, 0 <= a <= dx /\ 0 <= b <= dy /\
              fst p = x1 - sx * (dx - a) /\ snd p = y1 - sy * (dy - b).

(** * The blinker of avr_blink.c

    [DDRB] and [PORTB] are 8-bit registers.  [PB5] is 5 in <avr/io.h>, as
    the comments of [main] say ("Setting bit 5 = 1").  [reg |= m] and
    [reg &= ~m] promote the register to [int], combine, and convert the
    result back to 8 bits. *)
Definition PB5 : Z := 5.

Record port_b := { DDRB : Z; PORTB : Z }.

(** [reg |= (1 << PB5)] and [reg &= ~(1 << PB5)]. *)
Definition set_pin (reg : Z) : Z := to_uchar (Z.lor reg (Z.shiftl 1 PB5)).
Definition clear_pin (reg : Z) : Z := to_uchar (Z.land reg (Z.lnot (Z.shiftl 1 PB5))).

(** The body of [while (1)], run [n] times from the registers [r]: the
    registers afterwards, and for each [_delay_ms] the value [PORTB] has
    during it and the milliseconds. *)
Fixpoint blink_loop (n : nat) (r : port_b) : port_b * list (Z * Z) :=
  match n with
  | O => (r, [])
  | S n' =>
      let r1 := {| DDRB := DDRB r; PORTB := set_pin (PORTB r) |} in
      let r2 := {| DDRB := DDRB r1; PORTB := clear_pin (PORTB r1) |} in
      match blink_loop n' r2 with
      | (r', t) => (r', (PORTB r1, 500) :: (PORTB r2, 500) :: t)
      end
  end.

(** [main] up to the [n]-th turn of its loop. *)
Definition blink_main (n : nat) (r : port_b) : port_b * list (Z * Z) :=
  blink_loop n {| DDRB := set_pin (DDRB r); PORTB := PORTB r |}.

(** * The frame copy of simple_video_player.c

<<
void render_frame_to_framebuffer(AVFrame *rgb_frame) {
    uint32_t *src = rgb_frame->data[0];    // through a cast to a pointer to uint32_t
    int src_stride = rgb_frame->linesize[0] / 4;
    int offset_x = (screen_width - codec_ctx->width) / 2;
    int offset_y = (screen_height - codec_ctx->height) / 2;
    for (int y = 0; y < screen_height && y < codec_ctx->height; y++) {
        for (int x = 0; x < screen_width && x < codec_ctx->width; x++) {
            int dst_idx = (y + offset_y) * screen_width + (x + offset_x);
            int src_idx = y * src_stride + x;
            if (dst_idx >= 0 && dst_idx < screen_width * screen_height) {
                framebuffer[dst_idx] = src[src_idx];
            }
        }
    }
}
>>
    The globals [screen_width], [screen_height] and [framebuffer] are those
    of the rasteriser.  [src] is the pixel data of the frame, [linesize]
    its bytes per row, [vw] and [vh] the width and height of the video
    ([codec_ctx->width], [codec_ctx->height]).  A read past the end of
    [src], undefined in C, gives 0 here; the theorems are stated for a
    [src] that holds every row.  [/] on [int] truncates: [Z.quot]. *)

Definition src_pixel (src : list Z) (i : Z) : Z := default 0 (src !! Z.to_nat i).

(** The body of the inner loop. *)
Definition copy_pixel (w h : Z) (src : list Z) (stride ox oy : Z) (x y : Z)
           (fb : list Z) : list Z :=
  let dst_idx := wrap_int (wrap_int (wrap_int (y + oy) * w) + wrap_int (x + ox)) in
  let src_idx := wrap_int (wrap_int (y * stride) + x) in
  if (dst_idx >=? 0) && (dst_idx <? wrap_int (w * h))
  then store_pixel dst_idx (src_pixel src src_idx) fb
  else fb.

(** The inner loop, [n] iterations left, the counter being [x]; and the
    outer loop, [m] iterations left, the counter being [y]. *)
Fixpoint copy_row (n : nat) (w h : Z) (src : list Z) (stride ox oy : Z) (x y : Z)
         (fb : list Z) : list Z :=
  match n with
  | O => fb
  | S n' =>
      copy_row n' w h src stride ox oy (wrap_int (x + 1)) y
               (copy_pixel w h src stride ox oy x y fb)
  end.

Fixpoint copy_rows (m : nat) (w h vw : Z) (src : list Z) (stride ox oy : Z) (y : Z)
         (fb : list Z) : list Z :=
  match m with
  | O => fb
  | S m' =>
      copy_rows m' w h vw src stride ox oy (wrap_int (y + 1))
                (copy_row (Z.to_nat (Z.min w vw)) w h src stride ox oy 0 y fb)
  end.

Definition render_frame_to_framebuffer (src : list Z) (linesize vw vh : Z) (s : screen)
  : screen :=
  let w := screen_width s in
  let h := screen_height s in
  let src_stride := Z.quot linesize 4 in
  let offset_x := Z.quot (wrap_int (w - vw)) 2 in
  let offset_y := Z.quot (wrap_int (h - vh)) 2 in
  set_framebuffer
    (copy_rows (Z.to_nat (Z.min h vh)) w h vw src src_stride offset_x offset_y 0
               (framebuffer s)) s.

(** Where the row [y] of the video begins in the framebuffer. *)
Definition row_base (w ox oy : Z) (y : Z) : Z := (y + oy) * w + ox.

(** A video that fits the screen, with a frame that holds all its rows. *)
Definition frame_fits (src : list Z) (linesize vw vh : Z) (s : screen) : Prop :=
  screen_width s < 2147483648 /\ screen_height s < 2147483648 /\
  0 <= vw <= screen_width s /\ 0 <= vh <= screen_height s /\
  0 <= linesize /\ vw <= Z.quot linesize 4 /\
  Z.quot linesize 4 * vh < 2147483648 /\
  Z.quot linesize 4 * vh <= Z.of_nat (length src).

(** ** Facts about [xor_crypt] *)

Lemma xor_byte_is_byte key x : is_byte (xor_byte key x).
Proof. unfold is_byte, xor_byte, to_uchar. apply Z.mod_pos_bound. lia. Qed.

Lemma lxor_byte_range x k : is_byte x -> is_byte k -> is_byte (Z.lxor x k).
Proof.
  unfold is_byte. intros Hx Hk. split.
  - apply Z.lxor_nonneg. lia.
  - change 256 with (2 ^ 8).
    destruct (Z.eq_dec (Z.lxor x k) 0) as [->|Hne]; [lia|].
    apply Z.log2_lt_pow2.
    + assert (0 <= Z.lxor x k) by (apply Z.lxor_nonneg; lia). lia.
    + eapply Z.le_lt_trans; [apply Z.log2_lxor; lia|].
      apply Z.max_lub_lt.
      * destruct (Z.eq_dec x 0) as [->|]; [reflexivity|].
        apply Z.log2_lt_pow2; lia.
      * destruct (Z.eq_dec k 0) as [->|]; [reflexivity|].
        apply Z.log2_lt_pow2; lia.
Qed.

Lemma xor_byte_involutive key x :
  is_byte key -> is_byte x -> xor_byte key (xor_byte key x) = x.
Proof.
  intros Hk Hx. unfold xor_byte, to_uchar.
  pose proof (lxor_byte_range x key Hx Hk) as Hr. unfold is_byte in *.
  rewrite (Z.mod_small (Z.lxor x key)) by lia.
  rewrite Z.lxor_assoc, Z.lxor_nilpotent, Z.lxor_0_r.
  apply Z.mod_small. lia.
Qed.

Lemma xor_crypt_from_lookup n : forall i key (data : list Z) (j : nat),
  xor_crypt_from n i key data !! j =
  if decide (i <= j < i + n)%nat then xor_byte key <$> data !! j else data !! j.
Proof.
  induction n as [|n IH]; intros i key data j; simpl.
  - case_decide; [lia|reflexivity].
  - rewrite IH, list_lookup_alter.
    repeat case_decide; subst; try lia; try reflexivity.
Qed.

Lemma xor_crypt_from_length n : forall i key (data : list Z),
  length (xor_crypt_from n i key data) = length data.
Proof.
  induction n as [|n IH]; intros; simpl; [reflexivity|].
  rewrite IH. apply length_alter.
Qed.

Lemma xor_crypt_lookup (data : list Z) len key (j : nat) :
  xor_crypt data len key !! j =
  if decide (Z.of_nat j < len) then xor_byte key <$> data !! j else data !! j.
Proof.
  unfold xor_crypt. rewrite xor_crypt_from_lookup.
  repeat case_decide; try reflexivity; lia.
Qed.

Lemma xor_crypt_length (data : list Z) len key :
  length (xor_crypt data len key) = length data.
Proof. apply xor_crypt_from_length. Qed.

(** The loop is a map over the first [len] cells. *)
Lemma xor_crypt_take_drop (data : list Z) len key :
  xor_crypt data len key =
  map (xor_byte key) (take (Z.to_nat len) data) ++ drop (Z.to_nat len) data.
Proof.
  apply list_eq. intros j. rewrite xor_crypt_lookup.
  destruct (decide (j < length (take (Z.to_nat len) data))%nat) as [Hj|Hj].
  - rewrite lookup_app_l by (rewrite length_map; exact Hj).
    rewrite list_lookup_fmap.
    rewrite length_take in Hj.
    rewrite lookup_take_lt by lia.
    case_decide; [reflexivity|lia].
  - rewrite lookup_app_r by (rewrite length_map; lia).
    rewrite length_map, lookup_drop. rewrite length_take in *.
    case_decide as Hlt.
    + assert (length data <= j)%nat as Hge by lia.
      rewrite !(lookup_ge_None_2 data) by lia. reflexivity.
    + destruct (decide (Z.to_nat len <= length data)%nat).
      * f_equal. lia.
      * rewrite !(lookup_ge_None_2 data) by lia. reflexivity.
Qed.

Lemma xor_crypt_bytes (data : list Z) len key :
  bytes data -> bytes (xor_crypt data len key).
Proof.
  unfold bytes. rewrite !Forall_lookup. intros H j x.
  rewrite xor_crypt_lookup. case_decide; [|apply H].
  destruct (data !! j); simpl; [|discriminate].
  intros [= <-]. apply xor_byte_is_byte.
Qed.

(** Applied to a whole buffer, the loop is the byte-wise map. *)
Lemma xor_crypt_whole (p : list Z) key :
  xor_crypt p (len p) key = map (xor_byte key) p.
Proof.
  rewrite xor_crypt_take_drop. unfold len. rewrite Nat2Z.id.
  rewrite firstn_all, drop_all. apply app_nil_r.
Qed.

(** ** The cipher *)

(** C4. The cipher is an involution: for every buffer [p] of bytes, of any
    length, and every one-byte key [k], running [xor_crypt] twice over the
    whole of [p] with [k] gives [p] back, and a run of [xor_crypt] leaves
    the length of the buffer as it was. *)
Theorem xor_crypt_involution (p : list Z) (k : Z) :
  bytes p -> is_byte k ->
  xor_crypt (xor_crypt p (len p) k) (len p) k = p /\
  length (xor_crypt p (len p) k) = length p.
Proof.
  intros Hp Hk. split; [|apply xor_crypt_length].
  apply list_eq. intros j. rewrite !xor_crypt_lookup.
  case_decide; [|reflexivity].
  destruct (p !! j) as [x|] eqn:Hx; simpl; [|reflexivity].
  f_equal. apply xor_byte_involutive; [exact Hk|].
  unfold bytes in Hp. rewrite Forall_lookup in Hp. eapply Hp, Hx.
Qed.

Lemma bytes_cons x l : is_byte x -> bytes l -> bytes (x :: l).
Proof. intros. constructor; assumption. Qed.

Lemma bytes_nil : bytes [].
Proof. constructor. Qed.

Ltac byte_list :=
  repeat (apply bytes_cons; [unfold is_byte; lia|]); apply bytes_nil.

Lemma xor_crypt_involution_witness :
  xor_crypt (xor_crypt [1; 2; 255] 3 XOR_KEY) 3 XOR_KEY = [1; 2; 255] /\
  length (xor_crypt [1; 2; 255] 3 XOR_KEY) = 3%nat.
Proof.
  apply (xor_crypt_involution [1; 2; 255] XOR_KEY).
  - byte_list.
  - unfold is_byte, XOR_KEY. lia.
Defined.

(** ** Byte order of the length prefix *)

Lemma land_255 x : Z.land x 255 = x mod 256.
Proof. change 255 with (Z.ones 8). rewrite Z.land_ones by lia. reflexivity. Qed.

Lemma shiftr_8 x : Z.shiftr x 8 = x / 256.
Proof. rewrite Z.shiftr_div_pow2 by lia. reflexivity. Qed.

Lemma land_shiftl_8_low a b : 0 <= b < 256 -> Z.land (Z.shiftl a 8) b = 0.
Proof.
  intros Hb. apply Z.bits_inj'. intros i Hi.
  rewrite Z.land_spec, Z.bits_0.
  destruct (Z.lt_ge_cases i 8) as [Hlt|Hge].
  - rewrite Z.shiftl_spec_low by exact Hlt. reflexivity.
  - destruct (Z.eq_dec b 0) as [->|Hne].
    + rewrite Z.bits_0. apply andb_false_r.
    + rewrite (Z.bits_above_log2 b i); [apply andb_false_r|lia|].
      apply Z.lt_le_trans with 8; [|exact Hge].
      apply Z.log2_lt_pow2; lia.
Qed.

Lemma lor_shiftl_8 a b : 0 <= b < 256 -> Z.lor (Z.shiftl a 8) b = a * 256 + b.
Proof.
  intros Hb. pose proof (land_shiftl_8_low a b Hb) as Hd.
  rewrite <- Z.lxor_lor by exact Hd.
  rewrite <- Z.add_nocarry_lxor by exact Hd.
  rewrite Z.shiftl_mul_pow2 by lia. reflexivity.
Qed.

Lemma bswap16_value x :
  bswap16 x = (x mod 256) * 256 + (x / 256) mod 256.
Proof.
  unfold bswap16. rewrite !land_255, shiftr_8.
  apply lor_shiftl_8. apply Z.mod_pos_bound. lia.
Qed.

(** What [write(fd, &packet_len, 2)] sends after [packet_len = htons(n)]:
    the length, high byte first. *)
Lemma htons_on_wire n :
  0 <= n < 65536 -> uint16_obj (htons (to_uint16 n)) = frame_header n.
Proof.
  intros Hn. unfold uint16_obj, htons, to_uint16, frame_header.
  rewrite (Z.mod_small n) by lia.
  rewrite !land_255, shiftr_8, bswap16_value.
  f_equal; [|f_equal]; Z.div_mod_to_equations; lia.
Qed.

(** What [packet_len] holds after the two bytes [h], [l] were read into it
    and [packet_len = ntohs(packet_len)] was run. *)
Lemma ntohs_off_wire h l :
  is_byte h -> is_byte l ->
  uint16_val (uint16_obj (ntohs (uint16_val [h; l]))) = 256 * h + l.
Proof.
  unfold is_byte. intros Hh Hl.
  assert (uint16_val [h; l] = l * 256 + h) as ->.
  { unfold uint16_val. rewrite Z.lor_comm. apply lor_shiftl_8. lia. }
  unfold uint16_val, uint16_obj, ntohs.
  rewrite !land_255, shiftr_8, bswap16_value.
  rewrite Z.lor_comm, lor_shiftl_8 by (apply Z.mod_pos_bound; lia).
  Z.div_mod_to_equations. lia.
Qed.

(** ** Running the blocks *)

Lemma len_nonneg d : 0 <= len d.
Proof. unfold len. lia. Qed.

Lemma len_ltb_0 d : (len d <? 0) = false.
Proof. apply Z.ltb_ge, len_nonneg. Qed.

Lemma len_take n (d : list Z) : 0 <= n -> len (take (Z.to_nat n) d) <= n.
Proof. intros Hn. unfold len. rewrite length_take. lia. Qed.

(** After [read] stored [d] at the start of [buffer], [xor_crypt] over the
    [len d] bytes read and a [write] of as many bytes send the cipher text
    of [d]. *)
Lemma crypt_read_bytes (d rest : list Z) key :
  take (Z.to_nat (len d)) (xor_crypt (d ++ rest) (len d) key) = map (xor_byte key) d.
Proof.
  rewrite xor_crypt_take_drop. unfold len. rewrite Nat2Z.id.
  rewrite take_app_length, take_app_length'; [reflexivity|].
  symmetry. apply length_map.
Qed.

(** The framing: every way [send_frame] can run. *)
Lemma send_frame_run st nread :
  0 <= nread < 65536 ->
  let b := xor_crypt (buffer st) nread XOR_KEY in
  let hdr := frame_header nread in
  let body := take (Z.to_nat nread) b in
  send_frame nread st =
  match next_wr (conn_wr st) with
  | (wr_sigpipe, s) =>
      (stopped Killed, set_conn_wr s (set_buffer b st), [ev_sigpipe Conn hdr])
  | (wr_done false, s) =>
      (stopped (Break send_length_failed), set_conn_wr s (set_buffer b st),
       [ev_write Conn hdr false])
  | (wr_done true, s) =>
      match next_wr s with
      | (wr_sigpipe, s') =>
          (stopped Killed, set_conn_wr s' (set_conn_wr s (set_buffer b st)),
           [ev_write Conn hdr true; ev_sigpipe Conn body])
      | (wr_done false, s') =>
          (stopped (Break send_packet_failed),
           set_conn_wr s' (set_conn_wr s (set_buffer b st)),
           [ev_write Conn hdr true; ev_write Conn body false])
      | (wr_done true, s') =>
          (value tt, set_conn_wr s' (set_conn_wr s (set_buffer b st)),
           [ev_write Conn hdr true; ev_write Conn body true])
      end
  end.
Proof.
  intros Hn b hdr body. unfold send_frame.
  unfold mbind, io_bind, get_buffer, put_buffer, sys_write, brk, mret, io_ret.
  simpl. rewrite htons_on_wire by exact Hn.
  destruct (conn_wr st) as [|[[]|] s]; simpl; try reflexivity.
  - rewrite len_ltb_0. reflexivity.
  - destruct (next_wr s) as [[[]|] s']; simpl; try reflexivity.
    rewrite len_ltb_0. reflexivity.
Qed.

(** The block of the TUN device when a packet is waiting: the [read]
    stores at most [BUFFER_SIZE] bytes of it and the framing follows. *)
Lemma from_tun_packet st p q :
  tun_in st = tun_packet p :: q ->
  let d := take (Z.to_nat BUFFER_SIZE) p in
  let st1 := set_buffer (d ++ drop (length d) (buffer st)) (set_tun_in q st) in
  from_tun st =
  match send_frame (len d) st1 with
  | (r, st2, t) => (r, st2, ev_read Tun BUFFER_SIZE (rd_bytes d) :: t)
  end.
Proof.
  intros Hq d st1. unfold from_tun, read_buffer, sys_read.
  unfold mbind at 1, io_bind at 1. rewrite Hq. unfold tun_read. fold d.
  assert ((BUFFER_SIZE <? len d) = false) as ->.
  { apply Z.ltb_ge. apply len_take. unfold BUFFER_SIZE. lia. }
  rewrite len_ltb_0. cbn [buffer set_tun_in]. fold st1.
  destruct (send_frame (len d) st1) as [[r st2] t]. reflexivity.
Qed.

Lemma from_tun_block st r st' t :
  from_tun st = (r, st', t) -> tun_block r t.
Proof.
  destruct (tun_in st) as [|[p|] q] eqn:Hq.
  - unfold from_tun, read_buffer, sys_read, mbind, io_bind. rewrite Hq. simpl.
    intros [= <- <- <-]. constructor.
  - rewrite (from_tun_packet st p q Hq).
    set (d := take (Z.to_nat BUFFER_SIZE) p).
    assert (len d <= BUFFER_SIZE) as Hd
        by (apply len_take; unfold BUFFER_SIZE; lia).
    rewrite send_frame_run
      by (pose proof (len_nonneg d); unfold BUFFER_SIZE in Hd; lia).
    simpl buffer. rewrite crypt_read_bytes.
    destruct (next_wr _) as [[[]|] s]; [destruct (next_wr s) as [[[]|] s']| |];
      intros [= <- <- <-]; constructor; exact Hd.
  - unfold from_tun, read_buffer, sys_read, mbind, io_bind. rewrite Hq. simpl.
    intros [= <- <- <-]. constructor.
Qed.

(** *** The connection's [read] *)

Lemma conn_read_none_count count s :
  count <= 0 -> conn_read count s = Some (rd_bytes [], s).
Proof.
  intros Hc. destruct s as [|[[|x d]| |] s']; simpl;
    (destruct (count <=? 0) eqn:E; [reflexivity|apply Z.leb_gt in E; lia]).
Qed.

(** A [read] returns no more than it was asked for. *)
Lemma conn_read_bound count s d s' :
  conn_read count s = Some (rd_bytes d, s') -> d = [] \/ 0 < len d <= count.
Proof.
  revert s'. induction s as [|[[|x l]| |] s IH]; intros s'; simpl;
    destruct (count <=? 0) eqn:E; try (intros [= <- <-]; left; reflexivity);
    try discriminate.
  - apply IH.
  - apply Z.leb_gt in E. intros [= <- <-]. right.
    destruct (Z.to_nat count) as [|n] eqn:En; [lia|].
    unfold len. simpl. rewrite length_take. lia.
Qed.

(** With a positive [count], a [read] returns nothing only when the peer
    has closed the stream. *)
Lemma conn_read_eof count s s' :
  0 < count -> conn_read count s = Some (rd_bytes [], s') -> In fin s.
Proof.
  intros Hc. revert s'. induction s as [|[[|x l]| |] s IH]; intros s'; simpl;
    (destruct (count <=? 0) eqn:E; [apply Z.leb_le in E; lia|]);
    try discriminate.
  - intros H. right. eapply IH, H.
  - destruct (Z.to_nat count) as [|n] eqn:En; [lia|]. discriminate.
  - intros _. left. reflexivity.
Qed.

(** *** The block of the connection, case by case *)

Ltac run_conn :=
  unfold from_conn, read_packet_len, read_buffer, sys_read, get_packet_len,
    put_packet_len, get_buffer, put_buffer, sys_write, brk;
  unfold mbind, io_bind, mret, io_ret.

Ltac state_fields :=
  cbn [packet_len set_packet_len set_conn_in conn_in buffer tun_wr set_buffer
       set_tun_wr].

Lemma from_conn_blocked st :
  conn_read 2 (conn_in st) = None ->
  from_conn st = (stopped Blocked, st, []).
Proof. intros H. run_conn. rewrite H. reflexivity. Qed.

Lemma from_conn_no_length st r s1 :
  conn_read 2 (conn_in st) = Some (r, s1) -> rd_ret r <= 0 ->
  exists st', from_conn st = (stopped (Break peer_disconnected), st', [ev_read Conn 2 r]).
Proof.
  intros H Hr. run_conn. rewrite H. destruct r as [|hdr]; simpl.
  - eexists. reflexivity.
  - simpl in Hr. apply Z.leb_le in Hr. rewrite Hr. eexists. reflexivity.
Qed.

Lemma from_conn_payload_blocked st hdr s1 :
  conn_read 2 (conn_in st) = Some (rd_bytes hdr, s1) -> 0 < len hdr ->
  conn_read (declared st hdr) s1 = None ->
  exists st', from_conn st = (stopped Blocked, st', [ev_read Conn 2 (rd_bytes hdr)]).
Proof.
  intros H Hh H2. apply Z.leb_gt in Hh. run_conn. rewrite H, Hh. state_fields.
  fold (declared st hdr). rewrite H2. eexists. reflexivity.
Qed.

Lemma from_conn_no_payload st hdr s1 r s2 :
  conn_read 2 (conn_in st) = Some (rd_bytes hdr, s1) -> 0 < len hdr ->
  conn_read (declared st hdr) s1 = Some (r, s2) -> rd_ret r <= 0 ->
  exists st', from_conn st =
    (stopped (Break peer_disconnected), st',
     [ev_read Conn 2 (rd_bytes hdr); ev_read Conn (declared st hdr) r]).
Proof.
  intros H Hh H2 Hr. apply Z.leb_gt in Hh. run_conn. rewrite H, Hh. state_fields.
  fold (declared st hdr). rewrite H2. destruct r as [|d]; simpl.
  - eexists. reflexivity.
  - simpl in Hr. pose proof (len_nonneg d).
    assert ((BUFFER_SIZE <? len d) = false) as ->
        by (apply Z.ltb_ge; unfold BUFFER_SIZE; lia).
    apply Z.leb_le in Hr. rewrite Hr. eexists. reflexivity.
Qed.

Lemma from_conn_overrun st hdr s1 d s2 :
  conn_read 2 (conn_in st) = Some (rd_bytes hdr, s1) -> 0 < len hdr ->
  conn_read (declared st hdr) s1 = Some (rd_bytes d, s2) -> BUFFER_SIZE < len d ->
  exists st', from_conn st =
    (stopped Overrun, st',
     [ev_read Conn 2 (rd_bytes hdr); ev_read Conn (declared st hdr) (rd_bytes d)]).
Proof.
  intros H Hh H2 Hd. apply Z.leb_gt in Hh. apply Z.ltb_lt in Hd.
  run_conn. rewrite H, Hh. state_fields.
  fold (declared st hdr). rewrite H2, Hd. eexists. reflexivity.
Qed.

Lemma from_conn_packet st hdr s1 d s2 ok w :
  conn_read 2 (conn_in st) = Some (rd_bytes hdr, s1) -> 0 < len hdr ->
  conn_read (declared st hdr) s1 = Some (rd_bytes d, s2) -> 0 < len d <= BUFFER_SIZE ->
  next_result (tun_wr st) = (ok, w) ->
  exists st',
    from_conn st =
    (if ok then value tt else stopped (Break tun_write_failed), st',
     [ev_read Conn 2 (rd_bytes hdr); ev_read Conn (declared st hdr) (rd_bytes d);
      ev_write Tun (map (xor_byte XOR_KEY) d) ok]) /\
    conn_in st' = s2 /\ tun_in st' = tun_in st.
Proof.
  intros H Hh H2 [Hd1 Hd2] Hw. apply Z.leb_gt in Hh, Hd1. apply Z.ltb_ge in Hd2.
  run_conn. rewrite H, Hh. state_fields.
  fold (declared st hdr). rewrite H2, Hd2, Hd1. state_fields. rewrite Hw.
  rewrite crypt_read_bytes.
  destruct ok; [rewrite len_ltb_0|]; simpl; eexists; repeat split.
Qed.

Lemma from_conn_block st r st' t :
  from_conn st = (r, st', t) -> conn_block r t.
Proof.
  destruct (conn_read 2 (conn_in st)) as [[r1 s1]|] eqn:H1.
  2:{ rewrite (from_conn_blocked st H1). intros [= <- <- <-]. constructor. }
  destruct (Z_le_gt_dec (rd_ret r1) 0) as [Hr|Hr].
  { destruct (from_conn_no_length st r1 s1 H1 Hr) as [st1 ->].
    intros [= <- <- <-]. constructor. exact Hr. }
  destruct r1 as [|hdr]; simpl in Hr; [lia|].
  assert (0 < len hdr) as Hh by lia.
  destruct (conn_read (declared st hdr) s1) as [[r2 s2]|] eqn:H2.
  2:{ destruct (from_conn_payload_blocked st hdr s1 H1 Hh H2) as [st1 ->].
      intros [= <- <- <-]. constructor. exact Hh. }
  destruct (Z_le_gt_dec (rd_ret r2) 0) as [Hr2|Hr2].
  { destruct (from_conn_no_payload st hdr s1 r2 s2 H1 Hh H2 Hr2) as [st1 ->].
    intros [= <- <- <-]. constructor; assumption. }
  destruct r2 as [|d]; simpl in Hr2; [lia|].
  destruct (Z_lt_le_dec BUFFER_SIZE (len d)) as [Hd|Hd].
  { destruct (from_conn_overrun st hdr s1 d s2 H1 Hh H2 Hd) as [st1 ->].
    intros [= <- <- <-]. constructor; [exact Hh|].
    destruct (conn_read_bound _ _ _ _ H2) as [->|Hb]; [unfold len in *; simpl in *; lia|lia]. }
  destruct (next_result (tun_wr st)) as [ok w] eqn:Hw.
  destruct (from_conn_packet st hdr s1 d s2 ok w H1 Hh H2 ltac:(lia) Hw)
    as (st1 & -> & _).
  destruct ok; intros [= <- <- <-]; constructor; (exact Hh || lia).
Qed.

(** ** One pass through the loop body *)

(** The body runs the TUN block, if the TUN device is in the read set, and
    then, unless that block left the loop, the block of the connection, if
    the connection is in the read set. *)
Lemma loop_body_parts tun conn st r st' t :
  loop_body tun conn st = (r, st', t) ->
  (exists s, r = stopped s /\ tun = true /\ tun_block (stopped s) t) \/
  (exists t1 t2, t = t1 ++ t2 /\
     (if tun then tun_block (value tt) t1 else t1 = []) /\
     (if conn then conn_block r t2 else r = value tt /\ t2 = [])).
Proof.
  unfold loop_body. unfold mbind at 1, io_bind at 1.
  destruct tun.
  - destruct (from_tun st) as [[r1 st1] t1] eqn:H1.
    apply from_tun_block in H1.
    destruct r1 as [[]|s].
    + destruct conn.
      * destruct (from_conn st1) as [[r2 st2] t2] eqn:H2.
        apply from_conn_block in H2.
        intros [= <- <- <-]. right. exists t1, t2. auto.
      * intros [= <- <- <-]. right. exists t1, []. auto.
    + intros [= <- <- <-]. left. exists s. auto.
  - unfold mret at 1, io_ret at 1. destruct conn.
    + destruct (from_conn st) as [[r2 st2] t2] eqn:H2.
      apply from_conn_block in H2.
      intros [= <- <- <-]. right. exists [], t2. auto.
    + intros [= <- <- <-]. right. exists [], []. auto.
Qed.

(** *** Failures in a block *)

Lemma clean_app t1 t2 : clean t1 -> clean t2 -> clean (t1 ++ t2).
Proof. unfold clean. intros. apply Forall_app. auto. Qed.

Lemma clean_nil : clean [].
Proof. constructor. Qed.

Lemma clean_cons e t : io_failure e = false -> clean t -> clean (e :: t).
Proof. intros. constructor; assumption. Qed.

Lemma read_some_ok h count d : 0 < len d -> io_failure (ev_read h count (rd_bytes d)) = false.
Proof.
  intros Hd. destruct h; simpl; try (apply Z.leb_gt; exact Hd).
  apply len_ltb_0.
Qed.

Lemma read_none_fails h count r :
  h <> Tun -> rd_ret r <= 0 -> io_failure (ev_read h count r) = true.
Proof. intros Hh Hr. destruct h; try congruence; simpl; apply Z.leb_le, Hr. Qed.

Ltac clean_trace :=
  repeat first
    [ apply clean_nil
    | apply clean_cons;
      [ first [ reflexivity | apply len_ltb_0 | apply read_some_ok; assumption ] | ] ].

Lemma tun_block_shape r t : tun_block r t -> block_shape r t.
Proof.
  intros H. destruct H; simpl.
  - clean_trace.
  - exists [], (ev_read Tun BUFFER_SIZE rd_err). repeat split. clean_trace.
  - exists [ev_read Tun BUFFER_SIZE (rd_bytes p)],
           (ev_write Conn (frame_header (len p)) false).
    repeat split. clean_trace.
  - exists [ev_read Tun BUFFER_SIZE (rd_bytes p);
            ev_write Conn (frame_header (len p)) true],
           (ev_write Conn (map (xor_byte XOR_KEY) p) false).
    repeat split. clean_trace.
  - exists [ev_read Tun BUFFER_SIZE (rd_bytes p)],
           (ev_sigpipe Conn (frame_header (len p))).
    repeat split. clean_trace.
  - exists [ev_read Tun BUFFER_SIZE (rd_bytes p);
            ev_write Conn (frame_header (len p)) true],
           (ev_sigpipe Conn (map (xor_byte XOR_KEY) p)).
    repeat split. clean_trace.
  - clean_trace.
Qed.

Lemma conn_block_shape r t : conn_block r t -> block_shape r t.
Proof.
  intros H. destruct H; simpl.
  - clean_trace.
  - exists [], (ev_read Conn 2 r). repeat split; [clean_trace|].
    apply read_none_fails; [discriminate|assumption].
  - clean_trace.
  - exists [ev_read Conn 2 (rd_bytes hdr)], (ev_read Conn count r).
    repeat split; [clean_trace|].
    apply read_none_fails; [discriminate|assumption].
  - assert (0 < len d) by (unfold BUFFER_SIZE in *; lia). clean_trace.
  - assert (0 < len d) by lia.
    exists [ev_read Conn 2 (rd_bytes hdr); ev_read Conn count (rd_bytes d)],
           (ev_write Tun (map (xor_byte XOR_KEY) d) false).
    repeat split. clean_trace.
  - assert (0 < len d) by lia. clean_trace.
Qed.

Lemma shape_after_clean s t1 t2 : clean t1 -> run_shape s t2 -> run_shape s (t1 ++ t2).
Proof.
  intros H1 H2. destruct s; simpl in *; try (apply clean_app; assumption);
    destruct H2 as (pre & e & -> & Hpre & He & Hf);
    exists (t1 ++ pre), e; rewrite app_assoc; repeat split; try assumption;
    apply clean_app; assumption.
Qed.

Lemma loop_body_shape tun conn st r st' t :
  loop_body tun conn st = (r, st', t) -> block_shape r t.
Proof.
  intros H. apply loop_body_parts in H.
  destruct H as [(s & -> & _ & Hb)|(t1 & t2 & -> & H1 & H2)].
  - apply tun_block_shape in Hb. exact Hb.
  - assert (clean t1) as Hc1.
    { destruct tun; [apply tun_block_shape in H1; exact H1|subst; apply clean_nil]. }
    assert (block_shape r t2) as Hc2.
    { destruct conn; [apply conn_block_shape; exact H2|].
      destruct H2 as [-> ->]. apply clean_nil. }
    destruct r as [[]|s]; simpl in *.
    + apply clean_app; assumption.
    + apply shape_after_clean; assumption.
Qed.

(** Every run of the loop: no call fails but the last one, and the loop
    is left exactly then. *)
Lemma vpn_event_loop_shape sched : forall st s st' t,
  vpn_event_loop sched st = (s, st', t) -> run_shape s t.
Proof.
  induction sched as [|[|tun conn] sched IH]; intros st s st' t; simpl.
  - intros [= <- <- <-]. apply clean_nil.
  - intros [= <- <- <-]. exists [], (ev_select false). repeat split. apply clean_nil.
  - destruct (loop_body tun conn st) as [[r st1] t1] eqn:Hb.
    apply loop_body_shape in Hb.
    destruct r as [[]|s1]; simpl in Hb.
    + destruct (vpn_event_loop sched st1) as [[s2 st2] t2] eqn:Hl.
      apply IH in Hl. intros [= <- <- <-].
      change (ev_select true :: t1 ++ t2) with ((ev_select true :: t1) ++ t2).
      apply shape_after_clean; [|exact Hl].
      apply clean_cons; [reflexivity|exact Hb].
    + intros [= <- <- <-].
      change (ev_select true :: t1) with ([ev_select true] ++ t1).
      apply shape_after_clean; [|exact Hb].
      apply clean_cons; [reflexivity|apply clean_nil].
Qed.

(** ** The session as a whole: [main] *)

Lemma clean_no_failure t pre ev post :
  clean t -> t = pre ++ ev :: post -> io_failure ev = true -> False.
Proof.
  unfold clean. intros Hc -> He. rewrite Forall_app in Hc.
  destruct Hc as [_ Hc]. inversion Hc; congruence.
Qed.

(** A trace has its one failing call at one place only. *)
Lemma failure_unique a : forall x b pre ev post,
  clean a -> io_failure x = true -> clean b ->
  a ++ x :: b = pre ++ ev :: post -> io_failure ev = true ->
  pre = a /\ ev = x /\ post = b.
Proof.
  induction a as [|y a IH]; intros x b pre ev post Ha Hx Hb Heq Hev.
  - destruct pre as [|z pre]; simpl in Heq.
    + injection Heq as <- <-. auto.
    + injection Heq as <- ->. exfalso.
      eapply clean_no_failure; [exact Hb|reflexivity|exact Hev].
  - inversion Ha as [|? ? Hy Ha']; subst.
    destruct pre as [|z pre]; simpl in Heq.
    + injection Heq as -> _. congruence.
    + injection Heq as <- Heq.
      destruct (IH x b pre ev post Ha' Hx Hb Heq Hev) as (-> & -> & ->). auto.
Qed.

(** The loop followed by the cleanup of [main]: no call failed and the
    process did not return; or a call failed and returned, the process
    returned 0 and its trace ends with the failing call and the [close]s;
    or a [write] raised SIGPIPE and the trace ends with it. *)
Lemma session_shape t0 closes sched st o t :
  clean t0 -> clean closes ->
  prepend t0 (cleanup closes (vpn_event_loop sched st)) = (o, t) ->
  (clean t /\ (o = never_returns \/ o = undefined)) \/
  (exists pre x, t = pre ++ x :: closes /\ clean pre /\ io_failure x = true /\
                 fatal x = false /\ o = exits 0) \/
  (exists pre x, t = pre ++ [x] /\ clean pre /\ io_failure x = true /\
                 fatal x = true /\ o = killed_by_sigpipe).
Proof.
  intros H0 Hc. destruct (vpn_event_loop sched st) as [[s st'] tl] eqn:Hl.
  apply vpn_event_loop_shape in Hl. unfold prepend, cleanup.
  destruct s; simpl in *; intros [= <- <-].
  - right. left. destruct Hl as (pre & x & -> & Hpre & Hx & Hf).
    exists (t0 ++ pre), x. repeat split; try assumption; [|apply clean_app; assumption].
    rewrite <- !app_assoc. reflexivity.
  - left. split; [apply clean_app; assumption|auto].
  - left. split; [apply clean_app; assumption|auto].
  - right. right. destruct Hl as (pre & x & -> & Hpre & Hx & Hf).
    exists (t0 ++ pre), x. repeat split; try assumption; [|apply clean_app; assumption].
    rewrite <- !app_assoc. reflexivity.
Qed.

Ltac setup_trace := repeat (apply clean_cons; [reflexivity|]); apply clean_nil.

Lemma server_main_shape e sched st o t :
  Server.main e sched st = (o, t) ->
  (clean t /\ o <> exits 0 /\ o <> killed_by_sigpipe) \/
  (exists pre x, t = pre ++ x :: Server.closes /\ clean pre /\ io_failure x = true /\
                 fatal x = false /\ o = exits 0) \/
  (exists pre x, t = pre ++ [x] /\ clean pre /\ io_failure x = true /\
                 fatal x = true /\ o = killed_by_sigpipe).
Proof.
  unfold Server.main, create_tun_device, Server.create_server_socket.
  destruct (open_ok e), (tunsetiff_ok e), (socket_ok e), (bind_ok e), (listen_ok e),
    (accept_ok e); simpl negb; cbv iota;
    try (intros [= <- <-]; left; split; [setup_trace|split; discriminate]).
  intros H. apply session_shape in H; [|setup_trace|setup_trace].
  destruct H as [(H1 & [->| ->])|[H|H]]; auto; left; (split; [exact H1|split; discriminate]).
Qed.

Lemma client_main_shape e sched st o t :
  Client.main e sched st = (o, t) ->
  (clean t /\ o <> exits 0 /\ o <> killed_by_sigpipe) \/
  (exists pre x, t = pre ++ x :: Client.closes /\ clean pre /\ io_failure x = true /\
                 fatal x = false /\ o = exits 0) \/
  (exists pre x, t = pre ++ [x] /\ clean pre /\ io_failure x = true /\
                 fatal x = true /\ o = killed_by_sigpipe).
Proof.
  unfold Client.main, create_tun_device, Client.connect_to_server.
  destruct (argc e =? 2), (open_ok e), (tunsetiff_ok e), (socket_ok e),
    (inet_pton_ok e), (connect_ok e); simpl negb; cbv iota;
    try (intros [= <- <-]; left; split; [setup_trace|split; discriminate]).
  intros H. apply session_shape in H; [|setup_trace|setup_trace].
  destruct H as [(H1 & [->| ->])|[H|H]]; auto; left; (split; [exact H1|split; discriminate]).
Qed.

Lemma main_shape p e sched st o t :
  main_of p e sched st = (o, t) ->
  (clean t /\ o <> exits 0 /\ o <> killed_by_sigpipe) \/
  (exists pre x, t = pre ++ x :: closes_of p /\ clean pre /\ io_failure x = true /\
                 fatal x = false /\ o = exits 0) \/
  (exists pre x, t = pre ++ [x] /\ clean pre /\ io_failure x = true /\
                 fatal x = true /\ o = killed_by_sigpipe).
Proof. destruct p; [apply server_main_shape|apply client_main_shape]. Qed.

Lemma closes_clean p : clean (closes_of p).
Proof. destruct p; setup_trace. Qed.

(** C5. In either program, a run in which a call fails leaves the loop on
    that call.  When the call returns its failure -- [select], a [read] or
    a [write] on the TUN device, a [write] on the connection that returns
    [-1], a [read] on the connection that returns nothing or an error --
    the only calls after it are the [close]s of [main], which close the TUN
    device and the connection, nothing is read from or written to a
    descriptor any more, and the process returns 0.  When the call is a
    [write] on the connection that raises SIGPIPE, it is the last call of
    the process: no [close] follows and [main] does not return. *)
Theorem io_failure_ends_session p e sched st o pre ev post :
  main_of p e sched st = (o, pre ++ ev :: post) ->
  io_failure ev = true ->
  if fatal ev
  then o = killed_by_sigpipe /\ post = []
  else o = exits 0 /\
       post = closes_of p /\
       In (ev_close Tun) post /\ In (ev_close Conn) post /\
       Forall (fun x => transfers x = false) post.
Proof.
  intros Hm Hev. pose proof Hm as Hsh. apply main_shape in Hsh.
  destruct Hsh as [[Hc _]|[(a & x & Ha & Hc & Hx & Hf & Ho)|(a & x & Ha & Hc & Hx & Hf & Ho)]].
  - exfalso. eapply clean_no_failure; [exact Hc|reflexivity|exact Hev].
  - symmetry in Ha.
    destruct (failure_unique a x (closes_of p) pre ev post Hc Hx (closes_clean p)
                Ha Hev) as (_ & -> & ->).
    rewrite Hf. split; [exact Ho|]. split; [reflexivity|].
    destruct p; simpl; repeat split; auto; repeat constructor.
  - symmetry in Ha. change (a ++ [x]) with (a ++ x :: []) in Ha.
    destruct (failure_unique a x [] pre ev post Hc Hx clean_nil Ha Hev)
      as (-> & -> & ->).
    rewrite Hf. split; [exact Ho|reflexivity].
Qed.

Lemma io_failure_ends_session_witness :
  let st := set_conn_in [fin] (set_tun_in [tun_packet [69; 0; 0; 20]] fresh) in
  let pre := [ev_open Tun; ev_open Listener; ev_open Conn; ev_select true;
              ev_read Tun 2048 (rd_bytes [69; 0; 0; 20]);
              ev_write Conn [0; 4] true] in
  let closes := [ev_close Conn; ev_close Listener; ev_close Tun] in
  (main_of server all_ok [sel_ready true true]
           (set_conn_wr [wr_done true; wr_done false] st) =
     (exits 0, pre ++ ev_write Conn [7; 66; 66; 86] false :: closes) /\
   exits 0 = exits 0 /\
   closes = closes_of server /\
   In (ev_close Tun) closes /\ In (ev_close Conn) closes /\
   Forall (fun x => transfers x = false) closes) /\
  (main_of server all_ok [sel_ready true true]
           (set_conn_wr [wr_done true; wr_sigpipe] st) =
     (killed_by_sigpipe, pre ++ ev_sigpipe Conn [7; 66; 66; 86] :: []) /\
   killed_by_sigpipe = killed_by_sigpipe /\ @nil event = []).
Proof.
  intros st pre closes. split.
  - split; [vm_compute; reflexivity|].
    apply (io_failure_ends_session server all_ok [sel_ready true true]
             (set_conn_wr [wr_done true; wr_done false] st)
             (exits 0) pre (ev_write Conn [7; 66; 66; 86] false) closes);
      [vm_compute; reflexivity|reflexivity].
  - split; [vm_compute; reflexivity|].
    apply (io_failure_ends_session server all_ok [sel_ready true true]
             (set_conn_wr [wr_done true; wr_sigpipe] st)
             killed_by_sigpipe pre (ev_sigpipe Conn [7; 66; 66; 86]) []);
      [vm_compute; reflexivity|reflexivity].
Defined.

(** ** Setups that succeed and setups that fail *)

Lemma main_setup_ok p e sched st :
  setup_ok_of p e = true ->
  main_of p e sched st =
  prepend (opens_of p) (cleanup (closes_of p) (vpn_event_loop sched st)).
Proof.
  destruct p; simpl; unfold Server.setup_ok, Client.setup_ok, Server.main, Client.main,
    create_tun_device, Server.create_server_socket, Client.connect_to_server;
    intros H; repeat (apply andb_true_iff in H; destruct H as [H ?]);
    repeat match goal with E : _ = true |- _ => rewrite E; clear E end;
    reflexivity.
Qed.

Lemma main_setup_failed p e sched st :
  setup_ok_of p e = false ->
  exists t, main_of p e sched st = (exits 1, t) /\
            Forall (fun x => in_loop x = false) t.
Proof.
  destruct p; simpl; unfold Server.setup_ok, Client.setup_ok, Server.main, Client.main,
    create_tun_device, Server.create_server_socket, Client.connect_to_server.
  - destruct (open_ok e), (tunsetiff_ok e), (socket_ok e), (bind_ok e), (listen_ok e),
      (accept_ok e); simpl; try discriminate; intros _;
      eexists; (split; [reflexivity|repeat constructor]).
  - destruct (argc e =? 2), (open_ok e), (tunsetiff_ok e), (socket_ok e),
      (inet_pton_ok e), (connect_ok e); simpl; try discriminate; intros _;
      eexists; (split; [reflexivity|repeat constructor]).
Qed.

Lemma closes_both p : In (ev_close Tun) (closes_of p) /\ In (ev_close Conn) (closes_of p).
Proof. destruct p; simpl; auto. Qed.

(** ** Framing *)

Lemma crypt_packet (b p : list Z) key :
  take (length p) b = p ->
  take (Z.to_nat (len p)) (xor_crypt b (len p) key) = map (xor_byte key) p.
Proof.
  intros Hp. rewrite xor_crypt_take_drop. unfold len. rewrite Nat2Z.id, Hp.
  apply take_app_length'. symmetry. apply length_map.
Qed.

Lemma clip_short p : len p <= BUFFER_SIZE -> clip p = p.
Proof. intros Hp. unfold clip. apply take_ge. unfold len in Hp. lia. Qed.

(** The sending block on a packet the TUN device holds: every way it can
    run, by what the connection does with the two [write]s. *)
Lemma from_tun_run st p q :
  tun_in st = tun_packet p :: q ->
  let hdr := frame_header (len (clip p)) in
  let body := map (xor_byte XOR_KEY) (clip p) in
  let got := ev_read Tun BUFFER_SIZE (rd_bytes (clip p)) in
  exists st',
    tun_in st' = q /\ conn_in st' = conn_in st /\ tun_wr st' = tun_wr st /\
    from_tun st =
    match fst (next_wr (conn_wr st)), fst (next_wr (snd (next_wr (conn_wr st)))) with
    | wr_done true, wr_done true =>
        (value tt, st', [got; ev_write Conn hdr true; ev_write Conn body true])
    | wr_done true, wr_done false =>
        (stopped (Break send_packet_failed), st',
         [got; ev_write Conn hdr true; ev_write Conn body false])
    | wr_done true, wr_sigpipe =>
        (stopped Killed, st', [got; ev_write Conn hdr true; ev_sigpipe Conn body])
    | wr_done false, _ =>
        (stopped (Break send_length_failed), st', [got; ev_write Conn hdr false])
    | wr_sigpipe, _ =>
        (stopped Killed, st', [got; ev_sigpipe Conn hdr])
    end.
Proof.
  intros Hq hdr body got. rewrite (from_tun_packet st p q Hq). fold (clip p).
  assert (0 <= len (clip p) < 65536) as Hn.
  { pose proof (len_nonneg (clip p)).
    pose proof (len_take BUFFER_SIZE p ltac:(unfold BUFFER_SIZE; lia)).
    unfold clip, BUFFER_SIZE in *. lia. }
  rewrite send_frame_run by exact Hn.
  cbn [conn_wr set_buffer set_tun_in buffer]. rewrite crypt_read_bytes.
  fold hdr body got.
  destruct (next_wr (conn_wr st)) as [[[]|] s]; cbn [fst snd];
    [destruct (next_wr s) as [[[]|] s']; cbn [fst]| |];
    eexists; (split; [|split; [|split; [|reflexivity]]]); reflexivity.
Qed.

(** C6. For every packet [p] of at most [BUFFER_SIZE] bytes that the TUN
    device holds, the sending block reads [p] whole and hands the
    connection the two bytes of [len p], high byte first, and then the
    [len p] bytes of the cipher text of [p].  The block refuses no packet
    itself: it runs to its end when the connection takes both [write]s, and
    stops only when the connection rejects one of them or raises
    SIGPIPE. *)
Theorem frame_encoding st p q :
  len p <= BUFFER_SIZE ->
  tun_in st = tun_packet p :: q ->
  let hdr := [len p / 256; len p mod 256] in
  let body := map (xor_byte XOR_KEY) p in
  let got := ev_read Tun BUFFER_SIZE (rd_bytes p) in
  length hdr = 2%nat /\ length body = length p /\
  conn_sent [got; ev_write Conn hdr true; ev_write Conn body true] = hdr ++ body /\
  exists st',
    from_tun st =
    match fst (next_wr (conn_wr st)), fst (next_wr (snd (next_wr (conn_wr st)))) with
    | wr_done true, wr_done true =>
        (value tt, st', [got; ev_write Conn hdr true; ev_write Conn body true])
    | wr_done true, wr_done false =>
        (stopped (Break send_packet_failed), st',
         [got; ev_write Conn hdr true; ev_write Conn body false])
    | wr_done true, wr_sigpipe =>
        (stopped Killed, st', [got; ev_write Conn hdr true; ev_sigpipe Conn body])
    | wr_done false, _ =>
        (stopped (Break send_length_failed), st', [got; ev_write Conn hdr false])
    | wr_sigpipe, _ =>
        (stopped Killed, st', [got; ev_sigpipe Conn hdr])
    end.
Proof.
  intros Hp Hq hdr body got.
  split; [reflexivity|]. split; [apply length_map|].
  split; [simpl; rewrite app_nil_r; reflexivity|].
  destruct (from_tun_run st p q Hq) as (st' & _ & _ & _ & Hrun).
  rewrite (clip_short p Hp) in Hrun. exists st'. exact Hrun.
Qed.

Lemma frame_encoding_witness :
  let p := [69; 0; 0; 20] in
  let st := set_tun_in [tun_packet p] fresh in
  let hdr := [len p / 256; len p mod 256] in
  let body := map (xor_byte XOR_KEY) p in
  let got := ev_read Tun BUFFER_SIZE (rd_bytes p) in
  length hdr = 2%nat /\ length body = length p /\
  conn_sent [got; ev_write Conn hdr true; ev_write Conn body true] = hdr ++ body /\
  exists st',
    from_tun st =
    match fst (next_wr (conn_wr st)), fst (next_wr (snd (next_wr (conn_wr st)))) with
    | wr_done true, wr_done true =>
        (value tt, st', [got; ev_write Conn hdr true; ev_write Conn body true])
    | wr_done true, wr_done false =>
        (stopped (Break send_packet_failed), st',
         [got; ev_write Conn hdr true; ev_write Conn body false])
    | wr_done true, wr_sigpipe =>
        (stopped Killed, st', [got; ev_write Conn hdr true; ev_sigpipe Conn body])
    | wr_done false, _ =>
        (stopped (Break send_length_failed), st', [got; ev_write Conn hdr false])
    | wr_sigpipe, _ =>
        (stopped Killed, st', [got; ev_sigpipe Conn hdr])
    end.
Proof.
  intros p st.
  apply (frame_encoding st p []).
  - unfold len, BUFFER_SIZE. simpl. lia.
  - reflexivity.
Defined.

(** A packet of 3000 bytes, within the 65535 a prefix can declare: the
    sending block frames its first 2048 bytes, with the prefix 08 00, and
    not the packet. *)
Lemma long_packet_framed_short :
  let p := repeat 7 (Z.to_nat 3000) in
  len p <= 65535 /\
  encode zero_buffer p =
    [8; 0] ++ map (xor_byte XOR_KEY) (repeat 7 (Z.to_nat 2048)) /\
  encode zero_buffer p <>
    [len p / 256; len p mod 256] ++ map (xor_byte XOR_KEY) p.
Proof.
  intros p.
  assert (encode zero_buffer p =
          [8; 0] ++ map (xor_byte XOR_KEY) (repeat 7 (Z.to_nat 2048))) as He
      by (vm_compute; reflexivity).
  split; [|split; [exact He|]].
  - unfold len, p. rewrite repeat_length. lia.
  - rewrite He. intros H. apply (f_equal (@length Z)) in H.
    unfold p in H. rewrite !length_app, !length_map, !repeat_length in H.
    simpl in H. lia.
Qed.

(** ** Order of delivery *)

Lemma tun_block_outbound r t :
  tun_block r t -> List.filter outbound t = t /\ List.filter inbound t = [].
Proof. intros H. destruct H; split; reflexivity. Qed.

Lemma conn_block_inbound r t :
  conn_block r t -> List.filter inbound t = t /\ List.filter outbound t = [].
Proof. intros H. destruct H; split; reflexivity. Qed.

Lemma tun_block_then t rest :
  tun_block (value tt) t -> outbound_order rest -> outbound_order (t ++ rest).
Proof. intros H Hr. inversion H; subst. simpl. apply out_frame, Hr. Qed.

Lemma tun_block_last s t : tun_block (stopped s) t -> outbound_order t.
Proof. intros H. inversion H; subst; constructor. Qed.

Lemma conn_block_then t rest :
  conn_block (value tt) t -> inbound_order rest -> inbound_order (t ++ rest).
Proof. intros H Hr. inversion H; subst. simpl. apply in_packet, Hr. Qed.

Lemma conn_block_last s t : conn_block (stopped s) t -> inbound_order t.
Proof. intros H. inversion H; subst; constructor. Qed.

(** The calls of one pass, direction by direction. *)
Lemma loop_body_directions tun conn st r st' t :
  loop_body tun conn st = (r, st', t) ->
  match r with
  | value _ =>
      (forall rest, outbound_order rest -> outbound_order (List.filter outbound t ++ rest)) /\
      (forall rest, inbound_order rest -> inbound_order (List.filter inbound t ++ rest))
  | stopped _ =>
      outbound_order (List.filter outbound t) /\ inbound_order (List.filter inbound t)
  end.
Proof.
  intros H. apply loop_body_parts in H.
  destruct H as [(s & -> & _ & Hb)|(t1 & t2 & -> & H1 & H2)].
  - destruct (tun_block_outbound _ _ Hb) as [-> ->].
    split; [eapply tun_block_last, Hb|constructor].
  - rewrite !List.filter_app.
    assert (List.filter outbound t2 = [] /\
            (if conn then conn_block r (List.filter inbound t2)
             else r = value tt /\ List.filter inbound t2 = [])) as [-> H2'].
    { destruct conn.
      - destruct (conn_block_inbound _ _ H2) as [-> ->]. auto.
      - destruct H2 as [-> ->]. auto. }
    assert (List.filter inbound t1 = [] /\
            (if tun then tun_block (value tt) (List.filter outbound t1)
             else List.filter outbound t1 = [])) as [-> H1'].
    { destruct tun.
      - destruct (tun_block_outbound _ _ H1) as [-> ->]. auto.
      - subst. auto. }
    rewrite app_nil_r. simpl.
    assert (forall rest, outbound_order rest ->
                         outbound_order (List.filter outbound t1 ++ rest)) as Hout.
    { intros rest Hr. destruct tun; [apply tun_block_then; assumption|].
      rewrite H1'. exact Hr. }
    destruct r as [[]|s].
    + split; [exact Hout|]. intros rest Hr.
      destruct conn; [apply conn_block_then; assumption|].
      destruct H2' as [_ ->]. exact Hr.
    + split.
      * rewrite <- (app_nil_r (List.filter outbound t1)). apply Hout. constructor.
      * destruct conn; [eapply conn_block_last, H2'|]. destruct H2'. discriminate.
Qed.

(** C7. In every run of the loop, the calls of each direction come in
    blocks, in program order: outbound, a [read] of one packet from the TUN
    device, the [write] of its length and the [write] of its cipher text to
    the connection, and only then the next [read] of the TUN device;
    inbound, a [read] of a length and a [read] of a payload from the
    connection, the [write] of its plain text to the TUN device, and only
    then the next [read] of the connection.  So one packet read makes one
    frame (one packet) written, in the order of the [read]s, and only the
    last block of a run can be incomplete. *)
Theorem relay_keeps_order sched : forall st,
  outbound_order (List.filter outbound (snd (vpn_event_loop sched st))) /\
  inbound_order (List.filter inbound (snd (vpn_event_loop sched st))).
Proof.
  induction sched as [|[|tun conn] sched IH]; intros st; simpl.
  - split; constructor.
  - split; constructor.
  - destruct (loop_body tun conn st) as [[r st1] t1] eqn:Hb.
    apply loop_body_directions in Hb.
    destruct r as [[]|s].
    + specialize (IH st1).
      destruct (vpn_event_loop sched st1) as [[s2 st2] t2]. simpl in *.
      rewrite !List.filter_app. destruct Hb as [Ho Hi]. destruct IH as [IHo IHi].
      split; [apply Ho, IHo|apply Hi, IHi].
    + simpl. exact Hb.
Qed.

(** ** The receiving block on a frame *)

Lemma declared_full st h l :
  is_byte h -> is_byte l -> declared st [h; l] = 256 * h + l.
Proof. intros Hh Hl. unfold declared. simpl take. apply ntohs_off_wire; assumption. Qed.

Lemma conn_read_frame h l d rest :
  d <> [] -> conn_read 2 (seg (h :: l :: d) :: rest) = Some (rd_bytes [h; l], seg d :: rest).
Proof. intros Hd. destruct d as [|x d]; [congruence|]. reflexivity. Qed.

Lemma conn_read_seg count d rest :
  0 < count -> d <> [] ->
  conn_read count (seg d :: rest) =
  Some (rd_bytes (take (Z.to_nat count) d),
        match drop (Z.to_nat count) d with
        | [] => rest
        | d' => seg d' :: rest
        end).
Proof.
  intros Hc Hd. destruct d as [|x d]; [congruence|]. simpl.
  destruct (count <=? 0) eqn:E; [apply Z.leb_le in E; lia|reflexivity].
Qed.

Lemma take_nonempty count (d : list Z) :
  0 < count -> d <> [] -> 0 < len (take (Z.to_nat count) d).
Proof.
  intros Hc Hd. destruct d as [|x d]; [congruence|].
  destruct (Z.to_nat count) as [|n] eqn:E; [lia|]. unfold len. simpl. lia.
Qed.

Lemma len_two h l : 0 < len [h; l].
Proof. unfold len. simpl. lia. Qed.

(** An overrun comes from a [read] on the connection that was asked for,
    and returned, more than [BUFFER_SIZE] bytes. *)
Lemma loop_body_overrun tun conn st st' t :
  loop_body tun conn st = (stopped Overrun, st', t) ->
  exists pre hdr count d,
    t = pre ++ [ev_read Conn 2 (rd_bytes hdr); ev_read Conn count (rd_bytes d)] /\
    BUFFER_SIZE < len d <= count.
Proof.
  intros H. apply loop_body_parts in H.
  destruct H as [(s & [= <-] & _ & Hb)|(t1 & t2 & -> & _ & H2)].
  - inversion Hb.
  - destruct conn; [|destruct H2; discriminate].
    inversion H2; subst. exists t1, hdr, count, d. auto.
Qed.

Lemma vpn_event_loop_overrun sched : forall st st' t,
  vpn_event_loop sched st = (Overrun, st', t) ->
  exists pre hdr count d,
    t = pre ++ [ev_read Conn 2 (rd_bytes hdr); ev_read Conn count (rd_bytes d)] /\
    BUFFER_SIZE < len d <= count.
Proof.
  induction sched as [|[|tun conn] sched IH]; intros st st' t; simpl; try discriminate.
  destruct (loop_body tun conn st) as [[r st1] t1] eqn:Hb.
  destruct r as [[]|s].
  - destruct (vpn_event_loop sched st1) as [[s2 st2] t2] eqn:Hl.
    intros [= -> <- <-]. apply IH in Hl.
    destruct Hl as (pre & hdr & count & d & -> & Hd).
    exists (ev_select true :: t1 ++ pre), hdr, count, d.
    split; [|exact Hd]. simpl. rewrite <- app_assoc. reflexivity.
  - intros [= -> <- <-]. apply loop_body_overrun in Hb.
    destruct Hb as (pre & hdr & count & d & -> & Hd).
    exists (ev_select true :: pre), hdr, count, d. auto.
Qed.

(** C10. When the two bytes [h], [l] of a length prefix and the bytes [d]
    after them have arrived, the receiving block asks [read] for exactly
    the declared length [256 * h + l], whatever it is, with [buffer] as the
    destination.  With a declared length of at most [BUFFER_SIZE] the bytes
    stored stay within [buffer]; with a greater one and more than
    [BUFFER_SIZE] bytes arrived, the [read] stores past the end of
    [buffer]: no branch rejects the frame.  And in every run of the loop an
    overrun comes from such a [read] only. *)
Theorem payload_read_unchecked st h l d rest :
  is_byte h -> is_byte l -> d <> [] ->
  conn_in st = seg (h :: l :: d) :: rest ->
  let L := 256 * h + l in
  let got := take (Z.to_nat L) d in
  (exists r st' t,
     from_conn st =
       (r, st', ev_read Conn 2 (rd_bytes [h; l]) :: ev_read Conn L (rd_bytes got) :: t) /\
     (L <= BUFFER_SIZE -> len got <= BUFFER_SIZE /\ r <> stopped Overrun) /\
     (BUFFER_SIZE < L -> BUFFER_SIZE < len d ->
      BUFFER_SIZE < len got /\ r = stopped Overrun /\ t = [])) /\
  (forall sched st0 st1 t0,
     vpn_event_loop sched st0 = (Overrun, st1, t0) ->
     exists pre hdr count dd,
       t0 = pre ++ [ev_read Conn 2 (rd_bytes hdr); ev_read Conn count (rd_bytes dd)] /\
       BUFFER_SIZE < len dd <= count).
Proof.
  intros Hh Hl Hd Hin L got. split; [|intros; eapply vpn_event_loop_overrun; eassumption].
  assert (conn_read 2 (conn_in st) = Some (rd_bytes [h; l], seg d :: rest)) as H1
      by (rewrite Hin; apply conn_read_frame, Hd).
  pose proof (declared_full st h l Hh Hl) as HL. fold L in HL.
  pose proof (len_two h l) as H2.
  assert (0 <= L) as HL0 by (unfold L, is_byte in *; lia).
  assert (len got <= L) as Hgot by (apply len_take; exact HL0).
  destruct (Z.eq_dec L 0) as [HLz|HLnz].
  - (* a declared length of 0 *)
    assert (conn_read (declared st [h; l]) (seg d :: rest) =
            Some (rd_bytes [], seg d :: rest)) as H3
        by (apply conn_read_none_count; lia).
    destruct (from_conn_no_payload st _ _ _ _ H1 H2 H3 ltac:(simpl; unfold len; simpl; lia))
      as [st' Hrun].
    assert (got = []) as Hg by (unfold got; rewrite HLz; reflexivity).
    exists (stopped (Break peer_disconnected)), st', [].
    rewrite Hrun, HL, Hg. split; [reflexivity|]. split.
    + intros _. split; [unfold len, BUFFER_SIZE; simpl; lia|discriminate].
    + unfold BUFFER_SIZE. lia.
  - assert (0 < L) as HLpos by lia.
    assert (conn_read (declared st [h; l]) (seg d :: rest) =
            Some (rd_bytes got,
                  match drop (Z.to_nat L) d with
                  | [] => rest
                  | d' => seg d' :: rest
                  end)) as H3
        by (rewrite HL; apply conn_read_seg; assumption).
    pose proof (take_nonempty L d HLpos Hd) as Hne. fold got in Hne.
    destruct (Z_lt_le_dec BUFFER_SIZE (len got)) as [Hbig|Hsmall].
    + destruct (from_conn_overrun st _ _ _ _ H1 H2 H3 Hbig) as [st' Hrun].
      exists (stopped Overrun), st', []. rewrite Hrun, HL.
      split; [reflexivity|]. split; [lia|auto].
    + destruct (next_result (tun_wr st)) as [ok w] eqn:Hw.
      destruct (from_conn_packet st _ _ _ _ ok w H1 H2 H3 ltac:(lia) Hw)
        as (st' & Hrun & _).
      eexists _, st', _. rewrite Hrun, HL. split; [reflexivity|]. split.
      * intros _. split; [exact Hsmall|]. destruct ok; discriminate.
      * intros HLbig Hdbig. exfalso. unfold got, len in Hsmall.
        rewrite length_take in Hsmall. unfold len in Hdbig. lia.
Qed.

Lemma payload_read_unchecked_witness :
  let st := set_conn_in [seg [0; 3; 67; 64; 65]; fin] fresh in
  let L := 256 * 0 + 3 in
  let got := take (Z.to_nat L) [67; 64; 65] in
  (exists r st' t,
     from_conn st =
       (r, st', ev_read Conn 2 (rd_bytes [0; 3]) :: ev_read Conn L (rd_bytes got) :: t) /\
     (L <= BUFFER_SIZE -> len got <= BUFFER_SIZE /\ r <> stopped Overrun) /\
     (BUFFER_SIZE < L -> BUFFER_SIZE < len [67; 64; 65] ->
      BUFFER_SIZE < len got /\ r = stopped Overrun /\ t = [])) /\
  (forall sched st0 st1 t0,
     vpn_event_loop sched st0 = (Overrun, st1, t0) ->
     exists pre hdr count dd,
       t0 = pre ++ [ev_read Conn 2 (rd_bytes hdr); ev_read Conn count (rd_bytes dd)] /\
       BUFFER_SIZE < len dd <= count).
Proof.
  intros st.
  apply (payload_read_unchecked st 0 3 [67; 64; 65] [fin]).
  - unfold is_byte. lia.
  - unfold is_byte. lia.
  - discriminate.
  - reflexivity.
Defined.

(** A frame that declares 2049 bytes and brings them: the [read] is asked
    for 2049 bytes and stores all of them. *)
Example oversized_frame_overruns :
  exists st',
    from_conn (set_conn_in [seg (8 :: 1 :: repeat 0 2049)] fresh) =
    (stopped Overrun, st',
     [ev_read Conn 2 (rd_bytes [8; 1]); ev_read Conn 2049 (rd_bytes (repeat 0 2049))]).
Proof. eexists. vm_compute. reflexivity. Qed.

Lemma conn_read_reset count s s' :
  conn_read count s = Some (rd_err, s') -> In rst s.
Proof.
  revert s'. induction s as [|[[|x l]| |] s IH]; intros s'; simpl;
    destruct (count <=? 0); try discriminate.
  - intros H. right. eapply IH, H.
  - intros _. left. reflexivity.
Qed.

Lemma conn_read_fin count rest :
  0 < count -> conn_read count (fin :: rest) = Some (rd_bytes [], fin :: rest).
Proof.
  intros Hc. simpl. destruct (count <=? 0) eqn:E; [apply Z.leb_le in E; lia|reflexivity].
Qed.

Lemma conn_read_rst count rest :
  0 < count -> conn_read count (rst :: rest) = Some (rd_err, rest).
Proof.
  intros Hc. simpl. destruct (count <=? 0) eqn:E; [apply Z.leb_le in E; lia|reflexivity].
Qed.

Lemma conn_read_nothing count : 0 < count -> conn_read count [] = None.
Proof.
  intros Hc. simpl. destruct (count <=? 0) eqn:E; [apply Z.leb_le in E; lia|reflexivity].
Qed.

(** The receiving block on one frame, case by case.  Once the two bytes
    [h], [l] of a prefix were read, with a declared length [L = 256 * h + l] between 1 and
    [BUFFER_SIZE], the block asks [read] once for exactly [L] bytes and
    goes by what that call returns.  When bytes [d] have arrived it yields
    the packet of [take L d]: all [L] bytes if they are all there, only the
    [len d] bytes arrived so far if they are fewer, the rest of the
    frame staying on the stream.  When the peer has closed, or the
    connection has failed, it takes the disconnect path, and it takes it in
    no other case; when nothing has arrived and the stream is open it
    blocks.  A [read] of the prefix that returns nothing or fails is a
    disconnect too. *)
Theorem decode_reads_once st h l s1 :
  is_byte h -> is_byte l -> 1 <= 256 * h + l <= BUFFER_SIZE ->
  conn_read 2 (conn_in st) = Some (rd_bytes [h; l], s1) ->
  let L := 256 * h + l in
  let hdr := ev_read Conn 2 (rd_bytes [h; l]) in
  let ok := fst (next_result (tun_wr st)) in
  (forall d rest, d <> [] -> s1 = seg d :: rest ->
     let got := take (Z.to_nat L) d in
     exists st',
       from_conn st =
         (if ok then value tt else stopped (Break tun_write_failed), st',
          [hdr; ev_read Conn L (rd_bytes got);
           ev_write Tun (map (xor_byte XOR_KEY) got) ok]) /\
       len got = Z.min L (len d) /\
       conn_in st' = match drop (Z.to_nat L) d with
                     | [] => rest
                     | d' => seg d' :: rest
                     end) /\
  (forall rest, s1 = fin :: rest ->
     exists st', from_conn st =
       (stopped (Break peer_disconnected), st', [hdr; ev_read Conn L (rd_bytes [])])) /\
  (forall rest, s1 = rst :: rest ->
     exists st', from_conn st =
       (stopped (Break peer_disconnected), st', [hdr; ev_read Conn L rd_err])) /\
  (s1 = [] -> exists st', from_conn st = (stopped Blocked, st', [hdr])) /\
  (forall st' t, from_conn st = (stopped (Break peer_disconnected), st', t) ->
     In fin s1 \/ In rst s1) /\
  (forall st0 r s, conn_read 2 (conn_in st0) = Some (r, s) -> rd_ret r <= 0 ->
     exists st', from_conn st0 =
       (stopped (Break peer_disconnected), st', [ev_read Conn 2 r])).
Proof.
  intros Hh Hl HL H1 L hdr ok. fold L in HL.
  pose proof (declared_full st h l Hh Hl) as Hdecl. fold L in Hdecl.
  pose proof (len_two h l) as H2.
  repeat split.
  - intros d rest Hd -> got.
    assert (conn_read (declared st [h; l]) (seg d :: rest) =
            Some (rd_bytes got,
                  match drop (Z.to_nat L) d with
                  | [] => rest
                  | d' => seg d' :: rest
                  end)) as H3
        by (rewrite Hdecl; apply conn_read_seg; [lia|exact Hd]).
    pose proof (take_nonempty L d ltac:(lia) Hd) as Hne. fold got in Hne.
    pose proof (len_take L d ltac:(lia)) as Hle. fold got in Hle.
    destruct (next_result (tun_wr st)) as [ok' w] eqn:Hw.
    destruct (from_conn_packet st _ _ _ _ ok' w H1 H2 H3 ltac:(lia) Hw)
      as (st' & Hrun & Hc & _).
    exists st'. rewrite Hrun, Hdecl. unfold ok. simpl fst.
    split; [reflexivity|]. split; [|exact Hc].
    unfold got, len. rewrite length_take. lia.
  - intros rest ->.
    assert (conn_read (declared st [h; l]) (fin :: rest) =
            Some (rd_bytes [], fin :: rest)) as H3.
    { rewrite Hdecl. apply conn_read_fin. lia. }
    destruct (from_conn_no_payload st _ _ _ _ H1 H2 H3 ltac:(simpl; unfold len; simpl; lia))
      as [st' Hrun].
    exists st'. rewrite Hrun, Hdecl. reflexivity.
  - intros rest ->.
    assert (conn_read (declared st [h; l]) (rst :: rest) = Some (rd_err, rest)) as H3.
    { rewrite Hdecl. apply conn_read_rst. lia. }
    destruct (from_conn_no_payload st _ _ _ _ H1 H2 H3 ltac:(simpl; lia)) as [st' Hrun].
    exists st'. rewrite Hrun, Hdecl. reflexivity.
  - intros ->.
    assert (conn_read (declared st [h; l]) [] = None) as H3.
    { rewrite Hdecl. apply conn_read_nothing. lia. }
    destruct (from_conn_payload_blocked st _ _ H1 H2 H3) as [st' Hrun].
    exists st'. exact Hrun.
  - intros st' t Hrun.
    destruct (conn_read (declared st [h; l]) s1) as [[r2 s2]|] eqn:H3.
    + destruct r2 as [|d].
      * right. eapply conn_read_reset, H3.
      * destruct d as [|x d].
        -- left. rewrite Hdecl in H3. eapply conn_read_eof; [|exact H3]. lia.
        -- exfalso.
           destruct (conn_read_bound _ _ _ _ H3) as [?|Hb]; [discriminate|].
           rewrite Hdecl in Hb.
           destruct (next_result (tun_wr st)) as [ok' w] eqn:Hw.
           destruct (from_conn_packet st _ _ _ _ ok' w H1 H2 H3 ltac:(lia) Hw)
             as (st2 & Hrun2 & _).
           rewrite Hrun2 in Hrun. destruct ok'; discriminate.
    + exfalso. destruct (from_conn_payload_blocked st _ _ H1 H2 H3) as [st2 Hrun2].
      rewrite Hrun2 in Hrun. discriminate.
  - intros st0 r s. apply from_conn_no_length.
Qed.

Lemma decode_reads_once_witness :
  let st := set_conn_in [seg [0; 4; 1; 2]; seg [3; 4]] fresh in
  (is_byte 0 /\ is_byte 4 /\ 1 <= 256 * 0 + 4 <= BUFFER_SIZE /\
   conn_read 2 (conn_in st) = Some (rd_bytes [0; 4], [seg [1; 2]; seg [3; 4]])) /\
  exists st',
    from_conn st =
      (value tt, st',
       [ev_read Conn 2 (rd_bytes [0; 4]); ev_read Conn 4 (rd_bytes [1; 2]);
        ev_write Tun [67; 64] true]) /\
    len [1; 2] = Z.min 4 (len [1; 2]) /\
    conn_in st' = [seg [3; 4]].
Proof.
  intros st.
  assert (is_byte 0) as H0 by (unfold is_byte; lia).
  assert (is_byte 4) as H4 by (unfold is_byte; lia).
  assert (1 <= 256 * 0 + 4 <= BUFFER_SIZE) as HL by (unfold BUFFER_SIZE; lia).
  assert (conn_read 2 (conn_in st) = Some (rd_bytes [0; 4], [seg [1; 2]; seg [3; 4]]))
    as H1 by reflexivity.
  split; [auto|].
  destruct (decode_reads_once st 0 4 [seg [1; 2]; seg [3; 4]] H0 H4 HL H1) as [Hgot _].
  apply (Hgot [1; 2] [seg [3; 4]]); [discriminate|reflexivity].
Defined.

(** C2. The receiving block does not wait for a frame to be complete.
    The frame declares 4 bytes, 2 of them have arrived and the stream is
    open: the one [read] for the payload returns those 2, and the block
    yields them as a packet instead of waiting for the other 2, which stay
    on the stream.  When they arrive, the next pass reads them as a length
    prefix: the receiver is out of step with the sender from then on. *)
Lemma decode_yields_partial_payload :
  let st := set_conn_in [seg [0; 4; 1; 2]; seg [3; 4]] fresh in
  (exists st' d,
    from_conn st =
      (value tt, st',
       [ev_read Conn 2 (rd_bytes [0; 4]); ev_read Conn 4 (rd_bytes [1; 2]);
        ev_write Tun d true]) /\
    len d <> 256 * 0 + 4 /\
    conn_in st' = [seg [3; 4]] /\
    ~ In fin (conn_in st)) /\
  snd (vpn_event_loop [sel_ready false true; sel_ready false true] st) =
    [ev_select true;
     ev_read Conn 2 (rd_bytes [0; 4]); ev_read Conn 4 (rd_bytes [1; 2]);
     ev_write Tun [67; 64] true;
     ev_select true;
     ev_read Conn 2 (rd_bytes [3; 4])].
Proof.
  split; [|vm_compute; reflexivity].
  eexists _, _. split; [vm_compute; reflexivity|]. split; [|split].
  - vm_compute. discriminate.
  - reflexivity.
  - simpl. intros [H|[H|[]]]; discriminate.
Qed.

(** A prefix of which only one byte has arrived is used all the same:
    [nread] is 1, which is not [<= 0], and the length is made of the byte
    read and of the byte [packet_len] held before. *)
Example torn_prefix_is_used :
  let st := set_packet_len [9; 9] (set_conn_in [seg [0]; seg [4; 1; 2]] fresh) in
  snd (from_conn st) =
    [ev_read Conn 2 (rd_bytes [0]); ev_read Conn 9 (rd_bytes [4; 1; 2]);
     ev_write Tun [70; 67; 64] true].
Proof. vm_compute. reflexivity. Qed.

(** ** Round trip *)

Lemma map_xor_involutive (p : list Z) k :
  bytes p -> is_byte k -> map (xor_byte k) (map (xor_byte k) p) = p.
Proof.
  intros Hp Hk. induction Hp as [|x p Hx Hp IH]; simpl; [reflexivity|].
  rewrite IH. f_equal. apply xor_byte_involutive; assumption.
Qed.

Lemma XOR_KEY_byte : is_byte XOR_KEY.
Proof. unfold is_byte, XOR_KEY. lia. Qed.

Lemma take_all_len n (p : list Z) : len p <= n -> take (Z.to_nat n) p = p.
Proof. intros H. apply take_ge. unfold len in H. lia. Qed.

(** What the sending block puts on the wire for a packet that fits
    [buffer]. *)
Lemma encode_frame b p :
  len p <= BUFFER_SIZE ->
  encode b p = frame_header (len p) ++ map (xor_byte XOR_KEY) p.
Proof.
  intros Hp. unfold encode.
  rewrite (from_tun_packet (sender b p) p [] eq_refl).
  rewrite (take_all_len _ p Hp).
  rewrite send_frame_run
    by (pose proof (len_nonneg p); unfold BUFFER_SIZE in Hp; lia).
  simpl buffer. rewrite crypt_read_bytes. simpl.
  rewrite app_nil_r. reflexivity.
Qed.

(** C1, as the code has it.  For every packet [p] of 1 to [BUFFER_SIZE]
    (2048) bytes, whatever [buffer] and [packet_len] held before: the
    sending block puts on the wire the length of [p], high byte first, and
    the cipher text of [p], and the receiving block, finding that frame
    arrived in full, injects exactly the one packet [p]. *)
Theorem framing_roundtrip b b' o p :
  bytes p -> 1 <= len p <= BUFFER_SIZE ->
  encode b p = [len p / 256; len p mod 256] ++ map (xor_byte XOR_KEY) p /\
  decode b' o (encode b p) = [p].
Proof.
  intros Hp [Hlo Hhi]. rewrite (encode_frame b p Hhi).
  split; [reflexivity|].
  unfold decode, frame_header. simpl app.
  set (h := len p / 256). set (l := len p mod 256).
  set (body := map (xor_byte XOR_KEY) p).
  set (st := receiver b' o (h :: l :: body)).
  assert (is_byte h /\ is_byte l /\ 256 * h + l = len p) as (Hh & Hl & HL).
  { unfold is_byte, h, l. unfold BUFFER_SIZE in Hhi.
    Z.div_mod_to_equations. lia. }
  assert (len body = len p) as Hlen by (unfold body, len; rewrite length_map; reflexivity).
  assert (body <> []) as Hne.
  { intros E. rewrite E in Hlen. unfold len in *. simpl in Hlen. lia. }
  assert (conn_read 2 (conn_in st) = Some (rd_bytes [h; l], seg body :: [fin])) as H1
      by (apply conn_read_frame, Hne).
  pose proof (declared_full st h l Hh Hl) as Hdecl. rewrite HL in Hdecl.
  assert (conn_read (declared st [h; l]) (seg body :: [fin]) =
          Some (rd_bytes body, [fin])) as H3.
  { rewrite Hdecl, conn_read_seg by (assumption || lia).
    rewrite <- Hlen. unfold len. rewrite Nat2Z.id, firstn_all, drop_all. reflexivity. }
  destruct (from_conn_packet st _ _ _ _ true [] H1 (len_two h l) H3 ltac:(lia) eq_refl)
    as (st' & Hrun & _).
  rewrite Hrun. simpl. unfold body.
  rewrite (map_xor_involutive p XOR_KEY Hp XOR_KEY_byte). reflexivity.
Qed.

Lemma framing_roundtrip_witness :
  encode zero_buffer [69; 0; 0; 20] =
    [len [69; 0; 0; 20] / 256; len [69; 0; 0; 20] mod 256]
      ++ map (xor_byte XOR_KEY) [69; 0; 0; 20] /\
  decode zero_buffer [0; 0] (encode zero_buffer [69; 0; 0; 20]) = [[69; 0; 0; 20]].
Proof.
  apply (framing_roundtrip zero_buffer zero_buffer [0; 0] [69; 0; 0; 20]).
  - byte_list.
  - unfold len, BUFFER_SIZE. simpl. lia.
Defined.

Lemma singleton_inj {A : Type} (a b : A) : [a] = [b] -> a = b.
Proof. intros H. injection H as H. exact H. Qed.

(** The claim C1 as the specification has it fails at both ends of its
    range.  A packet of 65535 bytes is cut to the 2048 bytes [buffer] takes
    when it is read from the TUN device, and only those reach the other
    side; the frame of an empty packet is answered by the disconnect path
    and no packet is injected. *)
Lemma roundtrip_fails_at_both_ends :
  len jumbo = 65535 /\
  decode zero_buffer [0; 0] (encode zero_buffer jumbo) <> [jumbo] /\
  decode zero_buffer [0; 0] (encode zero_buffer jumbo)
    = [repeat 7 (Z.to_nat BUFFER_SIZE)] /\
  len [] = 0 /\
  decode zero_buffer [0; 0] (encode zero_buffer []) <> [[]] /\
  decode zero_buffer [0; 0] (encode zero_buffer []) = [].
Proof.
  assert (decode zero_buffer [0; 0] (encode zero_buffer jumbo)
          = [repeat 7 (Z.to_nat BUFFER_SIZE)]) as Hbig by (vm_compute; reflexivity).
  assert (decode zero_buffer [0; 0] (encode zero_buffer []) = []) as Hnil
      by (vm_compute; reflexivity).
  split; [|split; [|split; [exact Hbig|split; [reflexivity|split; [|exact Hnil]]]]].
  - unfold len, jumbo. rewrite repeat_length. apply Z2Nat.id. lia.
  - rewrite Hbig. intros H. apply singleton_inj in H.
    apply (f_equal (@length Z)) in H. unfold jumbo in H.
    rewrite !repeat_length in H.
    apply Z2Nat.inj in H; unfold BUFFER_SIZE in *; lia.
  - rewrite Hnil. discriminate.
Qed.

(** ** The empty frame *)

(** C3 fails on the code.  The sending block does frame an empty packet,
    as the two bytes 0, 0; the receiving block that finds this frame asks
    [read] for 0 bytes, gets 0, and takes that for the peer's disconnect:
    the loop is left though the stream is open and the next frame has
    arrived, and it is never read. *)
Lemma empty_frame_ends_session :
  encode zero_buffer [] = [0; 0] /\
  let st := set_conn_in [seg [0; 0]; seg [0; 1; 67]] fresh in
  let run := vpn_event_loop [sel_ready false true; sel_ready false true] st in
  fst (fst run) = Break peer_disconnected /\
  snd run = [ev_select true; ev_read Conn 2 (rd_bytes [0; 0]);
             ev_read Conn 0 (rd_bytes [])] /\
  tun_injected (snd run) = [] /\
  conn_in (snd (fst run)) = [seg [0; 1; 67]].
Proof. vm_compute. repeat split. Qed.

(** ** Leaving the loop *)

Lemma loop_body_tun_stops conn st s st' t :
  from_tun st = (stopped s, st', t) -> loop_body true conn st = (stopped s, st', t).
Proof.
  intros H. unfold loop_body. unfold mbind at 1, io_bind at 1. rewrite H. reflexivity.
Qed.

Lemma loop_body_conn_only st : loop_body false true st = from_conn st.
Proof.
  unfold loop_body. unfold mbind at 1, io_bind at 1. unfold mret at 1, io_ret at 1.
  destruct (from_conn st) as [[r st'] t]. reflexivity.
Qed.

Lemma from_tun_error st q :
  tun_in st = tun_error :: q ->
  from_tun st = (stopped (Break tun_read_failed), set_tun_in q st,
                 [ev_read Tun BUFFER_SIZE rd_err]).
Proof.
  intros Hq. unfold from_tun, read_buffer, sys_read, mbind, io_bind.
  rewrite Hq. reflexivity.
Qed.

Lemma conn_read_prefix h l s :
  conn_read 2 (seg [h; l] :: s) = Some (rd_bytes [h; l], s).
Proof. reflexivity. Qed.

(** A pass whose first block does not stop goes on with the block of the
    connection, which finds the connection and the TUN device's [write]s
    as they were. *)
Lemma tun_part_then tun st t0 :
  tun_part tun st t0 ->
  exists st1,
    conn_in st1 = conn_in st /\ tun_wr st1 = tun_wr st /\
    loop_body tun true st =
    match from_conn st1 with
    | (r, st2, t2) => (r, st2, t0 ++ t2)
    end.
Proof.
  intros H. destruct H as [st|st pk q Hq H1 H2].
  - exists st. split; [reflexivity|]. split; [reflexivity|].
    rewrite loop_body_conn_only. destruct (from_conn st) as [[r st2] t2]. reflexivity.
  - destruct (from_tun_run st pk q Hq) as (st1 & _ & Hc & Hw & Hrun).
    rewrite H1, H2 in Hrun.
    exists st1. split; [exact Hc|]. split; [exact Hw|].
    unfold loop_body. unfold mbind at 1, io_bind at 1. rewrite Hrun. reflexivity.
Qed.

(** Each way out of the loop is taken when the environment does its
    part. *)
Lemma leaves_run sel st d t sched :
  leaves sel st d t ->
  exists st', vpn_event_loop (sel :: sched) st = (Break d, st', t).
Proof.
  intros H. destruct H as
    [st|conn st q Hq|conn st pk q w Hq Hw|conn st pk q w Hq Hw
    |tun st t0 rest Ht Hs|tun st t0 rest Ht Hs
    |tun st t0 h l rest Ht Hh Hl Hs|tun st t0 h l rest Ht Hh Hl HL Hs
    |tun st t0 h l d rest w Ht Hh Hl Hd HL Hfit Hs Hw].
  - eexists. reflexivity.
  - cbn [vpn_event_loop].
    rewrite (loop_body_tun_stops conn _ _ _ _ (from_tun_error st q Hq)).
    eexists. reflexivity.
  - destruct (from_tun_run st pk q Hq) as (st' & _ & _ & _ & Hrun).
    rewrite Hw in Hrun. cbn [next_wr fst snd] in Hrun.
    cbn [vpn_event_loop]. rewrite (loop_body_tun_stops conn _ _ _ _ Hrun).
    eexists. reflexivity.
  - destruct (from_tun_run st pk q Hq) as (st' & _ & _ & _ & Hrun).
    rewrite Hw in Hrun. cbn [next_wr fst snd] in Hrun.
    cbn [vpn_event_loop]. rewrite (loop_body_tun_stops conn _ _ _ _ Hrun).
    eexists. reflexivity.
  - destruct (tun_part_then tun st t0 Ht) as (st1 & Hc1 & _ & Hbody).
    cbn [vpn_event_loop]. rewrite Hbody. rewrite <- Hc1 in Hs.
    destruct (from_conn_no_length st1 (rd_bytes []) (fin :: rest)) as [st' ->].
    + rewrite Hs. apply conn_read_fin. lia.
    + simpl. unfold len. simpl. lia.
    + eexists. reflexivity.
  - destruct (tun_part_then tun st t0 Ht) as (st1 & Hc1 & _ & Hbody).
    cbn [vpn_event_loop]. rewrite Hbody. rewrite <- Hc1 in Hs.
    destruct (from_conn_no_length st1 rd_err rest) as [st' ->].
    + rewrite Hs. apply conn_read_rst. lia.
    + simpl. lia.
    + eexists. reflexivity.
  - destruct (tun_part_then tun st t0 Ht) as (st1 & Hc1 & _ & Hbody).
    cbn [vpn_event_loop]. rewrite Hbody. rewrite <- Hc1 in Hs.
    pose proof (declared_full st1 h l Hh Hl) as Hdecl.
    assert (conn_read (declared st1 [h; l]) (fin :: rest) =
            Some (rd_bytes [], fin :: rest)) as H2.
    { rewrite Hdecl. destruct (Z_le_gt_dec (256 * h + l) 0).
      - apply conn_read_none_count. assumption.
      - apply conn_read_fin. lia. }
    destruct (from_conn_no_payload st1 [h; l] (fin :: rest) (rd_bytes []) (fin :: rest))
      as [st' ->].
    + rewrite Hs. apply conn_read_prefix.
    + apply len_two.
    + exact H2.
    + simpl. unfold len. simpl. lia.
    + rewrite Hdecl. eexists. reflexivity.
  - destruct (tun_part_then tun st t0 Ht) as (st1 & Hc1 & _ & Hbody).
    cbn [vpn_event_loop]. rewrite Hbody. rewrite <- Hc1 in Hs.
    pose proof (declared_full st1 h l Hh Hl) as Hdecl.
    destruct (from_conn_no_payload st1 [h; l] (rst :: rest) rd_err rest) as [st' ->].
    + rewrite Hs. apply conn_read_prefix.
    + apply len_two.
    + rewrite Hdecl. apply conn_read_rst. exact HL.
    + simpl. lia.
    + rewrite Hdecl. eexists. reflexivity.
  - destruct (tun_part_then tun st t0 Ht) as (st1 & Hc1 & Hw1 & Hbody).
    cbn [vpn_event_loop]. rewrite Hbody. rewrite <- Hc1 in Hs. rewrite <- Hw1 in Hw.
    pose proof (declared_full st1 h l Hh Hl) as Hdecl.
    set (L := 256 * h + l) in *. set (got := take (Z.to_nat L) d) in *.
    pose proof (take_nonempty L d HL Hd) as Hne. fold got in Hne.
    destruct (from_conn_packet st1 [h; l] (seg d :: rest) got
                (match drop (Z.to_nat L) d with
                 | [] => rest
                 | d' => seg d' :: rest
                 end) false w)
      as (st' & Hrun & _).
    + rewrite Hs. apply conn_read_frame. exact Hd.
    + apply len_two.
    + rewrite Hdecl. apply conn_read_seg; [exact HL|exact Hd].
    + split; [exact Hne|exact Hfit].
    + rewrite Hw. reflexivity.
    + rewrite Hrun, Hdecl. eexists. reflexivity.
Qed.

(** A [write] on the connection that raises SIGPIPE ends the run there. *)
Lemma dies_run sel st t sched :
  dies sel st t ->
  exists st', vpn_event_loop (sel :: sched) st = (Killed, st', t).
Proof.
  intros H. destruct H as [conn st pk q w Hq Hw|conn st pk q w Hq Hw];
    destruct (from_tun_run st pk q Hq) as (st' & _ & _ & _ & Hrun);
    rewrite Hw in Hrun; cbn [next_wr fst snd] in Hrun;
    cbn [vpn_event_loop]; rewrite (loop_body_tun_stops conn _ _ _ _ Hrun);
    eexists; reflexivity.
Qed.

(** After the passes of a session so far the loop goes on from the state
    they left. *)
Lemma completes_then sched1 st st1 t1 :
  completes sched1 st st1 t1 ->
  forall sched2,
    vpn_event_loop (sched1 ++ sched2) st =
    match vpn_event_loop sched2 st1 with
    | (s, st2, t2) => (s, st2, t1 ++ t2)
    end.
Proof.
  induction 1 as [st|tun conn sched st st1 t1 st2 t2 Hb Hc IH]; intros sched2.
  - simpl. destruct (vpn_event_loop sched2 st) as [[s st2] t2]. reflexivity.
  - cbn [app vpn_event_loop]. rewrite Hb, IH.
    destruct (vpn_event_loop sched2 st2) as [[s st3] t3].
    rewrite <- app_assoc. reflexivity.
Qed.

Lemma session_leaves p e sched1 sel sched2 st st1 t1 d t2 :
  setup_ok_of p e = true -> completes sched1 st st1 t1 -> leaves sel st1 d t2 ->
  main_of p e (sched1 ++ sel :: sched2) st =
    (exits 0, opens_of p ++ t1 ++ t2 ++ closes_of p).
Proof.
  intros Hs Hc Hl. rewrite (main_setup_ok p e _ st Hs), (completes_then _ _ _ _ Hc).
  destruct (leaves_run sel st1 d t2 sched2 Hl) as [st' ->].
  unfold prepend, cleanup. cbn [fst snd]. f_equal. f_equal.
  rewrite <- app_assoc. reflexivity.
Qed.

Lemma session_dies p e sched1 sel sched2 st st1 t1 t2 :
  setup_ok_of p e = true -> completes sched1 st st1 t1 -> dies sel st1 t2 ->
  main_of p e (sched1 ++ sel :: sched2) st =
    (killed_by_sigpipe, opens_of p ++ t1 ++ t2).
Proof.
  intros Hs Hc Hl. rewrite (main_setup_ok p e _ st Hs), (completes_then _ _ _ _ Hc).
  destruct (dies_run sel st1 t2 sched2 Hl) as [st' ->].
  unfold prepend, cleanup. cbn [fst snd]. reflexivity.
Qed.

(** ** Exit status *)

(** C8. A process whose setup fails at any call (the TUN device cannot be
    opened or configured, the socket cannot be created, the address is
    invalid, [bind], [listen], [connect] or [accept] fails, or the client
    lacks its argument) exits with status 1 without entering the loop.
    After a setup that succeeded and a session of any number of passes,
    once the peer has closed the connection: when the next pass reads the
    connection, the [read] returns 0, the loop is left, [main] closes the
    TUN device and the connection and returns 0; when the next pass
    relays a packet from the TUN device first and the connection answers
    the second [write] with SIGPIPE, the process ends in that [write],
    with no [close] and no exit status. *)
Theorem exit_status p e sched1 sched2 st st1 t1 rest :
  completes sched1 st st1 t1 ->
  conn_in st1 = fin :: rest ->
  if setup_ok_of p e
  then
    main_of p e (sched1 ++ sel_ready false true :: sched2) st =
      (exits 0,
       opens_of p ++ t1 ++ [ev_select true; ev_read Conn 2 (rd_bytes [])]
         ++ closes_of p) /\
    In (ev_close Tun) (closes_of p) /\ In (ev_close Conn) (closes_of p) /\
    (forall conn pk q w,
       tun_in st1 = tun_packet pk :: q ->
       conn_wr st1 = wr_done true :: wr_sigpipe :: w ->
       main_of p e (sched1 ++ sel_ready true conn :: sched2) st =
         (killed_by_sigpipe,
          opens_of p ++ t1 ++
          [ev_select true;
           ev_read Tun BUFFER_SIZE (rd_bytes (clip pk));
           ev_write Conn (frame_header (len (clip pk))) true;
           ev_sigpipe Conn (map (xor_byte XOR_KEY) (clip pk))]))
  else
    forall sched st0,
      exists t, main_of p e sched st0 = (exits 1, t) /\
                Forall (fun x => in_loop x = false) t.
Proof.
  intros Hc Hfin. destruct (setup_ok_of p e) eqn:Hs.
  - split; [|split; [apply closes_both|split; [apply closes_both|]]].
    + apply (session_leaves p e sched1 _ sched2 st st1 t1 peer_disconnected _ Hs Hc).
      apply (leaves_closed false st1 [] rest (tun_idle st1) Hfin).
    + intros conn pk q w Hq Hw.
      apply (session_dies p e sched1 _ sched2 st st1 t1 _ Hs Hc).
      apply (dies_send_packet conn st1 pk q w Hq Hw).
  - intros sched st0. apply main_setup_failed. exact Hs.
Qed.

Lemma exit_status_witness :
  let cipher := map (xor_byte XOR_KEY) ip_packet in
  let st := set_conn_wr [wr_done true; wr_sigpipe]
              (set_tun_in [tun_packet ip_packet]
                 (set_conn_in [seg ([0; 20] ++ cipher); fin] fresh)) in
  let t1 := [ev_select true;
             ev_read Conn 2 (rd_bytes [0; 20]);
             ev_read Conn 20 (rd_bytes cipher);
             ev_write Tun ip_packet true] in
  let no_peer :=
    {| argc := 2; open_ok := true; tunsetiff_ok := true; socket_ok := true;
       bind_ok := true; listen_ok := true; accept_ok := false; inet_pton_ok := true;
       connect_ok := false |} in
  main_of server all_ok [sel_ready false true; sel_ready false true] st =
    (exits 0,
     [ev_open Tun; ev_open Listener; ev_open Conn] ++ t1 ++
     [ev_select true; ev_read Conn 2 (rd_bytes [])] ++
     [ev_close Conn; ev_close Listener; ev_close Tun]) /\
  main_of server all_ok [sel_ready false true; sel_ready true true] st =
    (killed_by_sigpipe,
     [ev_open Tun; ev_open Listener; ev_open Conn] ++ t1 ++
     [ev_select true;
      ev_read Tun 2048 (rd_bytes ip_packet);
      ev_write Conn [0; 20] true;
      ev_sigpipe Conn cipher]) /\
  (forall sched st0,
     exists t, main_of client no_peer sched st0 = (exits 1, t) /\
               Forall (fun x => in_loop x = false) t).
Proof.
  intros cipher st t1 no_peer.
  set (st1 := snd (fst (loop_body false true st))).
  assert (completes [sel_ready false true] st st1 t1) as Hc.
  { change t1 with (ev_select true ::
                    [ev_read Conn 2 (rd_bytes [0; 20]);
                     ev_read Conn 20 (rd_bytes cipher);
                     ev_write Tun ip_packet true] ++ []).
    apply completes_pass with (st1 := st1); [vm_compute; reflexivity|].
    apply completes_nil. }
  assert (conn_in st1 = [fin]) as Hfin by (vm_compute; reflexivity).
  pose proof (exit_status server all_ok [sel_ready false true] [] st st1 t1 [] Hc Hfin)
    as H.
  cbv beta iota delta [setup_ok_of Server.setup_ok all_ok open_ok tunsetiff_ok
                       socket_ok bind_ok listen_ok accept_ok andb] in H.
  destruct H as (Hclean & _ & _ & Hkill).
  split; [exact Hclean|]. split.
  - apply (Hkill true ip_packet [] []); vm_compute; reflexivity.
  - exact (exit_status client no_peer [sel_ready false true] [] st st1 t1 [] Hc Hfin).
Defined.

(** C9. In both programs, after a setup that succeeded and a session of
    any number of passes, every [break] of the loop -- a failed [select], a
    failed [read] or [write] on the TUN device, a [write] on the connection
    that returns [-1], the peer's disconnect -- is followed by the [close]s
    of the TUN device and of the connection and by [return 0]; and an exit
    status other than 0 comes from a failed setup only, in a run that never
    entered the loop.  A [write] on the connection that raises SIGPIPE is
    no [break]: the process ends in it, with no [close] and no exit
    status. *)
Theorem loop_exit_returns_zero p e sched1 sel sched2 st st1 t1 :
  setup_ok_of p e = true ->
  completes sched1 st st1 t1 ->
  (forall d t2, leaves sel st1 d t2 ->
     main_of p e (sched1 ++ sel :: sched2) st =
       (exits 0, opens_of p ++ t1 ++ t2 ++ closes_of p)) /\
  In (ev_close Tun) (closes_of p) /\ In (ev_close Conn) (closes_of p) /\
  (forall t2, dies sel st1 t2 ->
     main_of p e (sched1 ++ sel :: sched2) st =
       (killed_by_sigpipe, opens_of p ++ t1 ++ t2)) /\
  (forall e' sched' st' c t,
     main_of p e' sched' st' = (exits c, t) -> c <> 0 ->
     setup_ok_of p e' = false /\ Forall (fun x => in_loop x = false) t).
Proof.
  intros Hs Hc.
  split; [|split; [apply closes_both|split; [apply closes_both|split]]].
  - intros d t2 Hl. exact (session_leaves p e sched1 sel sched2 st st1 t1 d t2 Hs Hc Hl).
  - intros t2 Hd. exact (session_dies p e sched1 sel sched2 st st1 t1 t2 Hs Hc Hd).
  - intros e' sched' st' c t Hm Hne. destruct (setup_ok_of p e') eqn:Hs'.
    + exfalso. rewrite (main_setup_ok p e' sched' st' Hs') in Hm.
      destruct (vpn_event_loop sched' st') as [[[d| | |] st2] tl];
        unfold prepend, cleanup in Hm; simpl in Hm; try discriminate.
      injection Hm as Hz _. apply Hne. congruence.
    + destruct (main_setup_failed p e' sched' st' Hs') as (t' & Ht & Hloop).
      rewrite Ht in Hm. injection Hm as _ <-. split; [reflexivity|exact Hloop].
Qed.

Lemma loop_exit_returns_zero_witness :
  let p1 := [69; 0; 0; 20] in
  let p2 := [69; 0; 0; 21] in
  let t1 := [ev_select true;
             ev_read Tun 2048 (rd_bytes p1);
             ev_write Conn [0; 4] true;
             ev_write Conn [7; 66; 66; 86] true] in
  main_of client all_ok [sel_ready true false; sel_ready true false]
          (set_conn_wr [wr_done true; wr_done true; wr_done true; wr_done false]
             (set_tun_in [tun_packet p1; tun_packet p2] fresh)) =
    (exits 0,
     [ev_open Tun; ev_open Conn] ++ t1 ++
     [ev_select true;
      ev_read Tun 2048 (rd_bytes p2);
      ev_write Conn [0; 4] true;
      ev_write Conn [7; 66; 66; 87] false] ++
     [ev_close Conn; ev_close Tun]) /\
  main_of client all_ok [sel_ready true false; sel_ready true false]
          (set_conn_wr [wr_done true; wr_done true; wr_done true; wr_sigpipe]
             (set_tun_in [tun_packet p1; tun_packet p2] fresh)) =
    (killed_by_sigpipe,
     [ev_open Tun; ev_open Conn] ++ t1 ++
     [ev_select true;
      ev_read Tun 2048 (rd_bytes p2);
      ev_write Conn [0; 4] true;
      ev_sigpipe Conn [7; 66; 66; 87]]).
Proof.
  intros p1 p2 t1.
  assert (forall st,
            loop_body true false st =
              (value tt, snd (fst (loop_body true false st)),
               [ev_read Tun 2048 (rd_bytes p1);
                ev_write Conn [0; 4] true;
                ev_write Conn [7; 66; 66; 86] true]) ->
            completes [sel_ready true false] st
                      (snd (fst (loop_body true false st))) t1) as Hpass.
  { intros st Hb.
    change t1 with (ev_select true ::
                    [ev_read Tun 2048 (rd_bytes p1);
                     ev_write Conn [0; 4] true;
                     ev_write Conn [7; 66; 66; 86] true] ++ []).
    eapply completes_pass; [exact Hb|apply completes_nil]. }
  split.
  - set (st := set_conn_wr [wr_done true; wr_done true; wr_done true; wr_done false]
                 (set_tun_in [tun_packet p1; tun_packet p2] fresh)).
    destruct (loop_exit_returns_zero client all_ok [sel_ready true false]
                (sel_ready true false) [] st _ t1 eq_refl
                (Hpass st ltac:(vm_compute; reflexivity)))
      as (Hleaves & _).
    apply (Hleaves send_packet_failed).
    apply (leaves_send_packet false _ p2 [] []); vm_compute; reflexivity.
  - set (st := set_conn_wr [wr_done true; wr_done true; wr_done true; wr_sigpipe]
                 (set_tun_in [tun_packet p1; tun_packet p2] fresh)).
    destruct (loop_exit_returns_zero client all_ok [sel_ready true false]
                (sel_ready true false) [] st _ t1 eq_refl
                (Hpass st ltac:(vm_compute; reflexivity)))
      as (_ & _ & _ & Hdies & _).
    apply Hdies.
    apply (dies_send_packet false _ p2 [] []); vm_compute; reflexivity.
Defined.

(** * Further properties of the relay *)

(** ** The cipher *)

(** X1. For a [len] within the memory [data] designates, [xor_crypt]
    rewrites the first [len] cells of [data], each to its xor with the
    key, and no other: the cells from [len] on keep their value, a [len] of
    zero or less changes nothing, and the length stays. *)
Theorem xor_crypt_touches_prefix_only (data : list Z) (len key : Z) :
  len <= Z.of_nat (length data) ->
  xor_crypt data len key =
    map (xor_byte key) (take (Z.to_nat len) data) ++ drop (Z.to_nat len) data /\
  length (take (Z.to_nat len) data) = Z.to_nat len /\
  (forall j : nat, len <= Z.of_nat j -> xor_crypt data len key !! j = data !! j) /\
  (forall j : nat, Z.of_nat j < len ->
     exists x, data !! j = Some x /\
               xor_crypt data len key !! j = Some (xor_byte key x)) /\
  (len <= 0 -> xor_crypt data len key = data) /\
  length (xor_crypt data len key) = length data.
Proof.
  intros Hin.
  split; [apply xor_crypt_take_drop|]. split; [|split; [|split; [|split]]].
  - rewrite length_take. lia.
  - intros j Hj. rewrite xor_crypt_lookup. case_decide; [lia|reflexivity].
  - intros j Hj.
    destruct (lookup_lt_is_Some_2 data j ltac:(lia)) as [x Hx].
    exists x. split; [exact Hx|].
    rewrite xor_crypt_lookup. case_decide; [|lia]. rewrite Hx. reflexivity.
  - intros Hl. rewrite xor_crypt_take_drop.
    replace (Z.to_nat len) with 0%nat by lia. reflexivity.
  - apply xor_crypt_length.
Qed.

Lemma xor_crypt_touches_prefix_only_witness :
  let data := [69; 0; 0; 20] in
  xor_crypt data 2 XOR_KEY =
    map (xor_byte XOR_KEY) (take (Z.to_nat 2) data) ++ drop (Z.to_nat 2) data /\
  length (take (Z.to_nat 2) data) = Z.to_nat 2 /\
  (forall j : nat, 2 <= Z.of_nat j -> xor_crypt data 2 XOR_KEY !! j = data !! j) /\
  (forall j : nat, Z.of_nat j < 2 ->
     exists x, data !! j = Some x /\
               xor_crypt data 2 XOR_KEY !! j = Some (xor_byte XOR_KEY x)) /\
  (2 <= 0 -> xor_crypt data 2 XOR_KEY = data) /\
  length (xor_crypt data 2 XOR_KEY) = length data.
Proof.
  intros data. apply (xor_crypt_touches_prefix_only data 2 XOR_KEY).
  simpl. lia.
Defined.

Lemma xor_byte_compose k1 k2 x :
  is_byte k1 -> is_byte x ->
  xor_byte k2 (xor_byte k1 x) = xor_byte (Z.lxor k1 k2) x.
Proof.
  intros Hk Hx. unfold xor_byte, to_uchar.
  pose proof (lxor_byte_range x k1 Hx Hk) as Hr. unfold is_byte in Hr.
  rewrite (Z.mod_small (Z.lxor x k1)) by lia.
  rewrite Z.lxor_assoc. reflexivity.
Qed.

(** X2. Two passes of [xor_crypt] over the same range, with keys [k1] and
    then [k2], are one pass with the key [k1 xor k2]; so the order of the
    two keys does not matter. *)
Theorem xor_crypt_keys_compose (p : list Z) (n k1 k2 : Z) :
  bytes p -> is_byte k1 -> is_byte k2 ->
  xor_crypt (xor_crypt p n k1) n k2 = xor_crypt p n (Z.lxor k1 k2) /\
  xor_crypt (xor_crypt p n k1) n k2 = xor_crypt (xor_crypt p n k2) n k1.
Proof.
  intros Hp Hk1 Hk2.
  assert (forall a b, is_byte a -> is_byte b ->
            xor_crypt (xor_crypt p n a) n b = xor_crypt p n (Z.lxor a b)) as H.
  { intros a b Ha Hb. apply list_eq. intros j. rewrite !xor_crypt_lookup.
    case_decide; [|reflexivity].
    destruct (p !! j) as [x|] eqn:Hx; simpl; [|reflexivity].
    f_equal. apply xor_byte_compose; [exact Ha|].
    unfold bytes in Hp. rewrite Forall_lookup in Hp. eapply Hp, Hx. }
  split; [apply H; assumption|].
  rewrite !H by assumption. rewrite Z.lxor_comm. reflexivity.
Qed.

Lemma xor_crypt_keys_compose_witness :
  xor_crypt (xor_crypt [1; 2; 3] 2 XOR_KEY) 2 7 = xor_crypt [1; 2; 3] 2 (Z.lxor XOR_KEY 7) /\
  xor_crypt (xor_crypt [1; 2; 3] 2 XOR_KEY) 2 7 = xor_crypt (xor_crypt [1; 2; 3] 2 7) 2 XOR_KEY.
Proof.
  apply (xor_crypt_keys_compose [1; 2; 3] 2 XOR_KEY 7).
  - byte_list.
  - apply XOR_KEY_byte.
  - unfold is_byte. lia.
Defined.

Lemma xor_byte_zero x : is_byte x -> xor_byte 0 x = x.
Proof.
  intros Hx. unfold xor_byte, to_uchar. rewrite Z.lxor_0_r.
  apply Z.mod_small. exact Hx.
Qed.

Lemma xor_byte_moves k x : is_byte k -> is_byte x -> k <> 0 -> xor_byte k x <> x.
Proof.
  intros Hk Hx Hne E. unfold xor_byte, to_uchar in E.
  pose proof (lxor_byte_range x k Hx Hk) as Hr. unfold is_byte in Hr.
  rewrite Z.mod_small in E by lia.
  apply Hne. rewrite <- (Z.lxor_0_l k), <- (Z.lxor_nilpotent x), Z.lxor_assoc, E.
  reflexivity.
Qed.

(** X3. With the key 0 [xor_crypt] gives the buffer back as it was; with
    any other key byte, such as [XOR_KEY], it changes every byte of the
    range: no byte of a packet travels in clear. *)
Theorem xor_crypt_zero_key_only_fixes (p : list Z) (n k : Z) :
  bytes p -> is_byte k ->
  xor_crypt p n 0 = p /\
  (k <> 0 -> forall (j : nat) x, Z.of_nat j < n -> p !! j = Some x ->
     exists y, xor_crypt p n k !! j = Some y /\ y <> x) /\
  XOR_KEY <> 0.
Proof.
  intros Hp Hk. unfold bytes in Hp. rewrite Forall_lookup in Hp.
  split; [|split; [|discriminate]].
  - apply list_eq. intros j. rewrite xor_crypt_lookup.
    case_decide; [|reflexivity].
    destruct (p !! j) as [x|] eqn:Hx; simpl; [|reflexivity].
    f_equal. apply xor_byte_zero. eapply Hp, Hx.
  - intros Hne j x Hj Hx. exists (xor_byte k x). split.
    + rewrite xor_crypt_lookup, Hx. case_decide; [reflexivity|lia].
    + apply xor_byte_moves; [exact Hk|eapply Hp, Hx|exact Hne].
Qed.

Lemma xor_crypt_zero_key_only_fixes_witness :
  xor_crypt [69; 0; 255] 3 0 = [69; 0; 255] /\
  (XOR_KEY <> 0 -> forall (j : nat) x, Z.of_nat j < 3 -> [69; 0; 255] !! j = Some x ->
     exists y, xor_crypt [69; 0; 255] 3 XOR_KEY !! j = Some y /\ y <> x) /\
  XOR_KEY <> 0.
Proof.
  apply (xor_crypt_zero_key_only_fixes [69; 0; 255] 3 XOR_KEY).
  - byte_list.
  - apply XOR_KEY_byte.
Defined.

(** ** The length prefix *)

(** X4. The length prefix survives the wire for every 16-bit value: the
    two bytes that [htons(n)] leaves in [packet_len] are [n]'s high and low
    byte, both in byte range, and a receiver that reads them into its own
    [packet_len] and runs [ntohs] holds [n] again.  An [nread] of 65536 or
    more would be sent modulo 65536. *)
Theorem length_prefix_roundtrip (n : Z) (st : state) :
  0 <= n ->
  uint16_obj (htons (to_uint16 n)) = [(n mod 65536) / 256; n mod 256] /\
  bytes (uint16_obj (htons (to_uint16 n))) /\
  declared st (uint16_obj (htons (to_uint16 n))) = n mod 65536 /\
  (n < 65536 -> declared st (uint16_obj (htons (to_uint16 n))) = n).
Proof.
  intros Hn.
  assert (0 <= n mod 65536 < 65536) as Hm by (apply Z.mod_pos_bound; lia).
  assert (to_uint16 (n mod 65536) = to_uint16 n) as Hw
      by (unfold to_uint16; apply Z.mod_mod; lia).
  assert (uint16_obj (htons (to_uint16 n)) = frame_header (n mod 65536)) as Hobj
      by (rewrite <- Hw; apply htons_on_wire; exact Hm).
  assert (is_byte ((n mod 65536) / 256) /\ is_byte ((n mod 65536) mod 256)) as [Hh Hl]
      by (unfold is_byte; split; Z.div_mod_to_equations; lia).
  assert (declared st (uint16_obj (htons (to_uint16 n))) = n mod 65536) as Hd.
  { rewrite Hobj. unfold frame_header. rewrite declared_full by assumption.
    Z.div_mod_to_equations. lia. }
  split; [|split; [|split]].
  - rewrite Hobj. unfold frame_header. f_equal. f_equal.
    Z.div_mod_to_equations. lia.
  - rewrite Hobj. unfold frame_header. apply bytes_cons; [exact Hh|].
    apply bytes_cons; [exact Hl|apply bytes_nil].
  - exact Hd.
  - intros Hlt. rewrite Hd. apply Z.mod_small. lia.
Qed.

Lemma length_prefix_roundtrip_witness :
  uint16_obj (htons (to_uint16 65535)) = [(65535 mod 65536) / 256; 65535 mod 256] /\
  bytes (uint16_obj (htons (to_uint16 65535))) /\
  declared fresh (uint16_obj (htons (to_uint16 65535))) = 65535 mod 65536 /\
  (65535 < 65536 -> declared fresh (uint16_obj (htons (to_uint16 65535))) = 65535).
Proof. apply (length_prefix_roundtrip 65535 fresh). lia. Defined.

(** ** Streams of packets *)

Lemma from_tun_sends st p q :
  tun_in st = tun_packet p :: q -> conn_wr st = [] ->
  exists st',
    from_tun st =
      (value tt, st',
       [ev_read Tun BUFFER_SIZE (rd_bytes (clip p));
        ev_write Conn (frame_header (len (clip p))) true;
        ev_write Conn (map (xor_byte XOR_KEY) (clip p)) true]) /\
    tun_in st' = q /\ conn_wr st' = [] /\
    conn_in st' = conn_in st /\ tun_wr st' = tun_wr st.
Proof.
  intros Hq Hw. rewrite (from_tun_packet st p q Hq). fold (clip p).
  assert (0 <= len (clip p) < 65536) as Hn.
  { pose proof (len_nonneg (clip p)).
    pose proof (len_take BUFFER_SIZE p ltac:(unfold BUFFER_SIZE; lia)).
    unfold clip, BUFFER_SIZE in *. lia. }
  rewrite send_frame_run by exact Hn.
  cbn [conn_wr set_buffer set_tun_in buffer]. rewrite Hw.
  cbn [next_result]. rewrite crypt_read_bytes.
  eexists. split; [reflexivity|]. repeat split.
Qed.

Lemma sender_loop ps : forall st,
  tun_in st = map tun_packet ps -> conn_wr st = [] ->
  exists st',
    vpn_event_loop (repeat (sel_ready true false) (length ps)) st =
      (Blocked, st', flat_map pass_out ps) /\
    tun_in st' = [] /\ conn_wr st' = [].
Proof.
  induction ps as [|p ps IH]; intros st Hq Hw.
  - exists st. simpl in *. auto.
  - destruct (from_tun_sends st p (map tun_packet ps) Hq Hw)
      as (st1 & Hrun & Hq1 & Hw1 & _).
    destruct (IH st1 Hq1 Hw1) as (st' & Hloop & Hq' & Hw').
    exists st'. split; [|auto].
    cbn [length repeat vpn_event_loop]. unfold loop_body, mbind, io_bind.
    rewrite Hrun. cbn [mret io_ret]. rewrite Hloop. reflexivity.
Qed.

Lemma conn_sent_pass_out ps :
  conn_sent (flat_map pass_out ps) = flat_map (fun p => frame_of (clip p)) ps.
Proof.
  induction ps as [|p ps IH]; [reflexivity|].
  cbn [flat_map]. unfold conn_sent in *. rewrite flat_map_app, IH.
  unfold frame_of, pass_out. simpl. rewrite app_nil_r. reflexivity.
Qed.

(** X5. A relay whose TUN device holds the packets [ps], of any length,
    and whose peer accepts every [write], sends one frame for each packet,
    in order, over as many passes of the loop: the length of what [buffer]
    took of the packet (at most 2048 bytes), high byte first, then the
    cipher text of those bytes.  It has then read every packet and waits in
    [select]. *)
Theorem sender_frames_each_packet ps st :
  tun_in st = map tun_packet ps -> conn_wr st = [] ->
  let run := vpn_event_loop (repeat (sel_ready true false) (length ps)) st in
  fst (fst run) = Blocked /\
  snd run = flat_map pass_out ps /\
  conn_sent (snd run) = flat_map (fun p => frame_of (clip p)) ps /\
  tun_in (snd (fst run)) = [].
Proof.
  intros Hq Hw run.
  destruct (sender_loop ps st Hq Hw) as (st' & Hrun & Hq' & _).
  unfold run. rewrite Hrun. simpl.
  repeat split; [apply conn_sent_pass_out|exact Hq'].
Qed.

Lemma sender_frames_each_packet_witness :
  let st := set_tun_in (map tun_packet [[69; 0]; []; [1; 2; 3]]) fresh in
  let run := vpn_event_loop (repeat (sel_ready true false) 3) st in
  fst (fst run) = Blocked /\
  snd run = flat_map pass_out [[69; 0]; []; [1; 2; 3]] /\
  conn_sent (snd run) = flat_map (fun p => frame_of (clip p)) [[69; 0]; []; [1; 2; 3]] /\
  tun_in (snd (fst run)) = [].
Proof.
  intros st.
  apply (sender_frames_each_packet [[69; 0]; []; [1; 2; 3]] st); reflexivity.
Defined.

Lemma from_conn_packet_state st hdr s1 d s2 ok w :
  conn_read 2 (conn_in st) = Some (rd_bytes hdr, s1) -> 0 < len hdr ->
  conn_read (declared st hdr) s1 = Some (rd_bytes d, s2) -> 0 < len d <= BUFFER_SIZE ->
  next_result (tun_wr st) = (ok, w) ->
  exists st',
    from_conn st =
    (if ok then value tt else stopped (Break tun_write_failed), st',
     [ev_read Conn 2 (rd_bytes hdr); ev_read Conn (declared st hdr) (rd_bytes d);
      ev_write Tun (map (xor_byte XOR_KEY) d) ok]) /\
    conn_in st' = s2 /\ tun_wr st' = w /\
    tun_in st' = tun_in st /\ conn_wr st' = conn_wr st.
Proof.
  intros H Hh H2 [Hd1 Hd2] Hw. apply Z.leb_gt in Hh, Hd1. apply Z.ltb_ge in Hd2.
  run_conn. rewrite H, Hh. state_fields.
  fold (declared st hdr). rewrite H2, Hd2, Hd1. state_fields. rewrite Hw.
  rewrite crypt_read_bytes.
  destruct ok; [rewrite len_ltb_0|]; simpl; eexists; repeat split.
Qed.

Lemma relayable_header p :
  relayable p ->
  is_byte (len p / 256) /\ is_byte (len p mod 256) /\
  256 * (len p / 256) + len p mod 256 = len p.
Proof.
  intros [_ [Hlo Hhi]]. unfold is_byte. unfold BUFFER_SIZE in Hhi.
  Z.div_mod_to_equations. lia.
Qed.

Lemma relayable_clip p : relayable p -> clip p = p.
Proof. intros [_ [_ Hhi]]. apply take_all_len, Hhi. Qed.

(** One pass of the receiving block over a frame the stream hands whole. *)
Lemma from_conn_receives st p s1 s2 :
  relayable p ->
  conn_read 2 (conn_in st) = Some (rd_bytes (frame_header (len p)), s1) ->
  conn_read (len p) s1 = Some (rd_bytes (map (xor_byte XOR_KEY) p), s2) ->
  tun_wr st = [] ->
  exists st',
    from_conn st =
      (value tt, st',
       [ev_read Conn 2 (rd_bytes (frame_header (len p)));
        ev_read Conn (len p) (rd_bytes (map (xor_byte XOR_KEY) p));
        ev_write Tun p true]) /\
    conn_in st' = s2 /\ tun_wr st' = [].
Proof.
  intros Hp H1 H2 Hw.
  destruct (relayable_header p Hp) as (Hh & Hl & HL).
  destruct Hp as [Hb [Hlo Hhi]].
  unfold frame_header in *.
  pose proof (declared_full st _ _ Hh Hl) as Hdecl. rewrite HL in Hdecl.
  rewrite <- Hdecl in H2.
  assert (len (map (xor_byte XOR_KEY) p) = len p) as Hlen
      by (unfold len; rewrite length_map; reflexivity).
  destruct (from_conn_packet_state st _ _ _ _ true [] H1 (len_two _ _) H2
              ltac:(lia) ltac:(rewrite Hw; reflexivity))
    as (st' & Hrun & Hc & Hw' & _).
  exists st'. rewrite Hrun, Hdecl.
  rewrite (map_xor_involutive p XOR_KEY Hb XOR_KEY_byte). auto.
Qed.

Lemma receiver_loop s ps s' :
  carries s ps s' -> Forall relayable ps ->
  forall st, conn_in st = s -> tun_wr st = [] ->
  exists st',
    conn_in st' = s' /\ tun_wr st' = [] /\
    forall rest,
      vpn_event_loop (repeat (sel_ready false true) (length ps) ++ rest) st =
      match vpn_event_loop rest st' with
      | (r, st2, t) => (r, st2, flat_map pass_in ps ++ t)
      end.
Proof.
  induction 1 as [s|s s1 s2 s' p ps H1 H2 Hc IH]; intros Hps st Hs Hw.
  - exists st. repeat split; [exact Hs|exact Hw|].
    intros rest. simpl. destruct (vpn_event_loop rest st) as [[r st2] t]. reflexivity.
  - inversion Hps as [|? ? Hp Hps']; subst.
    destruct (from_conn_receives st p s1 s2 Hp H1 H2 Hw) as (st1 & Hrun & Hs1 & Hw1).
    destruct (IH Hps' st1 Hs1 Hw1) as (st' & Hs' & Hw' & Hloop).
    exists st'. repeat split; [exact Hs'|exact Hw'|].
    intros rest. cbn [length repeat app vpn_event_loop].
    unfold loop_body, mbind, io_bind. cbn [mret io_ret]. rewrite Hrun.
    rewrite Hloop. destruct (vpn_event_loop rest st') as [[r st2] t]. reflexivity.
Qed.

Lemma frame_of_cons p :
  frame_of p = len p / 256 :: len p mod 256 :: map (xor_byte XOR_KEY) p.
Proof. reflexivity. Qed.

Lemma carries_joined ps : forall s,
  Forall relayable ps ->
  carries (pending (flat_map frame_of ps) s) ps s.
Proof.
  induction ps as [|p ps IH]; intros s Hps; [constructor|].
  inversion Hps as [|? ? Hp Hps']; subst.
  cbn [flat_map]. rewrite frame_of_cons. cbn [app pending].
  set (body := map (xor_byte XOR_KEY) p).
  set (more := flat_map frame_of ps).
  destruct Hp as [_ [Hlo Hhi]].
  assert (len body = len p) as Hlen
      by (unfold body, len; rewrite length_map; reflexivity).
  assert (body ++ more <> []) as Hne.
  { destruct body; [unfold len in *; simpl in *; lia|discriminate]. }
  eapply carries_frame.
  - apply conn_read_frame, Hne.
  - rewrite conn_read_seg by (lia || exact Hne).
    rewrite <- Hlen. unfold len. rewrite Nat2Z.id.
    rewrite take_app_length, drop_app_length. reflexivity.
  - exact (IH s Hps').
Qed.

Lemma carries_per_write ps : forall s,
  Forall relayable ps ->
  carries (flat_map (fun p => [seg (frame_header (len p));
                               seg (map (xor_byte XOR_KEY) p)]) ps ++ s) ps s.
Proof.
  induction ps as [|p ps IH]; intros s Hps; [constructor|].
  inversion Hps as [|? ? Hp Hps']; subst.
  cbn [flat_map app].
  set (body := map (xor_byte XOR_KEY) p).
  destruct Hp as [_ [Hlo Hhi]].
  assert (len body = len p) as Hlen
      by (unfold body, len; rewrite length_map; reflexivity).
  assert (body <> []) as Hne.
  { destruct body; [unfold len in *; simpl in *; lia|discriminate]. }
  set (tl := flat_map (fun p => [seg (frame_header (len p));
                                 seg (map (xor_byte XOR_KEY) p)]) ps ++ s).
  apply carries_frame with (s1 := seg body :: tl) (s2 := tl).
  - reflexivity.
  - rewrite conn_read_seg by (lia || exact Hne).
    rewrite <- Hlen. unfold len. rewrite Nat2Z.id, firstn_all, drop_all. reflexivity.
  - exact (IH s Hps').
Qed.

Lemma flat_map_clip (f : list Z -> list Z) ps :
  Forall relayable ps -> flat_map (fun p => f (clip p)) ps = flat_map f ps.
Proof.
  induction 1 as [|p ps Hp _ IH]; [reflexivity|].
  cbn [flat_map]. rewrite IH, (relayable_clip p Hp). reflexivity.
Qed.

Lemma conn_writes_pass_out ps :
  Forall relayable ps ->
  map seg (conn_writes (flat_map pass_out ps)) =
  flat_map (fun p => [seg (frame_header (len p)); seg (map (xor_byte XOR_KEY) p)]) ps.
Proof.
  induction 1 as [|p ps Hp _ IH]; [reflexivity|].
  cbn [flat_map]. unfold conn_writes in *. rewrite flat_map_app, map_app, IH.
  unfold pass_out. rewrite (relayable_clip p Hp). reflexivity.
Qed.

Lemma tun_injected_pass_in ps : tun_injected (flat_map pass_in ps) = ps.
Proof.
  induction ps as [|p ps IH]; [reflexivity|].
  cbn [flat_map]. unfold tun_injected in *. rewrite flat_map_app, IH. reflexivity.
Qed.

(** X6. End to end, over a connection that takes every [write] of the
    sender and into a TUN device that takes every packet the receiver
    writes to it.  A sender whose TUN device holds the packets [ps], each
    of 1 to 2048 bytes, and a receiver on whose connection the bytes the
    sender wrote arrive -- all joined in one segment, or one segment for
    each [write] -- followed by the close: the receiver injects exactly the
    packets [ps] into its TUN device, byte for byte and in the order they
    were read, and then leaves the loop on the disconnect.  What [buffer]
    and [packet_len] held on either side does not matter. *)
Theorem end_to_end_relay (joined : bool) ps st st' :
  Forall relayable ps ->
  tun_in st = map tun_packet ps ->
  conn_wr st = [] ->
  tun_wr st' = [] ->
  let sent := vpn_event_loop (repeat (sel_ready true false) (length ps)) st in
  conn_in st' = arrives joined (snd sent) ++ [fin] ->
  let received :=
    vpn_event_loop (repeat (sel_ready false true) (length ps) ++ [sel_ready false true])
                   st' in
  fst (fst sent) = Blocked /\
  fst (fst received) = Break peer_disconnected /\
  tun_injected (snd received) = ps /\
  snd received = flat_map pass_in ps ++ [ev_select true; ev_read Conn 2 (rd_bytes [])].
Proof.
  intros Hps Hq Hcw Htw sent Harr received.
  destruct (sender_loop ps st Hq Hcw) as (st1 & Hsent & _).
  assert (exists s', carries (arrives joined (snd sent) ++ [fin]) ps s' /\
                     conn_read 2 s' = Some (rd_bytes [], [fin])) as (s' & Hc & Hfin).
  { unfold sent. rewrite Hsent. cbn [snd]. unfold arrives. destruct joined.
    - rewrite conn_sent_pass_out, (flat_map_clip frame_of ps Hps).
      destruct ps as [|p ps'].
      + exists [seg []; fin]. split; [constructor|reflexivity].
      + exists [fin]. split; [|reflexivity].
        pose proof (carries_joined (p :: ps') [fin] Hps) as H.
        cbn [flat_map] in *. rewrite frame_of_cons in *. exact H.
    - rewrite (conn_writes_pass_out ps Hps). exists [fin].
      split; [apply carries_per_write, Hps|reflexivity]. }
  destruct (receiver_loop _ ps s' Hc Hps st' Harr Htw) as (st2 & Hs2 & Hw2 & Hloop).
  split; [unfold sent; rewrite Hsent; reflexivity|].
  assert (vpn_event_loop [sel_ready false true] st2 =
          (Break peer_disconnected,
           snd (fst (vpn_event_loop [sel_ready false true] st2)),
           [ev_select true; ev_read Conn 2 (rd_bytes [])])) as Hlast.
  { rewrite <- Hs2 in Hfin.
    destruct (from_conn_no_length st2 _ _ Hfin ltac:(unfold rd_ret, len; simpl; lia))
      as [st3 Hrun].
    cbn [vpn_event_loop]. unfold loop_body, mbind, io_bind. cbn [mret io_ret].
    rewrite Hrun. reflexivity. }
  unfold received. rewrite Hloop, Hlast. cbn [fst snd].
  repeat split.
  unfold tun_injected. rewrite flat_map_app.
  fold (tun_injected (flat_map pass_in ps)). rewrite tun_injected_pass_in.
  simpl. apply app_nil_r.
Qed.

Lemma relayable_example (p : list Z) :
  bytes p -> 1 <= len p <= BUFFER_SIZE -> relayable p.
Proof. intros. split; assumption. Qed.

Lemma end_to_end_relay_witness :
  let ps := [ip_packet;
             [69; 0; 0; 20; 0; 0; 0; 0; 64; 1; 100; 212; 10; 8; 0; 2; 8; 8; 4; 4]] in
  let st := set_tun_in (map tun_packet ps) (idle zero_buffer [0; 0]) in
  let sent := vpn_event_loop (repeat (sel_ready true false) (length ps)) st in
  let st' := set_conn_in (arrives true (snd sent) ++ [fin]) (idle zero_buffer [0; 0]) in
  let received :=
    vpn_event_loop (repeat (sel_ready false true) (length ps) ++ [sel_ready false true])
                   st' in
  fst (fst sent) = Blocked /\
  fst (fst received) = Break peer_disconnected /\
  tun_injected (snd received) = ps /\
  snd received = flat_map pass_in ps ++ [ev_select true; ev_read Conn 2 (rd_bytes [])].
Proof.
  intros ps st sent st'.
  apply (end_to_end_relay true ps st st'); try reflexivity.
  constructor; [|constructor; [|constructor]];
    (apply relayable_example; [byte_list|unfold len, BUFFER_SIZE; simpl; lia]).
Defined.

(** ** A frame that arrives in two pieces *)

(** X7. A frame whose payload arrives in two pieces puts the receiver out
    of step with the stream.  With the prefix [h], [l] and the first piece
    [d1] of the payload arrived (fewer bytes than declared), and the second
    piece beginning with the bytes [x], [y] arrived after it: the first pass
    injects the plain text of [d1] as a packet, and the next pass takes [x],
    [y], which are payload, for a length prefix and asks [read] for
    [256 * x + y] bytes. *)
Theorem split_frame_desynchronises st h l d1 x y d2 rest :
  is_byte h -> is_byte l -> is_byte x -> is_byte y ->
  0 < len d1 < 256 * h + l -> len d1 <= BUFFER_SIZE -> d2 <> [] ->
  conn_in st = seg (h :: l :: d1) :: seg (x :: y :: d2) :: rest ->
  tun_wr st = [] ->
  exists t,
    snd (vpn_event_loop [sel_ready false true; sel_ready false true] st) =
    [ev_select true;
     ev_read Conn 2 (rd_bytes [h; l]);
     ev_read Conn (256 * h + l) (rd_bytes d1);
     ev_write Tun (map (xor_byte XOR_KEY) d1) true;
     ev_select true;
     ev_read Conn 2 (rd_bytes [x; y]);
     ev_read Conn (256 * x + y) (rd_bytes (take (Z.to_nat (256 * x + y)) d2))] ++ t.
Proof.
  intros Hh Hl Hx Hy [Hd1 HL] Hfit Hd2 Hin Hw.
  assert (d1 <> []) as Hne1 by (intros ->; unfold len in Hd1; simpl in Hd1; lia).
  (* first pass *)
  assert (conn_read 2 (conn_in st) =
          Some (rd_bytes [h; l], seg d1 :: seg (x :: y :: d2) :: rest)) as H1
      by (rewrite Hin; apply conn_read_frame, Hne1).
  pose proof (declared_full st h l Hh Hl) as Hdecl.
  assert (conn_read (declared st [h; l]) (seg d1 :: seg (x :: y :: d2) :: rest) =
          Some (rd_bytes d1, seg (x :: y :: d2) :: rest)) as H2.
  { rewrite Hdecl, conn_read_seg by (lia || exact Hne1).
    rewrite take_ge, drop_ge by (unfold len in *; lia). reflexivity. }
  destruct (from_conn_packet_state st _ _ _ _ true [] H1 (len_two h l) H2
              ltac:(lia) ltac:(rewrite Hw; reflexivity))
    as (st1 & Hrun1 & Hin1 & Hw1 & _).
  rewrite Hdecl in Hrun1.
  (* second pass *)
  assert (conn_read 2 (conn_in st1) = Some (rd_bytes [x; y], seg d2 :: rest)) as H3
      by (rewrite Hin1; apply conn_read_frame, Hd2).
  pose proof (declared_full st1 x y Hx Hy) as Hdecl1.
  set (L2 := 256 * x + y) in *.
  assert (0 <= L2) as HL2 by (unfold L2, is_byte in *; lia).
  assert (exists s4, conn_read (declared st1 [x; y]) (seg d2 :: rest) =
                     Some (rd_bytes (take (Z.to_nat L2) d2), s4)) as [s4 H4].
  { rewrite Hdecl1. destruct (Z.eq_dec L2 0) as [E|E].
    - rewrite E. eexists. apply conn_read_none_count. lia.
    - eexists. apply conn_read_seg; [lia|exact Hd2]. }
  assert (exists r2 st2 t2,
            from_conn st1 =
            (r2, st2,
             [ev_read Conn 2 (rd_bytes [x; y]);
              ev_read Conn L2 (rd_bytes (take (Z.to_nat L2) d2))] ++ t2))
    as (r2 & st2 & t2 & Hrun2).
  { set (got := take (Z.to_nat L2) d2) in *.
    destruct (Z_le_gt_dec (len got) 0) as [Hz|Hpos].
    - destruct (from_conn_no_payload st1 _ _ _ _ H3 (len_two x y) H4 Hz) as [st2 Hr].
      rewrite Hdecl1 in Hr. eexists _, st2, []. exact Hr.
    - destruct (Z_lt_le_dec BUFFER_SIZE (len got)) as [Hbig|Hsmall].
      + destruct (from_conn_overrun st1 _ _ _ _ H3 (len_two x y) H4 Hbig) as [st2 Hr].
        rewrite Hdecl1 in Hr. eexists _, st2, []. exact Hr.
      + destruct (next_result (tun_wr st1)) as [ok w] eqn:Hn.
        destruct (from_conn_packet st1 _ _ _ _ ok w H3 (len_two x y) H4 ltac:(lia) Hn)
          as (st2 & Hr & _).
        rewrite Hdecl1 in Hr. eexists _, st2, [_]. exact Hr. }
  cbn [vpn_event_loop]. unfold loop_body, mbind, io_bind. cbn [mret io_ret].
  rewrite Hrun1, Hrun2.
  destruct r2 as [[]|s2]; cbn [snd app]; eexists; reflexivity.
Qed.

Lemma split_frame_desynchronises_witness :
  let st := set_conn_in [seg [0; 4; 1; 2]; seg [3; 4; 9]; fin] fresh in
  exists t,
    snd (vpn_event_loop [sel_ready false true; sel_ready false true] st) =
    [ev_select true;
     ev_read Conn 2 (rd_bytes [0; 4]);
     ev_read Conn (256 * 0 + 4) (rd_bytes [1; 2]);
     ev_write Tun (map (xor_byte XOR_KEY) [1; 2]) true;
     ev_select true;
     ev_read Conn 2 (rd_bytes [3; 4]);
     ev_read Conn (256 * 3 + 4) (rd_bytes (take (Z.to_nat (256 * 3 + 4)) [9]))] ++ t.
Proof.
  intros st.
  apply (split_frame_desynchronises st 0 4 [1; 2] 3 4 [9] [fin]);
    first [ unfold is_byte; lia
          | discriminate
          | reflexivity
          | unfold len, BUFFER_SIZE; simpl; lia ].
Defined.

(** ** Descriptors *)

Lemma follows_app k t1 t2 :
  follows k (t1 ++ t2) =
  match follows k t1 with
  | Some k' => follows k' t2
  | None => None
  end.
Proof.
  revert k. induction t1 as [|e t1 IH]; intros k; [reflexivity|].
  destruct e; simpl;
    repeat match goal with |- context [if ?b then _ else _] => destruct b end;
    auto.
Qed.

Lemma follows_session k t :
  holds k Tun = true -> holds k Conn = true ->
  Forall (fun e => on_session e = true) t -> follows k t = Some k.
Proof.
  intros Ht Hc H. induction H as [|e t He _ IH]; [reflexivity|].
  destruct e as [h|ok|h count r|h d ok|h d|h]; simpl in He; try discriminate;
    cbn [follows].
  - rewrite Ht, Hc. exact IH.
  - destruct h; try discriminate; rewrite ?Ht, ?Hc; exact IH.
  - destruct h; try discriminate; rewrite ?Ht, ?Hc; exact IH.
  - destruct h; try discriminate; rewrite ?Ht, ?Hc; exact IH.
Qed.

Lemma tun_block_session r t : tun_block r t -> Forall (fun e => on_session e = true) t.
Proof. intros H. destruct H; repeat constructor. Qed.

Lemma conn_block_session r t : conn_block r t -> Forall (fun e => on_session e = true) t.
Proof. intros H. destruct H; repeat constructor. Qed.

Lemma loop_body_session tun conn st r st' t :
  loop_body tun conn st = (r, st', t) -> Forall (fun e => on_session e = true) t.
Proof.
  intros H. apply loop_body_parts in H.
  destruct H as [(s & -> & _ & Hb)|(t1 & t2 & -> & H1 & H2)].
  - eapply tun_block_session, Hb.
  - apply Forall_app. split.
    + destruct tun; [eapply tun_block_session, H1|subst; constructor].
    + destruct conn; [eapply conn_block_session, H2|destruct H2 as [_ ->]; constructor].
Qed.

Lemma vpn_event_loop_session sched : forall st,
  Forall (fun e => on_session e = true) (snd (vpn_event_loop sched st)).
Proof.
  induction sched as [|[|tun conn] sched IH]; intros st; simpl.
  - constructor.
  - repeat constructor.
  - destruct (loop_body tun conn st) as [[r st1] t1] eqn:Hb.
    apply loop_body_session in Hb.
    destruct r as [[]|s].
    + specialize (IH st1). destruct (vpn_event_loop sched st1) as [[s2 st2] t2].
      simpl in *. constructor; [reflexivity|]. apply Forall_app. auto.
    + simpl. constructor; [reflexivity|exact Hb].
Qed.

(** What is held once the setup has succeeded. *)
Lemma follows_opens p :
  exists k, follows nothing_held (opens_of p) = Some k /\
            holds k Tun = true /\ holds k Conn = true /\
            follows k (closes_of p) = Some nothing_held.
Proof. destruct p; eexists; simpl; repeat split. Qed.

(** X10. Both programs keep to the discipline of their descriptors in
    every run, whatever fails: a descriptor is opened only when not held;
    [select], [read] and [write] touch only descriptors that are held at
    that moment; a descriptor is closed only when held, so never twice.  A
    process that exits, with status 0 or 1, holds nothing at that point:
    every descriptor it opened has been closed.  A process that does not
    return, or that SIGPIPE ends, still holds the TUN device and the
    connection at that point. *)
Theorem descriptors_in_order p e sched st o t :
  main_of p e sched st = (o, t) ->
  exists k,
    follows nothing_held t = Some k /\
    (forall c, o = exits c -> k = nothing_held) /\
    (o = never_returns \/ o = undefined \/ o = killed_by_sigpipe ->
     holds k Tun = true /\ holds k Conn = true).
Proof.
  intros Hm. destruct (setup_ok_of p e) eqn:Hs.
  - rewrite (main_setup_ok p e sched st Hs) in Hm.
    destruct (follows_opens p) as (k0 & Hopen & Ht & Hc & Hclose).
    pose proof (vpn_event_loop_session sched st) as Hloop.
    destruct (vpn_event_loop sched st) as [[s st'] tl]. simpl in Hloop.
    pose proof (follows_session k0 tl Ht Hc Hloop) as Hrun.
    unfold prepend, cleanup in Hm.
    destruct s; simpl in Hm; injection Hm as <- <-.
    + exists nothing_held. rewrite follows_app, Hopen, follows_app, Hrun, Hclose.
      split; [reflexivity|]. split; [reflexivity|].
      intros [E|[E|E]]; discriminate.
    + exists k0. rewrite follows_app, Hopen, Hrun.
      split; [reflexivity|]. split; [intros c E; discriminate|auto].
    + exists k0. rewrite follows_app, Hopen, Hrun.
      split; [reflexivity|]. split; [intros c E; discriminate|auto].
    + exists k0. rewrite follows_app, Hopen, Hrun.
      split; [reflexivity|]. split; [intros c E; discriminate|auto].
  - exists nothing_held.
    assert (o = exits 1 /\ follows nothing_held t = Some nothing_held) as [-> Hf].
    { revert Hs Hm. destruct p; simpl;
        unfold Server.setup_ok, Client.setup_ok, Server.main, Client.main,
          create_tun_device, Server.create_server_socket, Client.connect_to_server.
      - destruct (open_ok e), (tunsetiff_ok e), (socket_ok e), (bind_ok e),
          (listen_ok e), (accept_ok e); simpl; try discriminate;
          intros _ [= <- <-]; split; reflexivity.
      - destruct (argc e =? 2), (open_ok e), (tunsetiff_ok e), (socket_ok e),
          (inet_pton_ok e), (connect_ok e); simpl; try discriminate;
          intros _ [= <- <-]; split; reflexivity. }
    split; [exact Hf|]. split; [reflexivity|]. intros [H|[H|H]]; discriminate.
Qed.

Lemma descriptors_in_order_witness :
  exists k,
    follows nothing_held
      [ev_open Tun; ev_open Listener; ev_open Conn; ev_select true;
       ev_read Conn 2 (rd_bytes []); ev_close Conn; ev_close Listener; ev_close Tun]
      = Some k /\
    (forall c, exits 0 = exits c -> k = nothing_held) /\
    (exits 0 = never_returns \/ exits 0 = undefined \/ exits 0 = killed_by_sigpipe ->
     holds k Tun = true /\ holds k Conn = true).
Proof.
  apply (descriptors_in_order server all_ok [sel_ready false true]
           (set_conn_in [fin] fresh)).
  reflexivity.
Defined.

(** * The rasteriser *)

Lemma wrap_int_small z : - 2147483648 <= z < 2147483648 -> wrap_int z = z.
Proof. intros H. unfold wrap_int. rewrite Z.mod_small by lia. lia. Qed.

(** ** [put_pixel] *)

Lemma pixel_index_range s x y :
  screen_ok s -> on_screen s x y ->
  0 <= y * screen_width s < 2147483648 /\
  0 <= pixel_index s x y < screen_width s * screen_height s.
Proof.
  unfold screen_ok, on_screen, pixel_index. intros (Hw & Hh & Hfit & _) [Hx Hy].
  assert (y * screen_width s <= (screen_height s - 1) * screen_width s)
    by (apply Z.mul_le_mono_nonneg_r; lia).
  assert (0 <= y * screen_width s) by (apply Z.mul_nonneg_nonneg; lia).
  lia.
Qed.

Lemma pixel_index_inj s x y x' y' :
  on_screen s x y -> on_screen s x' y' ->
  pixel_index s x y = pixel_index s x' y' -> x = x' /\ y = y'.
Proof.
  unfold on_screen, pixel_index. intros [Hx Hy] [Hx' Hy'] E.
  assert (y = y') as ->.
  { assert (y = (y * screen_width s + x) / screen_width s) as Ey
        by (apply Z.div_unique with x; lia).
    assert (y' = (y' * screen_width s + x') / screen_width s) as Ey'
        by (apply Z.div_unique with x'; lia).
    rewrite Ey, Ey', E. reflexivity. }
  split; [lia|reflexivity].
Qed.

Lemma on_screen_dec s x y :
  ((x >=? 0) && (x <? screen_width s) && (y >=? 0) && (y <? screen_height s)) = true
  <-> on_screen s x y.
Proof.
  unfold on_screen. rewrite !andb_true_iff, !Z.geb_le, !Z.ltb_lt. tauto.
Qed.

Lemma put_pixel_on s x y color :
  screen_ok s -> on_screen s x y ->
  put_pixel x y color s =
  set_framebuffer (<[Z.to_nat (pixel_index s x y) := color]> (framebuffer s)) s.
Proof.
  intros Hs Hon. unfold put_pixel.
  destruct (on_screen_dec s x y) as [_ ->]; [|exact Hon].
  destruct (pixel_index_range s x y Hs Hon) as [Hrow Hidx].
  destruct Hs as (_ & _ & Hfit & _). unfold pixel_index in *.
  rewrite (wrap_int_small (y * screen_width s)) by lia.
  rewrite wrap_int_small by lia.
  unfold store_pixel.
  destruct (y * screen_width s + x <? 0) eqn:E; [apply Z.ltb_lt in E; lia|reflexivity].
Qed.

Lemma put_pixel_off s x y color :
  ~ on_screen s x y -> put_pixel x y color s = s.
Proof.
  intros Hoff. unfold put_pixel.
  destruct ((x >=? 0) && (x <? screen_width s) && (y >=? 0) && (y <? screen_height s))
    eqn:E; [|reflexivity].
  exfalso. apply Hoff, on_screen_dec, E.
Qed.

Lemma on_screen_or_not s x y : on_screen s x y \/ ~ on_screen s x y.
Proof. unfold on_screen. lia. Qed.

Lemma put_pixel_dims s x y color :
  screen_width (put_pixel x y color s) = screen_width s /\
  screen_height (put_pixel x y color s) = screen_height s /\
  length (framebuffer (put_pixel x y color s)) = length (framebuffer s).
Proof.
  unfold put_pixel.
  destruct ((x >=? 0) && (x <? screen_width s) && (y >=? 0) && (y <? screen_height s));
    [|auto].
  simpl. repeat split. unfold store_pixel.
  destruct (_ <? 0); [reflexivity|apply length_insert].
Qed.

Lemma put_pixel_ok s x y color : screen_ok s -> screen_ok (put_pixel x y color s).
Proof.
  unfold screen_ok. destruct (put_pixel_dims s x y color) as (-> & -> & ->). auto.
Qed.

Lemma put_pixel_on_screen s x y color x' y' :
  on_screen (put_pixel x y color s) x' y' <-> on_screen s x' y'.
Proof.
  unfold on_screen. destruct (put_pixel_dims s x y color) as (-> & -> & _). tauto.
Qed.

Lemma put_pixel_sets_cell s x y color :
  screen_ok s -> on_screen s x y ->
  0 <= pixel_index s x y < screen_width s * screen_height s /\
  framebuffer (put_pixel x y color s) !! Z.to_nat (pixel_index s x y) = Some color.
Proof.
  intros Hs Hon. destruct (pixel_index_range s x y Hs Hon) as [_ Hidx].
  rewrite (put_pixel_on s x y color Hs Hon). simpl. split; [exact Hidx|].
  apply list_lookup_insert_eq. destruct Hs as (_ & _ & _ & Hlen). lia.
Qed.

(** X11. [put_pixel] never writes outside the screen.  For a point on the
    screen it stores the colour in the cell [y * screen_width + x], which
    lies within the first [screen_width * screen_height] cells, and changes
    no other cell, so no other pixel; for a point off the screen, on any
    side, it changes nothing.  The dimensions and the length of the
    framebuffer stay. *)
Theorem put_pixel_stays_on_screen s x y color :
  screen_ok s ->
  (on_screen s x y ->
     0 <= pixel_index s x y < screen_width s * screen_height s /\
     framebuffer (put_pixel x y color s) !! Z.to_nat (pixel_index s x y) = Some color /\
     (forall i : nat, i <> Z.to_nat (pixel_index s x y) ->
        framebuffer (put_pixel x y color s) !! i = framebuffer s !! i) /\
     (forall x' y', on_screen s x' y' -> (x', y') <> (x, y) ->
        framebuffer (put_pixel x y color s) !! Z.to_nat (pixel_index s x' y') =
        framebuffer s !! Z.to_nat (pixel_index s x' y'))) /\
  (~ on_screen s x y -> put_pixel x y color s = s) /\
  length (framebuffer (put_pixel x y color s)) = length (framebuffer s) /\
  screen_width (put_pixel x y color s) = screen_width s /\
  screen_height (put_pixel x y color s) = screen_height s.
Proof.
  intros Hs. destruct (put_pixel_dims s x y color) as (Hw & Hh & Hl).
  split; [|split; [apply put_pixel_off|auto]].
  intros Hon. destruct (pixel_index_range s x y Hs Hon) as [_ Hidx].
  rewrite (put_pixel_on s x y color Hs Hon). simpl.
  split; [exact Hidx|]. split; [|split].
  - apply list_lookup_insert_eq.
    destruct Hs as (_ & _ & _ & Hlen). lia.
  - intros i Hi. apply list_lookup_insert_ne. auto.
  - intros x' y' Hon' Hne. apply list_lookup_insert_ne.
    destruct (pixel_index_range s x' y' Hs Hon') as [_ Hidx'].
    intros E. apply Hne.
    assert (pixel_index s x' y' = pixel_index s x y) as E' by lia.
    destruct (pixel_index_inj s x' y' x y Hon' Hon E') as [-> ->]. reflexivity.
Qed.

Lemma put_pixel_stays_on_screen_witness :
  let s := {| screen_width := 4; screen_height := 3; framebuffer := repeat 0 12 |} in
  (on_screen s 1 2 ->
     0 <= pixel_index s 1 2 < screen_width s * screen_height s /\
     framebuffer (put_pixel 1 2 255 s) !! Z.to_nat (pixel_index s 1 2) = Some 255 /\
     (forall i : nat, i <> Z.to_nat (pixel_index s 1 2) ->
        framebuffer (put_pixel 1 2 255 s) !! i = framebuffer s !! i) /\
     (forall x' y', on_screen s x' y' -> (x', y') <> (1, 2) ->
        framebuffer (put_pixel 1 2 255 s) !! Z.to_nat (pixel_index s x' y') =
        framebuffer s !! Z.to_nat (pixel_index s x' y'))) /\
  (~ on_screen s 1 2 -> put_pixel 1 2 255 s = s) /\
  length (framebuffer (put_pixel 1 2 255 s)) = length (framebuffer s) /\
  screen_width (put_pixel 1 2 255 s) = screen_width s /\
  screen_height (put_pixel 1 2 255 s) = screen_height s.
Proof.
  intros s. apply (put_pixel_stays_on_screen s 1 2 255).
  unfold screen_ok. simpl. lia.
Defined.

(** ** [clear_screen] *)

Lemma clear_from_lookup n color : forall i (fb : list Z) (j : nat),
  0 <= i -> i + Z.of_nat n < 2147483648 ->
  clear_from n i color fb !! j =
  if decide (i <= Z.of_nat j < i + Z.of_nat n /\ (j < length fb)%nat)
  then Some color else fb !! j.
Proof.
  induction n as [|n IH]; intros i fb j Hi Hn; simpl clear_from.
  - case_decide; [lia|reflexivity].
  - rewrite wrap_int_small by lia. rewrite IH by lia.
    unfold store_pixel.
    destruct (i <? 0) eqn:E; [apply Z.ltb_lt in E; lia|].
    rewrite length_insert, list_lookup_insert.
    repeat case_decide; try reflexivity; try lia.
Qed.

Lemma clear_from_length n color : forall i (fb : list Z),
  length (clear_from n i color fb) = length fb.
Proof.
  induction n as [|n IH]; intros i fb; simpl; [reflexivity|].
  rewrite IH. unfold store_pixel. destruct (i <? 0); [reflexivity|apply length_insert].
Qed.

(** X12. [clear_screen] gives every pixel of the screen the colour: the
    first [screen_width * screen_height] cells of the framebuffer hold it
    afterwards, the cells after them are untouched, and the length of the
    framebuffer stays. *)
Theorem clear_screen_fills s color :
  screen_ok s ->
  let n := Z.to_nat (screen_width s * screen_height s) in
  framebuffer (clear_screen color s) = replicate n color ++ drop n (framebuffer s) /\
  (forall x y, on_screen s x y ->
     framebuffer (clear_screen color s) !! Z.to_nat (pixel_index s x y) = Some color) /\
  length (framebuffer (clear_screen color s)) = length (framebuffer s) /\
  screen_width (clear_screen color s) = screen_width s /\
  screen_height (clear_screen color s) = screen_height s.
Proof.
  intros Hs n. pose proof Hs as (Hw & Hh & Hfit & Hlen).
  assert (0 <= screen_width s * screen_height s) as Hnn
      by (apply Z.mul_nonneg_nonneg; assumption).
  assert (forall j : nat,
            framebuffer (clear_screen color s) !! j =
            if decide (j < n)%nat then Some color else framebuffer s !! j) as Hlook.
  { intros j. unfold clear_screen. simpl.
    rewrite wrap_int_small by lia. fold n.
    rewrite clear_from_lookup by lia.
    repeat case_decide; try reflexivity; lia. }
  split; [|split; [|split; [apply clear_from_length|split; reflexivity]]].
  - apply list_eq. intros j. rewrite Hlook.
    destruct (decide (j < n)%nat) as [Hj|Hj].
    + rewrite lookup_app_l by (rewrite length_replicate; exact Hj).
      symmetry. apply lookup_replicate_2, Hj.
    + rewrite lookup_app_r by (rewrite length_replicate; lia).
      rewrite length_replicate, lookup_drop. f_equal. lia.
  - intros x y Hon. rewrite Hlook.
    destruct (pixel_index_range s x y Hs Hon) as [_ Hidx].
    case_decide; [reflexivity|lia].
Qed.

Lemma clear_screen_fills_witness :
  let s := {| screen_width := 4; screen_height := 3;
              framebuffer := [1; 2; 3; 4; 5; 6; 7; 8; 9; 10; 11; 12; 13] |} in
  let n := Z.to_nat (screen_width s * screen_height s) in
  framebuffer (clear_screen 0 s) = replicate n 0 ++ drop n (framebuffer s) /\
  (forall x y, on_screen s x y ->
     framebuffer (clear_screen 0 s) !! Z.to_nat (pixel_index s x y) = Some 0) /\
  length (framebuffer (clear_screen 0 s)) = length (framebuffer s) /\
  screen_width (clear_screen 0 s) = screen_width s /\
  screen_height (clear_screen 0 s) = screen_height s.
Proof.
  intros s. apply (clear_screen_fills s 0).
  unfold screen_ok. simpl. lia.
Defined.

(** ** [draw_line] *)

Lemma line_not_past_x dx dy a b err :
  0 <= dx -> 0 <= dy -> 0 <= a <= dx -> 0 <= b <= dy ->
  err = dx - dy - a * dy + b * dx ->
  (a <> dx \/ b <> dy) -> 2 * err > - dy -> a < dx.
Proof.
  intros Hdx Hdy Ha Hb He Hne Hstep.
  destruct (Z_lt_le_dec a dx) as [|Hge]; [assumption|exfalso].
  assert (a = dx) as -> by lia. assert (b < dy) as Hlt by lia.
  assert (dx * (1 + b - dy) <= 0) as Hp by (apply Z.mul_nonneg_nonpos; lia).
  lia.
Qed.

Lemma line_not_past_y dx dy a b err :
  0 <= dx -> 0 <= dy -> 0 <= a <= dx -> 0 <= b <= dy ->
  err = dx - dy - a * dy + b * dx ->
  (a <> dx \/ b <> dy) -> 2 * err < dx -> b < dy.
Proof.
  intros Hdx Hdy Ha Hb He Hne Hstep.
  destruct (Z_lt_le_dec b dy) as [|Hge]; [assumption|exfalso].
  assert (b = dy) as -> by lia. assert (a < dx) as Hlt by lia.
  assert (0 <= dy * (dx - a - 1)) as Hp by (apply Z.mul_nonneg_nonneg; lia).
  lia.
Qed.

Lemma line_loop_more_fuel f : forall f' x0 y0 x1 y1 dx dy sx sy err color s r,
  line_loop f x0 y0 x1 y1 dx dy sx sy err color s = Some r ->
  (f <= f')%nat ->
  line_loop f' x0 y0 x1 y1 dx dy sx sy err color s = Some r.
Proof.
  induction f as [|f IH]; intros f' x0 y0 x1 y1 dx dy sx sy err color s r H Hle;
    [discriminate|].
  destruct f' as [|f']; [lia|]. simpl in *.
  destruct ((x0 =? x1) && (y0 =? y1)); [exact H|].
  match goal with
  | H : match line_loop f ?a ?b ?c ?d ?e ?g ?h ?i ?j ?k ?l with _ => _ end = _ |- _ =>
      destruct (line_loop f a b c d e g h i j k l) as [[s2 pts]|] eqn:E; [|discriminate];
      rewrite (IH f' _ _ _ _ _ _ _ _ _ _ _ _ E ltac:(lia)); exact H
  end.
Qed.

Lemma line_loop_plots f : forall x0 y0 x1 y1 dx dy sx sy err color s s' pts,
  line_loop f x0 y0 x1 y1 dx dy sx sy err color s = Some (s', pts) ->
  s' = plot_all color pts s.
Proof.
  induction f as [|f IH]; intros x0 y0 x1 y1 dx dy sx sy err color s s' pts H;
    [discriminate|].
  simpl in H. destruct ((x0 =? x1) && (y0 =? y1)).
  - injection H as <- <-. reflexivity.
  - match goal with
    | H : match line_loop f ?a ?b ?c ?d ?e ?g ?h ?i ?j ?k ?l with _ => _ end = _ |- _ =>
        destruct (line_loop f a b c d e g h i j k l) as [[s2 pts2]|] eqn:E;
          [|discriminate]
    end.
    injection H as <- <-. apply IH in E. rewrite E. reflexivity.
Qed.

(** The loop started anywhere on its way: it ends, within as many
    iterations as there are steps left plus one, and its points go from the
    current one to the end point, each next to the one before. *)
Ltac signs :=
  first [ lia
        | match goal with
          | H : ?v = 1 \/ ?v = -1 |- _ => destruct H as [-> | ->]; signs
          end ].

Lemma line_loop_runs x1 y1 dx dy sx sy color :
  line_params x1 y1 dx dy sx sy ->
  forall fuel x y err a b s,
    line_inv x1 y1 dx dy sx sy x y err a b ->
    (Z.to_nat ((dx - a) + (dy - b)) < fuel)%nat ->
    exists s' pts,
      line_loop fuel x y x1 y1 dx dy sx sy err color s = Some (s', pts) /\
      hd_error pts = Some (x, y) /\
      last pts = Some (x1, y1) /\
      Forall (on_path x1 y1 dx dy sx sy) pts /\
      chained pts /\
      (length pts <= Z.to_nat ((dx - a) + (dy - b)) + 1)%nat.
Proof.
  intros (Hdx & Hdy & Hsx & Hsy & Hx1 & Hy1). unfold coord in Hx1, Hy1.
  induction fuel as [|fuel IH]; intros x y err a b s Hinv Hfuel; [lia|].
  destruct Hinv as (Ha & Hb & Hx & Hy & Herr & Hrange).
  assert (on_path x1 y1 dx dy sx sy (x, y)) as Hhere by (exists a, b; auto).
  cbn [line_loop].
  destruct (Z.eq_dec a dx) as [Ea|Ea]; [destruct (Z.eq_dec b dy) as [Eb|Eb]|].
  - (* the end point *)
    subst a b. replace x with x1 by lia. replace y with y1 by lia.
    rewrite !Z.eqb_refl. simpl.
    eexists _, _. split; [reflexivity|].
    replace x with x1 in Hhere by lia. replace y with y1 in Hhere by lia.
    repeat split; simpl; auto. lia.
  - assert ((x =? x1) && (y =? y1) = false) as ->.
    { apply andb_false_iff. right. apply Z.eqb_neq. signs. }
    assert (a <> dx \/ b <> dy) as Hne by auto.
    rewrite (wrap_int_small (2 * err)) by lia.
    rewrite (wrap_int_small (- dy)) by lia.
    destruct (Z.gtb_spec (2 * err) (- dy)) as [Hgx|Hgx];
      destruct (Z.ltb_spec (2 * err) dx) as [Hgy|Hgy].
    + pose proof (line_not_past_x dx dy a b err ltac:(lia) ltac:(lia) Ha Hb Herr Hne
                    ltac:(lia)). lia.
    + pose proof (line_not_past_x dx dy a b err ltac:(lia) ltac:(lia) Ha Hb Herr Hne
                    ltac:(lia)). lia.
    + rewrite (wrap_int_small (err + dx)) by lia.
      rewrite (wrap_int_small (y + sy)) by (signs).
      destruct (IH x (y + sy) (err + dx) a (b + 1) (put_pixel x y color s))
        as (s' & pts & Hrun & Hhd & Hlast & Hpath & Hch & Hlen).
      { unfold line_inv. repeat split; signs. }
      { lia. }
      rewrite Hrun. eexists _, _. split; [reflexivity|].
      destruct pts as [|q pts]; [discriminate|]. injection Hhd as ->.
      repeat split; auto.
      * simpl. signs.
      * simpl. signs.
      * intros E. inversion E. signs.
      * simpl in *. lia.
    + lia.
  - assert ((x =? x1) && (y =? y1) = false) as ->.
    { apply andb_false_iff. left. apply Z.eqb_neq. signs. }
    assert (a <> dx \/ b <> dy) as Hne by auto.
    rewrite (wrap_int_small (2 * err)) by lia.
    rewrite (wrap_int_small (- dy)) by lia.
    destruct (Z.gtb_spec (2 * err) (- dy)) as [Hgx|Hgx];
      destruct (Z.ltb_spec (2 * err) dx) as [Hgy|Hgy].
    + (* a step along x and a step along y *)
      pose proof (line_not_past_y dx dy a b err ltac:(lia) ltac:(lia) Ha Hb Herr Hne Hgy).
      rewrite (wrap_int_small (err - dy)) by lia.
      rewrite (wrap_int_small (err - dy + dx)) by lia.
      rewrite (wrap_int_small (x + sx)) by (signs).
      rewrite (wrap_int_small (y + sy)) by (signs).
      destruct (IH (x + sx) (y + sy) (err - dy + dx) (a + 1) (b + 1)
                   (put_pixel x y color s))
        as (s' & pts & Hrun & Hhd & Hlast & Hpath & Hch & Hlen).
      { unfold line_inv. repeat split; signs. }
      { lia. }
      rewrite Hrun. eexists _, _. split; [reflexivity|].
      destruct pts as [|q pts]; [discriminate|]. injection Hhd as ->.
      repeat split; auto.
      * simpl. signs.
      * simpl. signs.
      * intros E. inversion E. signs.
      * simpl in *. lia.
    + (* a step along x *)
      rewrite (wrap_int_small (err - dy)) by lia.
      rewrite (wrap_int_small (x + sx)) by (signs).
      destruct (IH (x + sx) y (err - dy) (a + 1) b (put_pixel x y color s))
        as (s' & pts & Hrun & Hhd & Hlast & Hpath & Hch & Hlen).
      { unfold line_inv. repeat split; signs. }
      { lia. }
      rewrite Hrun. eexists _, _. split; [reflexivity|].
      destruct pts as [|q pts]; [discriminate|]. injection Hhd as ->.
      repeat split; auto.
      * simpl. signs.
      * simpl. signs.
      * intros E. inversion E. signs.
      * simpl in *. lia.
    + (* a step along y *)
      pose proof (line_not_past_y dx dy a b err ltac:(lia) ltac:(lia) Ha Hb Herr Hne Hgy).
      rewrite (wrap_int_small (err + dx)) by lia.
      rewrite (wrap_int_small (y + sy)) by (signs).
      destruct (IH x (y + sy) (err + dx) a (b + 1) (put_pixel x y color s))
        as (s' & pts & Hrun & Hhd & Hlast & Hpath & Hch & Hlen).
      { unfold line_inv. repeat split; signs. }
      { lia. }
      rewrite Hrun. eexists _, _. split; [reflexivity|].
      destruct pts as [|q pts]; [discriminate|]. injection Hhd as ->.
      repeat split; auto.
      * simpl. signs.
      * simpl. signs.
      * intros E. inversion E. signs.
      * simpl in *. lia.
    + (* no step: only at the end point *)
      lia.
Qed.

Lemma on_path_in_box x0 y0 x1 y1 p :
  on_path x1 y1 (Z.abs (x1 - x0)) (Z.abs (y1 - y0))
          (if x0 <? x1 then 1 else -1) (if y0 <? y1 then 1 else -1) p ->
  in_box x0 y0 x1 y1 p.
Proof.
  intros (a & b & Ha & Hb & Hx & Hy). unfold in_box. rewrite Hx, Hy.
  destruct (Z.ltb_spec x0 x1), (Z.ltb_spec y0 y1); lia.
Qed.

(** [draw_line] with fuel for every step along x and along y and one
    more. *)
Lemma draw_line_runs x0 y0 x1 y1 color s fuel :
  coord x0 -> coord y0 -> coord x1 -> coord y1 ->
  (Z.to_nat (Z.abs (x1 - x0) + Z.abs (y1 - y0)) < fuel)%nat ->
  exists s' pts,
    draw_line fuel x0 y0 x1 y1 color s = Some (s', pts) /\
    s' = plot_all color pts s /\
    hd_error pts = Some (x0, y0) /\
    last pts = Some (x1, y1) /\
    Forall (in_box x0 y0 x1 y1) pts /\
    chained pts /\
    (length pts <= Z.to_nat (Z.abs (x1 - x0) + Z.abs (y1 - y0)) + 1)%nat.
Proof.
  unfold coord. intros Hx0 Hy0 Hx1 Hy1 Hfuel. unfold draw_line.
  rewrite (wrap_int_small (x1 - x0)), (wrap_int_small (y1 - y0)) by lia.
  rewrite (wrap_int_small (Z.abs (x1 - x0))), (wrap_int_small (Z.abs (y1 - y0))) by lia.
  rewrite wrap_int_small by lia.
  set (dx := Z.abs (x1 - x0)). set (dy := Z.abs (y1 - y0)).
  set (sx := if x0 <? x1 then 1 else -1). set (sy := if y0 <? y1 then 1 else -1).
  assert (line_params x1 y1 dx dy sx sy) as Hp.
  { unfold line_params, coord, dx, dy, sx, sy.
    repeat split; try lia; destruct (x0 <? x1), (y0 <? y1); auto. }
  assert (line_inv x1 y1 dx dy sx sy x0 y0 (dx - dy) 0 0) as Hi.
  { unfold line_inv, dx, dy, sx, sy.
    destruct (Z.ltb_spec x0 x1), (Z.ltb_spec y0 y1); repeat split; lia. }
  destruct (line_loop_runs x1 y1 dx dy sx sy color Hp fuel x0 y0 (dx - dy) 0 0 s Hi
              ltac:(rewrite !Z.sub_0_r; exact Hfuel))
    as (s' & pts & Hrun & Hhd & Hlast & Hpath & Hch & Hlen).
  exists s', pts. rewrite Hrun. split; [reflexivity|].
  split; [eapply line_loop_plots, Hrun|].
  repeat split; auto.
  - eapply Forall_impl; [exact Hpath|]. intros p. apply on_path_in_box.
  - rewrite !Z.sub_0_r in Hlen. exact Hlen.
Qed.

(** X13. For end points with coordinates of at most 2^26 in absolute
    value, on the screen or off it, [draw_line] leaves its loop: with fuel
    for [|x1 - x0| + |y1 - y0| + 1] iterations it returns, and more fuel
    changes nothing.  The points it passes to [put_pixel] begin with
    [(x0, y0)] and end with [(x1, y1)], each is next to the one before
    (a step of one along x, along y, or both, never none), and all lie in
    the rectangle spanned by the two end points. *)
Theorem draw_line_reaches_end x0 y0 x1 y1 color s fuel :
  coord x0 -> coord y0 -> coord x1 -> coord y1 ->
  (Z.to_nat (Z.abs (x1 - x0) + Z.abs (y1 - y0)) < fuel)%nat ->
  exists s' pts,
    draw_line fuel x0 y0 x1 y1 color s = Some (s', pts) /\
    (forall fuel', (fuel <= fuel')%nat ->
       draw_line fuel' x0 y0 x1 y1 color s = Some (s', pts)) /\
    hd_error pts = Some (x0, y0) /\
    last pts = Some (x1, y1) /\
    chained pts /\
    Forall (in_box x0 y0 x1 y1) pts /\
    (length pts <= Z.to_nat (Z.abs (x1 - x0) + Z.abs (y1 - y0)) + 1)%nat.
Proof.
  intros Hx0 Hy0 Hx1 Hy1 Hfuel.
  destruct (draw_line_runs x0 y0 x1 y1 color s fuel Hx0 Hy0 Hx1 Hy1 Hfuel)
    as (s' & pts & Hrun & _ & Hhd & Hlast & Hbox & Hch & Hlen).
  exists s', pts. repeat split; auto.
  intros fuel' Hle. unfold draw_line in *.
  eapply line_loop_more_fuel; eassumption.
Qed.

Lemma draw_line_reaches_end_witness :
  let s := {| screen_width := 4; screen_height := 3; framebuffer := repeat 0 12 |} in
  exists s' pts,
    draw_line 6 0 0 3 1 255 s = Some (s', pts) /\
    (forall fuel', (6 <= fuel')%nat -> draw_line fuel' 0 0 3 1 255 s = Some (s', pts)) /\
    hd_error pts = Some (0, 0) /\
    last pts = Some (3, 1) /\
    chained pts /\
    Forall (in_box 0 0 3 1) pts /\
    (length pts <= Z.to_nat (Z.abs (3 - 0) + Z.abs (1 - 0)) + 1)%nat.
Proof.
  intros s.
  apply (draw_line_reaches_end 0 0 3 1 255 s 6); unfold coord; lia.
Defined.

(** ** What a line leaves in the framebuffer *)

Lemma plot_all_cons color p pts s :
  plot_all color (p :: pts) s = plot_all color pts (put_pixel (fst p) (snd p) color s).
Proof. reflexivity. Qed.

Lemma plot_all_dims color pts : forall s,
  screen_width (plot_all color pts s) = screen_width s /\
  screen_height (plot_all color pts s) = screen_height s /\
  length (framebuffer (plot_all color pts s)) = length (framebuffer s).
Proof.
  induction pts as [|p pts IH]; intros s; [auto|].
  rewrite plot_all_cons.
  destruct (IH (put_pixel (fst p) (snd p) color s)) as (-> & -> & ->).
  apply put_pixel_dims.
Qed.

Lemma put_pixel_keeps s x y color (i : nat) :
  framebuffer s !! i = Some color ->
  framebuffer (put_pixel x y color s) !! i = Some color.
Proof.
  intros H. unfold put_pixel.
  destruct ((x >=? 0) && (x <? screen_width s) && (y >=? 0) && (y <? screen_height s));
    [|exact H].
  simpl. unfold store_pixel. destruct (_ <? 0); [exact H|].
  rewrite list_lookup_insert. case_decide as Hd; [reflexivity|exact H].
Qed.

Lemma plot_all_keeps color pts (i : nat) : forall s,
  framebuffer s !! i = Some color ->
  framebuffer (plot_all color pts s) !! i = Some color.
Proof.
  induction pts as [|p pts IH]; intros s H; [exact H|].
  rewrite plot_all_cons.
  apply IH, put_pixel_keeps, H.
Qed.

Lemma plot_all_hits color pts : forall s x y,
  screen_ok s -> In (x, y) pts -> on_screen s x y ->
  framebuffer (plot_all color pts s) !! Z.to_nat (pixel_index s x y) = Some color.
Proof.
  induction pts as [|p pts IH]; intros s x y Hs Hin Hon; [destruct Hin|].
  rewrite plot_all_cons.
  destruct Hin as [->|Hin].
  - apply plot_all_keeps. simpl.
    destruct (put_pixel_sets_cell s x y color Hs Hon) as [_ H]. exact H.
  - specialize (IH (put_pixel (fst p) (snd p) color s) x y
                   (put_pixel_ok _ _ _ _ Hs) Hin
                   (proj2 (put_pixel_on_screen s _ _ color x y) Hon)).
    unfold pixel_index in *.
    destruct (put_pixel_dims s (fst p) (snd p) color) as (Hw & _).
    rewrite Hw in IH. exact IH.
Qed.

Lemma plot_all_misses color pts (i : nat) : forall s,
  screen_ok s ->
  (forall x y, In (x, y) pts -> on_screen s x y -> Z.to_nat (pixel_index s x y) <> i) ->
  framebuffer (plot_all color pts s) !! i = framebuffer s !! i.
Proof.
  induction pts as [|[px py] pts IH]; intros s Hs Hmiss; [reflexivity|].
  rewrite plot_all_cons. cbn [fst snd].
  rewrite IH.
  - destruct (on_screen_or_not s px py) as [Hon|Hoff].
    + rewrite (put_pixel_on s px py color Hs Hon). simpl.
      apply list_lookup_insert_ne. apply Hmiss; [left; reflexivity|exact Hon].
    + rewrite (put_pixel_off s px py color Hoff). reflexivity.
  - apply put_pixel_ok, Hs.
  - intros x y Hin Hon.
    pose proof (proj1 (put_pixel_on_screen s px py color x y) Hon) as Hon'.
    unfold pixel_index. destruct (put_pixel_dims s px py color) as (-> & _).
    apply Hmiss; [right; exact Hin|exact Hon'].
Qed.

Lemma hd_error_In {A : Type} (l : list A) x : hd_error l = Some x -> In x l.
Proof. destruct l; [discriminate|]. intros [= ->]. left. reflexivity. Qed.

Lemma last_In {A : Type} (l : list A) x : last l = Some x -> In x l.
Proof.
  induction l as [|y l IH]; [discriminate|].
  destruct l as [|z l]; simpl in *.
  - intros [= ->]. left. reflexivity.
  - intros H. right. apply IH, H.
Qed.

(** X14. What [draw_line] leaves on a screen, for end points on it or off
    it.  Every point of the line that is on the screen has the colour
    afterwards, the two end points among them; every other pixel holds
    what it held before, so in particular every pixel outside the rectangle
    spanned by the end points; the cells after the screen's pixels are
    untouched and the framebuffer keeps its length. *)
Theorem draw_line_paints_only_the_line s x0 y0 x1 y1 color fuel :
  screen_ok s ->
  coord x0 -> coord y0 -> coord x1 -> coord y1 ->
  (Z.to_nat (Z.abs (x1 - x0) + Z.abs (y1 - y0)) < fuel)%nat ->
  exists s' pts,
    draw_line fuel x0 y0 x1 y1 color s = Some (s', pts) /\
    In (x0, y0) pts /\ In (x1, y1) pts /\
    (forall x y, In (x, y) pts -> on_screen s x y ->
       framebuffer s' !! Z.to_nat (pixel_index s x y) = Some color) /\
    (forall x y, on_screen s x y -> ~ In (x, y) pts ->
       framebuffer s' !! Z.to_nat (pixel_index s x y) =
       framebuffer s !! Z.to_nat (pixel_index s x y)) /\
    (forall x y, on_screen s x y -> ~ in_box x0 y0 x1 y1 (x, y) ->
       framebuffer s' !! Z.to_nat (pixel_index s x y) =
       framebuffer s !! Z.to_nat (pixel_index s x y)) /\
    (forall i : nat, screen_width s * screen_height s <= Z.of_nat i ->
       framebuffer s' !! i = framebuffer s !! i) /\
    length (framebuffer s') = length (framebuffer s) /\
    screen_width s' = screen_width s /\ screen_height s' = screen_height s.
Proof.
  intros Hs Hx0 Hy0 Hx1 Hy1 Hfuel.
  destruct (draw_line_runs x0 y0 x1 y1 color s fuel Hx0 Hy0 Hx1 Hy1 Hfuel)
    as (s' & pts & Hrun & -> & Hhd & Hlast & Hbox & _ & _).
  exists (plot_all color pts s), pts.
  destruct (plot_all_dims color pts s) as (Hw & Hh & Hl).
  assert (forall x y, on_screen s x y -> ~ In (x, y) pts ->
            framebuffer (plot_all color pts s) !! Z.to_nat (pixel_index s x y) =
            framebuffer s !! Z.to_nat (pixel_index s x y)) as Hother.
  { intros x y Hon Hnot. apply plot_all_misses; [exact Hs|].
    intros x' y' Hin' Hon' E. apply Hnot.
    destruct (pixel_index_range s x y Hs Hon) as [_ Hi].
    destruct (pixel_index_range s x' y' Hs Hon') as [_ Hi'].
    destruct (pixel_index_inj s x y x' y' Hon Hon' ltac:(lia)) as [-> ->].
    exact Hin'. }
  split; [exact Hrun|].
  split; [apply hd_error_In, Hhd|]. split; [apply last_In, Hlast|].
  split; [intros x y Hin Hon; apply plot_all_hits; assumption|].
  split; [exact Hother|]. split; [|split; [|auto]].
  - intros x y Hon Hout. apply Hother; [exact Hon|].
    intros Hin. apply Hout. rewrite Forall_forall in Hbox.
    apply (Hbox (x, y)). apply list_elem_of_In. exact Hin.
  - intros i Hi. apply plot_all_misses; [exact Hs|].
    intros x y _ Hon. destruct (pixel_index_range s x y Hs Hon) as [_ Hidx]. lia.
Qed.

Lemma draw_line_paints_only_the_line_witness :
  let s := {| screen_width := 4; screen_height := 3; framebuffer := repeat 0 12 |} in
  exists s' pts,
    draw_line 9 (-1) 0 5 2 255 s = Some (s', pts) /\
    In (-1, 0) pts /\ In (5, 2) pts /\
    (forall x y, In (x, y) pts -> on_screen s x y ->
       framebuffer s' !! Z.to_nat (pixel_index s x y) = Some 255) /\
    (forall x y, on_screen s x y -> ~ In (x, y) pts ->
       framebuffer s' !! Z.to_nat (pixel_index s x y) =
       framebuffer s !! Z.to_nat (pixel_index s x y)) /\
    (forall x y, on_screen s x y -> ~ in_box (-1) 0 5 2 (x, y) ->
       framebuffer s' !! Z.to_nat (pixel_index s x y) =
       framebuffer s !! Z.to_nat (pixel_index s x y)) /\
    (forall i : nat, screen_width s * screen_height s <= Z.of_nat i ->
       framebuffer s' !! i = framebuffer s !! i) /\
    length (framebuffer s') = length (framebuffer s) /\
    screen_width s' = screen_width s /\ screen_height s' = screen_height s.
Proof.
  intros s.
  apply (draw_line_paints_only_the_line s (-1) 0 5 2 255 9);
    unfold screen_ok, coord; simpl; lia.
Defined.

(** ** [draw_triangle] *)

Lemma plot_all_app color p q s :
  plot_all color (p ++ q) s = plot_all color q (plot_all color p s).
Proof. unfold plot_all. apply fold_left_app. Qed.

(** X15. [draw_triangle] draws the closed outline and no more.  With fuel
    for the longest of the three edges it returns.  Its points are three
    lines one after the other: from the first vertex to the second, from
    the second to the third, and from the third back to the first; each
    begins and ends at its two vertices, goes by steps of one pixel and
    stays in the rectangle its two vertices span.  Every one of the points
    that is on the screen has the colour afterwards, and every other pixel
    is as it was. *)
Theorem draw_triangle_outline s x0 y0 x1 y1 x2 y2 color fuel :
  screen_ok s ->
  coord x0 -> coord y0 -> coord x1 -> coord y1 -> coord x2 -> coord y2 ->
  (Z.to_nat (Z.abs (x1 - x0) + Z.abs (y1 - y0)) < fuel)%nat ->
  (Z.to_nat (Z.abs (x2 - x1) + Z.abs (y2 - y1)) < fuel)%nat ->
  (Z.to_nat (Z.abs (x0 - x2) + Z.abs (y0 - y2)) < fuel)%nat ->
  exists s' e1 e2 e3,
    draw_triangle fuel x0 y0 x1 y1 x2 y2 color s = Some (s', e1 ++ e2 ++ e3) /\
    (hd_error e1 = Some (x0, y0) /\ last e1 = Some (x1, y1) /\
     chained e1 /\ Forall (in_box x0 y0 x1 y1) e1) /\
    (hd_error e2 = Some (x1, y1) /\ last e2 = Some (x2, y2) /\
     chained e2 /\ Forall (in_box x1 y1 x2 y2) e2) /\
    (hd_error e3 = Some (x2, y2) /\ last e3 = Some (x0, y0) /\
     chained e3 /\ Forall (in_box x2 y2 x0 y0) e3) /\
    (forall x y, In (x, y) (e1 ++ e2 ++ e3) -> on_screen s x y ->
       framebuffer s' !! Z.to_nat (pixel_index s x y) = Some color) /\
    (forall x y, on_screen s x y -> ~ In (x, y) (e1 ++ e2 ++ e3) ->
       framebuffer s' !! Z.to_nat (pixel_index s x y) =
       framebuffer s !! Z.to_nat (pixel_index s x y)) /\
    (forall i : nat, screen_width s * screen_height s <= Z.of_nat i ->
       framebuffer s' !! i = framebuffer s !! i) /\
    length (framebuffer s') = length (framebuffer s).
Proof.
  intros Hs Hx0 Hy0 Hx1 Hy1 Hx2 Hy2 F1 F2 F3. unfold draw_triangle.
  destruct (draw_line_runs x0 y0 x1 y1 color s fuel Hx0 Hy0 Hx1 Hy1 F1)
    as (s1 & p1 & -> & -> & Hhd1 & Hl1 & Hb1 & Hc1 & _).
  destruct (draw_line_runs x1 y1 x2 y2 color (plot_all color p1 s) fuel
              Hx1 Hy1 Hx2 Hy2 F2)
    as (s2 & p2 & -> & -> & Hhd2 & Hl2 & Hb2 & Hc2 & _).
  destruct (draw_line_runs x2 y2 x0 y0 color
              (plot_all color p2 (plot_all color p1 s)) fuel Hx2 Hy2 Hx0 Hy0 F3)
    as (s3 & p3 & -> & -> & Hhd3 & Hl3 & Hb3 & Hc3 & _).
  eexists _, p1, p2, p3. split; [reflexivity|].
  rewrite <- !plot_all_app.
  set (pts := p1 ++ p2 ++ p3).
  destruct (plot_all_dims color pts s) as (_ & _ & Hlen).
  split; [auto|]. split; [auto|]. split; [auto|].
  split; [|split; [|split]].
  - intros x y Hin Hon. apply plot_all_hits; assumption.
  - intros x y Hon Hnot. apply plot_all_misses; [exact Hs|].
    intros x' y' Hin' Hon' E. apply Hnot.
    destruct (pixel_index_range s x y Hs Hon) as [_ Hi].
    destruct (pixel_index_range s x' y' Hs Hon') as [_ Hi'].
    destruct (pixel_index_inj s x y x' y' Hon Hon' ltac:(lia)) as [-> ->].
    exact Hin'.
  - intros i Hi. apply plot_all_misses; [exact Hs|].
    intros x' y' _ Hon' E.
    destruct (pixel_index_range s x' y' Hs Hon') as [_ Hi']. lia.
  - exact Hlen.
Qed.

Lemma draw_triangle_outline_witness :
  let s := {| screen_width := 4; screen_height := 3; framebuffer := repeat 0 12 |} in
  exists s' e1 e2 e3,
    draw_triangle 8 0 0 3 0 1 2 255 s = Some (s', e1 ++ e2 ++ e3) /\
    (hd_error e1 = Some (0, 0) /\ last e1 = Some (3, 0) /\
     chained e1 /\ Forall (in_box 0 0 3 0) e1) /\
    (hd_error e2 = Some (3, 0) /\ last e2 = Some (1, 2) /\
     chained e2 /\ Forall (in_box 3 0 1 2) e2) /\
    (hd_error e3 = Some (1, 2) /\ last e3 = Some (0, 0) /\
     chained e3 /\ Forall (in_box 1 2 0 0) e3) /\
    (forall x y, In (x, y) (e1 ++ e2 ++ e3) -> on_screen s x y ->
       framebuffer s' !! Z.to_nat (pixel_index s x y) = Some 255) /\
    (forall x y, on_screen s x y -> ~ In (x, y) (e1 ++ e2 ++ e3) ->
       framebuffer s' !! Z.to_nat (pixel_index s x y) =
       framebuffer s !! Z.to_nat (pixel_index s x y)) /\
    (forall i : nat, screen_width s * screen_height s <= Z.of_nat i ->
       framebuffer s' !! i = framebuffer s !! i) /\
    length (framebuffer s') = length (framebuffer s).
Proof.
  intros s.
  apply (draw_triangle_outline s 0 0 3 0 1 2 255 8);
    unfold screen_ok, coord; simpl; lia.
Defined.

(** * The blinker *)

Lemma pin_mask_bit i : 0 <= i -> Z.testbit (Z.shiftl 1 PB5) i = (i =? 5).
Proof.
  intros Hi. change (Z.shiftl 1 PB5) with (2 ^ 5).
  rewrite Z.pow2_bits_eqb by lia. apply Z.eqb_sym.
Qed.

Lemma byte_high_bits reg i : is_byte reg -> 8 <= i -> Z.testbit reg i = false.
Proof.
  unfold is_byte. intros Hr Hi.
  destruct (Z.eq_dec reg 0) as [->|Hne]; [apply Z.bits_0|].
  apply Z.bits_above_log2; [lia|].
  apply Z.lt_le_trans with 8; [|exact Hi].
  apply Z.log2_lt_pow2; lia.
Qed.

Lemma to_uchar_bit z i :
  0 <= i -> Z.testbit (to_uchar z) i = if i <? 8 then Z.testbit z i else false.
Proof.
  intros Hi. unfold to_uchar. change 256 with (2 ^ 8).
  destruct (Z.ltb_spec i 8).
  - apply Z.mod_pow2_bits_low. lia.
  - apply Z.mod_pow2_bits_high. lia.
Qed.

Lemma set_pin_bit reg i :
  is_byte reg -> 0 <= i ->
  Z.testbit (set_pin reg) i = if i =? 5 then true else Z.testbit reg i.
Proof.
  intros Hr Hi. unfold set_pin.
  rewrite to_uchar_bit, Z.lor_spec, pin_mask_bit by exact Hi.
  destruct (Z.ltb_spec i 8), (Z.eqb_spec i 5); try lia;
    rewrite ?orb_true_r, ?orb_false_r; try reflexivity.
  symmetry. apply byte_high_bits; assumption.
Qed.

Lemma clear_pin_bit reg i :
  is_byte reg -> 0 <= i ->
  Z.testbit (clear_pin reg) i = if i =? 5 then false else Z.testbit reg i.
Proof.
  intros Hr Hi. unfold clear_pin.
  rewrite to_uchar_bit, Z.land_spec, Z.lnot_spec, pin_mask_bit by exact Hi.
  destruct (Z.ltb_spec i 8), (Z.eqb_spec i 5); try lia;
    simpl; rewrite ?andb_true_r, ?andb_false_r; try reflexivity.
  symmetry. apply byte_high_bits; assumption.
Qed.

Lemma to_uchar_is_byte z : is_byte (to_uchar z).
Proof. unfold is_byte, to_uchar. apply Z.mod_pos_bound. lia. Qed.

Lemma clear_set_pin reg : is_byte reg -> clear_pin (set_pin reg) = clear_pin reg.
Proof.
  intros Hr. apply Z.bits_inj'. intros i Hi.
  rewrite !clear_pin_bit, set_pin_bit by (exact Hr || exact Hi || apply to_uchar_is_byte).
  destruct (i =? 5); reflexivity.
Qed.

Lemma set_clear_pin reg : is_byte reg -> set_pin (clear_pin reg) = set_pin reg.
Proof.
  intros Hr. apply Z.bits_inj'. intros i Hi.
  rewrite !set_pin_bit, clear_pin_bit by (exact Hr || exact Hi || apply to_uchar_is_byte).
  destruct (i =? 5); reflexivity.
Qed.

Lemma blink_loop_trace n : forall r,
  is_byte (PORTB r) ->
  blink_loop n r =
  ({| DDRB := DDRB r;
      PORTB := match n with O => PORTB r | S _ => clear_pin (PORTB r) end |},
   concat (replicate n [(set_pin (PORTB r), 500); (clear_pin (PORTB r), 500)])).
Proof.
  induction n as [|n IH]; intros r Hr; [destruct r; reflexivity|].
  cbn [blink_loop]. cbn [DDRB PORTB].
  rewrite IH by apply to_uchar_is_byte. cbn [DDRB PORTB].
  rewrite (clear_set_pin (PORTB r) Hr).
  rewrite (set_clear_pin (PORTB r) Hr).
  assert (clear_pin (clear_pin (PORTB r)) = clear_pin (PORTB r)) as Hcc.
  { rewrite <- (clear_set_pin (clear_pin (PORTB r))) by apply to_uchar_is_byte.
    rewrite set_clear_pin, clear_set_pin by exact Hr. reflexivity. }
  destruct n; rewrite ?Hcc; reflexivity.
Qed.

(** X16. The blinker drives pin 5 of port B and nothing else.  From any
    register contents, [main] sets bit 5 of [DDRB] and leaves its other
    bits; then every turn of the loop holds [PORTB] for 500 ms with bit 5
    set and for 500 ms with bit 5 clear, the other seven bits being at all
    times what they were at the start; all turns are alike. *)
Theorem blink_drives_pin5_only n r :
  is_byte (DDRB r) -> is_byte (PORTB r) ->
  let on := set_pin (PORTB r) in
  let off := clear_pin (PORTB r) in
  snd (blink_main n r) = concat (replicate n [(on, 500); (off, 500)]) /\
  DDRB (fst (blink_main n r)) = set_pin (DDRB r) /\
  (forall i, 0 <= i ->
     Z.testbit on i = (if i =? 5 then true else Z.testbit (PORTB r) i) /\
     Z.testbit off i = (if i =? 5 then false else Z.testbit (PORTB r) i) /\
     Z.testbit (set_pin (DDRB r)) i = (if i =? 5 then true else Z.testbit (DDRB r) i)) /\
  is_byte on /\ is_byte off.
Proof.
  intros Hd Hp on off. unfold blink_main.
  rewrite blink_loop_trace by exact Hp. cbn [fst snd DDRB PORTB].
  split; [reflexivity|]. split; [reflexivity|]. split.
  - intros i Hi. split; [apply set_pin_bit; assumption|].
    split; [apply clear_pin_bit; assumption|apply set_pin_bit; assumption].
  - split; apply to_uchar_is_byte.
Qed.

Lemma blink_drives_pin5_only_witness :
  let r := {| DDRB := 0; PORTB := 129 |} in
  let on := set_pin (PORTB r) in
  let off := clear_pin (PORTB r) in
  snd (blink_main 3 r) = concat (replicate 3 [(on, 500); (off, 500)]) /\
  DDRB (fst (blink_main 3 r)) = set_pin (DDRB r) /\
  (forall i, 0 <= i ->
     Z.testbit on i = (if i =? 5 then true else Z.testbit (PORTB r) i) /\
     Z.testbit off i = (if i =? 5 then false else Z.testbit (PORTB r) i) /\
     Z.testbit (set_pin (DDRB r)) i = (if i =? 5 then true else Z.testbit (DDRB r) i)) /\
  is_byte on /\ is_byte off.
Proof.
  intros r. apply (blink_drives_pin5_only 3 r); unfold is_byte; simpl; lia.
Defined.

(** * The frame copy *)

Section FrameCopy.

Variables (w h vw vh stride ox oy : Z) (src : list Z).
Hypothesis Hw : 0 <= w.
Hypothesis Hh : 0 <= h.
Hypothesis Hwi : w < 2147483648.
Hypothesis Hhi : h < 2147483648.
Hypothesis Hscreen : w * h < 2147483648.
Hypothesis Hvw : 0 <= vw.
Hypothesis Hvh : 0 <= vh.
Hypothesis Hox : 0 <= ox /\ ox + vw <= w.
Hypothesis Hoy : 0 <= oy /\ oy + vh <= h.
Hypothesis Hstride : vw <= stride.
Hypothesis Hsrc : stride * vh < 2147483648.

Lemma row_in_screen y :
  0 <= y < vh ->
  0 <= (y + oy) * w /\ 0 <= row_base w ox oy y /\ row_base w ox oy y + vw <= w * h /\
  0 <= y * stride /\ y * stride + vw <= stride * vh.
Proof using Hw Hh Hvw Hvh Hox Hoy Hstride.
  intros Hy. unfold row_base.
  assert ((y + oy) * w <= (h - 1) * w) by (apply Z.mul_le_mono_nonneg_r; lia).
  assert (0 <= (y + oy) * w) by (apply Z.mul_nonneg_nonneg; lia).
  assert (y * stride <= (vh - 1) * stride) by (apply Z.mul_le_mono_nonneg_r; lia).
  assert (0 <= y * stride) by (apply Z.mul_nonneg_nonneg; lia).
  lia.
Qed.

Lemma copy_pixel_in x y (fb : list Z) :
  0 <= x < vw -> 0 <= y < vh ->
  copy_pixel w h src stride ox oy x y fb =
  <[Z.to_nat (row_base w ox oy y + x) := src_pixel src (y * stride + x)]> fb.
Proof using Hw Hh Hwi Hhi Hscreen Hvw Hvh Hox Hoy Hstride Hsrc.
  intros Hx Hy. destruct (row_in_screen y Hy) as (H1 & H2 & H3 & H4 & H5).
  unfold copy_pixel, row_base in *.
  assert (0 <= w * h) by (apply Z.mul_nonneg_nonneg; assumption).
  rewrite (wrap_int_small (y + oy)) by lia.
  rewrite (wrap_int_small ((y + oy) * w)) by lia.
  rewrite (wrap_int_small (x + ox)) by lia.
  rewrite (wrap_int_small ((y + oy) * w + (x + ox))) by lia.
  rewrite (wrap_int_small (w * h)) by lia.
  rewrite (wrap_int_small (y * stride)) by lia.
  rewrite (wrap_int_small (y * stride + x)) by lia.
  replace ((y + oy) * w + (x + ox)) with ((y + oy) * w + ox + x) by lia.
  destruct (Z.geb_spec ((y + oy) * w + ox + x) 0); [|lia].
  destruct (Z.ltb_spec ((y + oy) * w + ox + x) (w * h)); [|lia].
  simpl. unfold store_pixel.
  destruct (Z.ltb_spec ((y + oy) * w + ox + x) 0); [lia|reflexivity].
Qed.

Lemma copy_row_lookup n y : forall x (fb : list Z) (j : nat),
  0 <= y < vh -> 0 <= x -> x + Z.of_nat n <= vw ->
  w * h <= Z.of_nat (length fb) ->
  copy_row n w h src stride ox oy x y fb !! j =
  if decide (row_base w ox oy y + x <= Z.of_nat j < row_base w ox oy y + x + Z.of_nat n)
  then Some (src_pixel src (y * stride + (Z.of_nat j - row_base w ox oy y)))
  else fb !! j.
Proof using Hw Hh Hwi Hhi Hscreen Hvw Hvh Hox Hoy Hstride Hsrc.
  induction n as [|n IH]; intros x fb j Hy Hx Hn Hlen; cbn [copy_row].
  - case_decide; [lia|reflexivity].
  - destruct (row_in_screen y Hy) as (H1 & H2 & H3 & H4 & H5).
    rewrite wrap_int_small by lia.
    rewrite IH by (rewrite ?copy_pixel_in, ?length_insert by lia; lia).
    rewrite copy_pixel_in by lia.
    rewrite list_lookup_insert.
    repeat case_decide; try reflexivity; try lia.
    f_equal. f_equal. lia.
Qed.

Lemma copy_row_length n y : forall x (fb : list Z),
  length (copy_row n w h src stride ox oy x y fb) = length fb.
Proof using Type.
  induction n as [|n IH]; intros x fb; cbn [copy_row]; [reflexivity|].
  rewrite IH. unfold copy_pixel.
  destruct (_ && _); [|reflexivity].
  unfold store_pixel. destruct (_ <? 0); [reflexivity|apply length_insert].
Qed.

Lemma copy_rows_length m : forall y (fb : list Z),
  length (copy_rows m w h vw src stride ox oy y fb) = length fb.
Proof using Type.
  induction m as [|m IH]; intros y fb; cbn [copy_rows]; [reflexivity|].
  rewrite IH. apply copy_row_length.
Qed.

Lemma min_w_vw : Z.to_nat (Z.min w vw) = Z.to_nat vw.
Proof using Hox. f_equal. lia. Qed.

Lemma copy_rows_miss m : forall y (fb : list Z) (j : nat),
  0 <= y -> y + Z.of_nat m <= vh ->
  w * h <= Z.of_nat (length fb) ->
  (forall y', y <= y' < y + Z.of_nat m ->
              ~ (row_base w ox oy y' <= Z.of_nat j < row_base w ox oy y' + vw)) ->
  copy_rows m w h vw src stride ox oy y fb !! j = fb !! j.
Proof using Hw Hh Hwi Hhi Hscreen Hvw Hvh Hox Hoy Hstride Hsrc.
  induction m as [|m IH]; intros y fb j Hy Hm Hlen Hmiss; cbn [copy_rows];
    [reflexivity|].
  rewrite wrap_int_small by lia.
  rewrite IH; [| lia | lia | rewrite copy_row_length; exact Hlen
               | intros y' Hy'; apply Hmiss; lia ].
  rewrite min_w_vw, copy_row_lookup by lia.
  case_decide as Hd; [|reflexivity].
  exfalso. apply (Hmiss y); lia.
Qed.

Lemma base_next y y' : y < y' -> row_base w ox oy y + w <= row_base w ox oy y'.
Proof using Hw.
  intros Hlt. unfold row_base.
  assert ((y + 1 + oy) * w <= (y' + oy) * w) by (apply Z.mul_le_mono_nonneg_r; lia).
  lia.
Qed.

Lemma copy_rows_hit m : forall y (fb : list Z) x' y',
  0 <= y -> y + Z.of_nat m <= vh ->
  w * h <= Z.of_nat (length fb) ->
  y <= y' < y + Z.of_nat m -> 0 <= x' < vw ->
  copy_rows m w h vw src stride ox oy y fb !! Z.to_nat (row_base w ox oy y' + x') =
  Some (src_pixel src (y' * stride + x')).
Proof using Hw Hh Hwi Hhi Hscreen Hvw Hvh Hox Hoy Hstride Hsrc.
  induction m as [|m IH]; intros y fb x' y' Hy Hm Hlen Hy' Hx'; [lia|].
  cbn [copy_rows]. rewrite wrap_int_small by lia.
  destruct (Z.eq_dec y' y) as [->|Hne].
  - destruct (row_in_screen y ltac:(lia)) as (H1 & H2 & H3 & H4 & H5).
    rewrite copy_rows_miss; [| lia | lia | rewrite copy_row_length; exact Hlen |].
    + rewrite min_w_vw, copy_row_lookup by lia.
      case_decide as Hd; [|lia]. f_equal. f_equal. lia.
    + intros y'' Hy''. pose proof (base_next y y'' ltac:(lia)). lia.
  - apply IH; try lia. rewrite copy_row_length. exact Hlen.
Qed.

(** A cell that is the place of a pixel of the video is on its row. *)
Lemma base_row X Y y' :
  0 <= X < w -> row_base w ox oy y' <= Y * w + X < row_base w ox oy y' + vw ->
  Y = y' + oy /\ ox <= X < ox + vw.
Proof using Hw Hox.
  unfold row_base. intros HX Hin.
  assert (Y = y' + oy) as ->.
  { destruct (Z_lt_le_dec Y (y' + oy)) as [Hlt|Hge].
    - assert ((Y + 1) * w <= (y' + oy) * w) by (apply Z.mul_le_mono_nonneg_r; lia).
      lia.
    - destruct (Z_lt_le_dec (y' + oy) Y) as [Hlt|Hle]; [|lia].
      assert ((y' + oy + 1) * w <= Y * w) by (apply Z.mul_le_mono_nonneg_r; lia).
      lia. }
  split; [reflexivity|lia].
Qed.

End FrameCopy.

Lemma centre_offset a b :
  0 <= b <= a -> a < 2147483648 ->
  Z.quot (wrap_int (a - b)) 2 = (a - b) / 2 /\
  0 <= (a - b) / 2 /\ (a - b) / 2 + b <= a.
Proof.
  intros Hb Ha. rewrite wrap_int_small by lia.
  rewrite Z.quot_div_nonneg by lia.
  split; [reflexivity|]. Z.div_mod_to_equations. lia.
Qed.

(** X17. A frame whose video fits the screen is copied to the middle of
    it.  The pixel [(x, y)] of the video lands in the pixel
    [(x + offset_x, y + offset_y)] of the screen, the offsets being half of
    what the video leaves free, rounded down; every pixel of the screen
    outside that rectangle, and every cell after the screen's pixels, holds
    what it held before, and the framebuffer keeps its length. *)
Theorem frame_copy_centred src linesize vw vh s :
  screen_ok s -> frame_fits src linesize vw vh s ->
  let s' := render_frame_to_framebuffer src linesize vw vh s in
  let stride := Z.quot linesize 4 in
  let ox := (screen_width s - vw) / 2 in
  let oy := (screen_height s - vh) / 2 in
  (forall x y, 0 <= x < vw -> 0 <= y < vh ->
     on_screen s (x + ox) (y + oy) /\
     Z.of_nat (Z.to_nat (y * stride + x)) = y * stride + x /\
     is_Some (src !! Z.to_nat (y * stride + x)) /\
     framebuffer s' !! Z.to_nat (pixel_index s (x + ox) (y + oy)) =
     src !! Z.to_nat (y * stride + x)) /\
  (forall X Y, on_screen s X Y -> ~ (ox <= X < ox + vw /\ oy <= Y < oy + vh) ->
     framebuffer s' !! Z.to_nat (pixel_index s X Y) =
     framebuffer s !! Z.to_nat (pixel_index s X Y)) /\
  (forall i : nat, screen_width s * screen_height s <= Z.of_nat i ->
     framebuffer s' !! i = framebuffer s !! i) /\
  length (framebuffer s') = length (framebuffer s) /\
  screen_width s' = screen_width s /\ screen_height s' = screen_height s.
Proof.
  intros Hs (Hwi & Hhi & Hvw & Hvh & Hls & Hst & Hsv & Hsrc) s' stride ox oy.
  pose proof Hs as (Hw & Hh & Hscreen & Hlen).
  destruct (centre_offset (screen_width s) vw Hvw Hwi) as (Eox & Hox1 & Hox2).
  destruct (centre_offset (screen_height s) vh Hvh Hhi) as (Eoy & Hoy1 & Hoy2).
  fold ox in Eox, Hox1, Hox2. fold oy in Eoy, Hoy1, Hoy2. fold stride in Hst, Hsv, Hsrc.
  assert (framebuffer s' =
          copy_rows (Z.to_nat vh) (screen_width s) (screen_height s) vw src stride ox oy 0
                    (framebuffer s)) as Hfb.
  { unfold s', render_frame_to_framebuffer. cbn [framebuffer set_framebuffer].
    rewrite Eox, Eoy. fold stride. f_equal. f_equal. lia. }
  assert (forall y, 0 <= y < vh ->
            0 <= y * stride /\ y * stride + vw <= stride * vh) as Hrow.
  { intros y Hy.
    destruct (row_in_screen (screen_width s) (screen_height s) vw vh stride ox oy
                Hw Hh ltac:(lia) ltac:(lia) (conj Hox1 Hox2) (conj Hoy1 Hoy2) Hst y Hy)
      as (_ & _ & _ & H4 & H5). auto. }
  split; [|split; [|split; [|split; [|split; reflexivity]]]].
  - intros x y Hx Hy. destruct (Hrow y Hy) as [H4 H5].
    split; [unfold on_screen; lia|]. split; [lia|].
    assert ((Z.to_nat (y * stride + x) < length src)%nat) as Hin by lia.
    split; [apply lookup_lt_is_Some_2, Hin|].
    rewrite Hfb.
    replace (pixel_index s (x + ox) (y + oy))
      with (row_base (screen_width s) ox oy y + x) by (unfold pixel_index, row_base; lia).
    rewrite (copy_rows_hit (screen_width s) (screen_height s) vw vh stride ox oy src
               Hw Hh Hwi Hhi Hscreen ltac:(lia) ltac:(lia) (conj Hox1 Hox2)
               (conj Hoy1 Hoy2) Hst Hsv) by lia.
    unfold src_pixel. destruct (lookup_lt_is_Some_2 src _ Hin) as [v ->]. reflexivity.
  - intros X Y Hon Hout. rewrite Hfb.
    destruct (pixel_index_range s X Y Hs Hon) as [_ Hidx].
    apply (copy_rows_miss (screen_width s) (screen_height s) vw vh stride ox oy src
             Hw Hh Hwi Hhi Hscreen ltac:(lia) ltac:(lia) (conj Hox1 Hox2)
             (conj Hoy1 Hoy2) Hst Hsv); try lia.
    intros y' Hy' Hin. apply Hout.
    rewrite Z2Nat.id in Hin by lia. unfold pixel_index in Hin.
    destruct (base_row (screen_width s) vw ox oy Hw (conj Hox1 Hox2) X Y y'
                ltac:(unfold on_screen in Hon; lia) Hin) as [-> HX].
    lia.
  - intros i Hi. rewrite Hfb.
    apply (copy_rows_miss (screen_width s) (screen_height s) vw vh stride ox oy src
             Hw Hh Hwi Hhi Hscreen ltac:(lia) ltac:(lia) (conj Hox1 Hox2)
             (conj Hoy1 Hoy2) Hst Hsv); try lia.
    intros y' Hy' Hin.
    destruct (row_in_screen (screen_width s) (screen_height s) vw vh stride ox oy
                Hw Hh ltac:(lia) ltac:(lia) (conj Hox1 Hox2) (conj Hoy1 Hoy2) Hst y'
                ltac:(lia)) as (_ & _ & H3 & _).
    lia.
  - rewrite Hfb. apply copy_rows_length.
Qed.

Lemma frame_copy_centred_witness :
  let s := {| screen_width := 4; screen_height := 3; framebuffer := repeat 0 12 |} in
  let src := [11; 12; 99; 21; 22; 99] in
  let s' := render_frame_to_framebuffer src 12 2 2 s in
  let stride := Z.quot 12 4 in
  let ox := (screen_width s - 2) / 2 in
  let oy := (screen_height s - 2) / 2 in
  (forall x y, 0 <= x < 2 -> 0 <= y < 2 ->
     on_screen s (x + ox) (y + oy) /\
     Z.of_nat (Z.to_nat (y * stride + x)) = y * stride + x /\
     is_Some (src !! Z.to_nat (y * stride + x)) /\
     framebuffer s' !! Z.to_nat (pixel_index s (x + ox) (y + oy)) =
     src !! Z.to_nat (y * stride + x)) /\
  (forall X Y, on_screen s X Y -> ~ (ox <= X < ox + 2 /\ oy <= Y < oy + 2) ->
     framebuffer s' !! Z.to_nat (pixel_index s X Y) =
     framebuffer s !! Z.to_nat (pixel_index s X Y)) /\
  (forall i : nat, screen_width s * screen_height s <= Z.of_nat i ->
     framebuffer s' !! i = framebuffer s !! i) /\
  length (framebuffer s') = length (framebuffer s) /\
  screen_width s' = screen_width s /\ screen_height s' = screen_height s.
Proof.
  intros s src.
  apply (frame_copy_centred src 12 2 2 s).
  - unfold screen_ok. simpl. lia.
  - unfold frame_fits. simpl. repeat split; try lia; discriminate.
Defined.
